(** * AI Bookmark Brain: search ranking and enrichment queue

    A shallow embedding of the search-and-ranking subsystem
    ([search-config.ts], [search-engine.ts], [frecency.service.ts]), of the
    garbled-content detector and of the enrichment queue
    ([summarization-queue.ts], [database.service.ts], [schema.ts]),
    together with the properties the specification states about them.

    Conventions.
    - A JavaScript string is the list of its UTF-16 code units ([jsstr]);
      [length] is then JavaScript's [.length].
    - A JavaScript number that is only ever an integer (ids, counters,
      time stamps, lengths) is a [Z] or a [nat]; scores are exact rationals
      ([Q]), which idealises IEEE doubles.
    - Third-party libraries (Fuse.js, pinyin-match, frecency) and the
      built-in, locale-table driven [String.prototype.toLowerCase] are
      parameters of the sections that use them. *)

From Stdlib Require Import ZArith NArith QArith Bool List String Ascii Lia Lqa.
From Stdlib Require Import Sorting.Sorted Sorting.Permutation DecimalString.
From stdpp Require Import base list gmap strings.

Local Open Scope Z_scope.

(* ===================================================================== *)
(** ** JavaScript strings and the regular expressions the sources use     *)
(* ===================================================================== *)

Module JS.

Definition jsstr : Type := list N.

(** An ASCII literal as code units. *)
Definition lit (s : string) : jsstr :=
  List.map N_of_ascii (list_ascii_of_string s).

Definition in_range (lo hi c : N) : bool := ((lo <=? c) && (c <=? hi))%N.

(** ECMAScript [WhiteSpace] and [LineTerminator] code units: the set
    removed by [trim] and matched by the class escape [\s]. *)
Definition is_ws (c : N) : bool :=
  in_range 0x09 0x0D c || (c =? 0x20)%N || (c =? 0xA0)%N || (c =? 0x1680)%N
  || in_range 0x2000 0x200A c || (c =? 0x2028)%N || (c =? 0x2029)%N
  || (c =? 0x202F)%N || (c =? 0x205F)%N || (c =? 0x3000)%N || (c =? 0xFEFF)%N.

Definition not_ws (c : N) : bool := negb (is_ws c).

(** The atom [.] without the [s] flag: anything but a line terminator. *)
Definition is_dot (c : N) : bool :=
  negb ((c =? 0x0A)%N || (c =? 0x0D)%N || (c =? 0x2028)%N || (c =? 0x2029)%N).

Fixpoint trimStart (s : jsstr) : jsstr :=
  match s with
  | c :: s' => if is_ws c then trimStart s' else s
  | [] => []
  end.

Definition trimEnd (s : jsstr) : jsstr := rev (trimStart (rev s)).

Definition trim (s : jsstr) : jsstr := trimEnd (trimStart s).

Fixpoint startsWith (s pat : jsstr) : bool :=
  match pat, s with
  | [], _ => true
  | p :: pat', c :: s' => (c =? p)%N && startsWith s' pat'
  | _ :: _, [] => false
  end.

(** [text.includes(pat)] *)
Fixpoint includes (text pat : jsstr) : bool :=
  startsWith text pat ||
  match text with
  | [] => false
  | _ :: text' => includes text' pat
  end.

(** [x || ''] and the truthiness of an optional string. *)
Definition or_empty (o : option jsstr) : jsstr :=
  match o with Some s => s | None => [] end.

Definition truthy_str (o : option jsstr) : bool :=
  match o with Some (_ :: _) => true | _ => false end.

(** *** A backtracking matcher for the regular expressions in the sources

    Only the constructs that occur are covered: a character class, a
    greedy class repetition [p{min,}], concatenation, a greedy optional
    non-capturing group, a capture group and the end anchor. The
    matcher tries alternatives in ECMAScript priority order and hands
    the rest of the input to a continuation. *)

Inductive regex : Type :=
| Chr (p : N -> bool)
| Rep (min : nat) (p : N -> bool)
| Cat (r1 r2 : regex)
| Opt (r : regex)
| Grp (i : nat) (r : regex)
| Eos.

Definition caps : Type := list (nat * jsstr).

Fixpoint cap (i : nat) (c : caps) : option jsstr :=
  match c with
  | [] => None
  | (j, s) :: c' => if Nat.eqb i j then Some s else cap i c'
  end.

Section Matcher.
Context {R : Type}.

Fixpoint rep (p : N -> bool) (min : nat) (s : jsstr)
         (k : jsstr -> option R) : option R :=
  match s with
  | c :: s' =>
      if p c then
        match rep p (Nat.pred min) s' k with
        | Some r => Some r
        | None => match min with O => k s | S _ => None end
        end
      else match min with O => k s | S _ => None end
  | [] => match min with O => k [] | S _ => None end
  end.

Fixpoint rmatch (r : regex) (s : jsstr) (c : caps)
         (k : jsstr -> caps -> option R) : option R :=
  match r with
  | Chr p =>
      match s with
      | x :: s' => if p x then k s' c else None
      | [] => None
      end
  | Rep n p => rep p n s (fun s' => k s' c)
  | Cat r1 r2 => rmatch r1 s c (fun s' c' => rmatch r2 s' c' k)
  | Opt r1 =>
      match rmatch r1 s c k with
      | Some x => Some x
      | None => k s c
      end
  | Grp i r1 =>
      rmatch r1 s c
        (fun s' c' => k s' ((i, firstn (length s - length s') s) :: c'))
  | Eos => match s with [] => k s c | _ :: _ => None end
  end.
End Matcher.

(** One attempt at the current position: the captures and the rest. *)
Definition match_here (r : regex) (s : jsstr) : option (caps * jsstr) :=
  rmatch r s [] (fun s' c => Some (c, s')).

(** [s.match(/r/g)]: the number of successive non-overlapping matches,
    scanning from the left ([0] when [match] yields [null]). [skip] is
    the number of code units still covered by the previous match. *)
Fixpoint count_matches_from (r : regex) (skip : nat) (s : jsstr) : nat :=
  match s with
  | [] => O
  | _ :: s' =>
      match skip with
      | S n => count_matches_from r n s'
      | O =>
          match match_here r s with
          | Some (_, rest) =>
              S (count_matches_from r (length s - length rest - 1) s')
          | None => count_matches_from r O s'
          end
      end
  end.

Definition count_matches (r : regex) (s : jsstr) : nat :=
  count_matches_from r O s.

(** A literal, and a literal under the [i] flag. For an ASCII letter the
    canonicalisation of the [i] flag identifies exactly its two cases
    (no code unit above 127 may canonicalise into ASCII). *)
Definition is_upper (c : N) : bool := in_range 65 90 c.
Definition is_lower (c : N) : bool := in_range 97 122 c.

Definition eq_ci (a c : N) : bool :=
  (c =? a)%N
  || (is_lower a && (c =? a - 32)%N)
  || (is_upper a && (c =? a + 32)%N).

Fixpoint seq_of (eqc : N -> N -> bool) (s : jsstr) (tail : regex) : regex :=
  match s with
  | [] => tail
  | a :: s' => Cat (Chr (eqc a)) (seq_of eqc s' tail)
  end.

(** [Array.prototype.sort] with a consistent comparator: the stable
    sort, here by insertion. [cmp a b <= 0] keeps [a] in front of [b]. *)
Section Sort.
Context {A : Type} (cmp : A -> A -> Q).

Fixpoint insert_sorted (x : A) (l : list A) : list A :=
  match l with
  | [] => [x]
  | y :: l' => if Qle_bool (cmp x y) 0 then x :: l else y :: insert_sorted x l'
  end.

Fixpoint stable_sort (l : list A) : list A :=
  match l with
  | [] => []
  | x :: l' => insert_sorted x (stable_sort l')
  end.

(** The comparator lets [a] stand in front of [b]. *)
Definition before (a b : A) : Prop := Qle_bool (cmp a b) 0 = true.
End Sort.

(** Decimal rendering of a count inside a template literal. *)
Definition decimal (n : nat) : jsstr :=
  lit (NilZero.string_of_uint (Nat.to_uint n)).

Definition Eps : regex := Rep 0 (fun _ => false).

Definition lit_ci (s : string) : regex := seq_of eq_ci (lit s) Eps.

(** ASCII-only case folding (what SQLite's [LOWER] does, and what
    [toLowerCase] does on ASCII text). *)
Definition lower_ascii (s : jsstr) : jsstr :=
  List.map (fun c => if is_upper c then (c + 32)%N else c) s.

(** Whether a match of [r] may begin with the code unit [c] (an
    over-approximation). *)
Fixpoint first_ok (r : regex) (c : N) : bool :=
  match r with
  | Chr p => p c
  | Rep (S _) p => p c
  | Rep O _ => true
  | Cat r1 _ => first_ok r1 c
  | Opt _ => true
  | Grp _ r1 => first_ok r1 c
  | Eos => false
  end.

End JS.

(* ===================================================================== *)
(** ** Strategy configuration ([search-config.ts])                        *)
(* ===================================================================== *)

Module Config.

Inductive SearchField : Type :=
| F_url | F_title | F_tag | F_summary | F_category | F_notes | F_content.

Inductive MatchMode : Type :=
| exact_case | exact | pinyin | fuzzy.

Record SearchStrategy : Type := mkStrategy {
  id : string;
  field : SearchField;
  matchType : MatchMode;
  enabled : bool;
  label : string;
  labelZh : string;
}.

Record SavedEntry : Type := mkSaved { s_id : string; s_enabled : bool }.

(** [strategies] may be missing from the stored object. *)
Record SearchStrategyOrder : Type := mkOrder {
  strategies : option (list SavedEntry);
}.

#[global] Instance SearchField_eq_dec : EqDecision SearchField.
Proof. solve_decision. Defined.
#[global] Instance MatchMode_eq_dec : EqDecision MatchMode.
Proof. solve_decision. Defined.
#[global] Instance SearchStrategy_eq_dec : EqDecision SearchStrategy.
Proof. solve_decision. Defined.

Definition DEFAULT_SEARCH_STRATEGIES : list SearchStrategy := [
  mkStrategy "url_exact_case" F_url exact_case true "URL (Exact)" "URL（精确）";
  mkStrategy "url_exact" F_url exact true "URL (Case-insensitive)" "URL（忽略大小写）";
  mkStrategy "url_pinyin" F_url pinyin true "URL (Pinyin)" "URL（拼音）";
  mkStrategy "url_fuzzy" F_url fuzzy true "URL (Fuzzy)" "URL（模糊）";
  mkStrategy "title_exact_case" F_title exact_case true "Title (Exact)" "标题（精确）";
  mkStrategy "title_exact" F_title exact true "Title (Case-insensitive)" "标题（忽略大小写）";
  mkStrategy "title_pinyin" F_title pinyin true "Title (Pinyin)" "标题（拼音）";
  mkStrategy "title_fuzzy" F_title fuzzy true "Title (Fuzzy)" "标题（模糊）";
  mkStrategy "tag_exact_case" F_tag exact_case true "Tag (Exact)" "标签（精确）";
  mkStrategy "tag_exact" F_tag exact true "Tag (Case-insensitive)" "标签（忽略大小写）";
  mkStrategy "tag_pinyin" F_tag pinyin true "Tag (Pinyin)" "标签（拼音）";
  mkStrategy "tag_fuzzy" F_tag fuzzy true "Tag (Fuzzy)" "标签（模糊）";
  mkStrategy "summary_exact" F_summary exact true "AI Summary" "AI 摘要";
  mkStrategy "summary_fuzzy" F_summary fuzzy true "AI Summary (Fuzzy)" "AI 摘要（模糊）";
  mkStrategy "category_exact" F_category exact true "Category" "分类";
  mkStrategy "category_pinyin" F_category pinyin true "Category (Pinyin)" "分类（拼音）";
  mkStrategy "notes_exact" F_notes exact true "Notes" "笔记";
  mkStrategy "notes_fuzzy" F_notes fuzzy true "Notes (Fuzzy)" "笔记（模糊）"
].

(** Linear interpolation from 100 (top) to 40 (bottom):
    [maxScore - strategyIndex / max(1, totalStrategies - 1) * (maxScore - minScore)]. *)
Definition calculateScore (strategyIndex totalStrategies : Z) : Q :=
  let maxScore : Q := 100%Q in
  let minScore : Q := 40%Q in
  let ratio : Q :=
    (inject_Z strategyIndex / inject_Z (Z.max 1 (totalStrategies - 1)))%Q in
  (maxScore - ratio * (maxScore - minScore))%Q.

(** [{ ...defaultStrategy, enabled: saved.enabled }] *)
Definition with_enabled (e : bool) (d : SearchStrategy) : SearchStrategy :=
  mkStrategy (id d) (field d) (matchType d) e (label d) (labelZh d).

(** [new Map(DEFAULT_SEARCH_STRATEGIES.map(s => [s.id, s]))]: the entries
    are inserted in order, a later one replacing an earlier one. *)
Definition defaultMap : gmap string SearchStrategy :=
  fold_left (fun m s => <[id s := s]> m) DEFAULT_SEARCH_STRATEGIES ∅.

(** One turn of the loop over the saved entries; the state is the pair
    of [result] and [usedIds]. *)
Definition load_saved (acc : list SearchStrategy * gset string) (saved : SavedEntry)
  : list SearchStrategy * gset string :=
  match defaultMap !! s_id saved with
  | Some defaultStrategy =>
      (acc.1 ++ [with_enabled (s_enabled saved) defaultStrategy],
       {[ s_id saved ]} ∪ acc.2)
  | None => acc
  end.

(** One turn of the loop that appends the strategies not yet used. *)
Definition load_new (usedIds : gset string) (result : list SearchStrategy)
           (defaultStrategy : SearchStrategy) : list SearchStrategy :=
  if decide (id defaultStrategy ∈ usedIds) then result
  else result ++ [defaultStrategy].

Definition loadSearchStrategies (savedOrder : SearchStrategyOrder)
  : list SearchStrategy :=
  match strategies savedOrder with
  | None | Some [] => DEFAULT_SEARCH_STRATEGIES
  | Some saved =>
      let acc := fold_left load_saved saved ([], ∅) in
      fold_left (load_new acc.2) DEFAULT_SEARCH_STRATEGIES acc.1
  end.

Definition getEnabledStrategies (l : list SearchStrategy) : list SearchStrategy :=
  List.filter enabled l.

(** The definition the hardcoded default set holds for an id, if any. *)
Definition find_default (i : string) : option SearchStrategy :=
  List.find (fun d => String.eqb (id d) i) DEFAULT_SEARCH_STRATEGIES.

(** The merge rule in the specification's words: the saved entries in
    their order, each known id giving its default definition under the
    saved flag, then the defaults whose id no saved entry names. *)
Definition merge_saved (saved : list SavedEntry) : list SearchStrategy :=
  omap (fun s => with_enabled (s_enabled s) <$> find_default (s_id s)) saved
  ++ base.filter (fun d => id d ∉ s_id <$> saved) DEFAULT_SEARCH_STRATEGIES.

(** [strategies.find(s => s.id === id)] *)
Definition getStrategyById (strategies : list SearchStrategy) (i : string)
  : option SearchStrategy :=
  List.find (fun s => String.eqb (id s) i) strategies.

(** What the options page stores on "save":
    [{ strategies: currentStrategies.map(s => ({ id: s.id, enabled: s.enabled })) }]. *)
Definition saveSearchStrategies (currentStrategies : list SearchStrategy)
  : SearchStrategyOrder :=
  mkOrder (Some (List.map (fun s => mkSaved (id s) (enabled s)) currentStrategies)).

End Config.

(* ===================================================================== *)
(** ** Garbled-content detector ([lib/garbled-content-detector.ts])       *)
(* ===================================================================== *)

Module Garbled.
Import JS.

(** The signals that contribute to the score; the source renders them
    into the [reason] text, joined by commas. *)
Inductive Signal : Type :=
| ReplacementChars (n : nat)
| HtmlEntities (n : nat)
| MojibakePatterns (n : nat)
| QuestionMarks (n : nat)
| LowCjkRatio (cjk len : nat).

Inductive Reason : Type :=
| ContentEmpty
| ContentTooShort
| FramesetFallback
| Signals (l : list Signal).

Record GarbledDetectionResult : Type := mkDetection {
  isGarbled : bool;
  isEmpty : bool;
  needsRefetch : bool;
  reason : option Reason;
  score : Z;
}.

Definition chr (a : N) : regex := Chr (fun c => (c =? a)%N).
Definition is_digit (c : N) : bool := in_range 48 57 c.
(** [[0-9a-f]] under the [i] flag. *)
Definition is_hex_ci (c : N) : bool :=
  is_digit c || in_range 97 102 c || in_range 65 70 c.

Definition HTML_ENTITY_PATTERNS : list regex := [
  lit_ci "&nbsp;";
  lit_ci "&amp;";
  lit_ci "&lt;";
  lit_ci "&gt;";
  lit_ci "&quot;";
  Cat (chr 38) (Cat (chr 35) (Cat (Rep 1 is_digit) (chr 59)));
  Cat (chr 38) (Cat (chr 35) (Cat (Chr (eq_ci 120)) (Cat (Rep 1 is_hex_ci) (chr 59))))
].

(** [[æ-ÿ]] (U+00E6..U+00FF) under the [i] flag: canonicalisation maps
    U+00E6..U+00FE (but U+00F7) to U+00C6..U+00DE and U+00FF to U+0178,
    so the class also accepts those upper-case code units. *)
Definition latin1_lower_ci (c : N) : bool :=
  in_range 0xE6 0xFF c || in_range 0xC6 0xD6 c || in_range 0xD8 0xDE c
  || (c =? 0x178)%N.

Definition MOJIBAKE_CHAR_PATTERNS : list regex := [
  Chr (fun c => (c =? 0x5A7)%N || (c =? 0x3CD)%N || (c =? 0x376)%N);
  Rep 2 latin1_lower_ci;
  Rep 2 (in_range 0xC0 0xDE);
  Rep 3 (in_range 0x100 0x17F);
  Rep 3 (in_range 0x180 0x24F);
  Rep 2 (in_range 0x370 0x3FF);
  Rep 3 (in_range 0x400 0x4FF)
].

Definition REPLACEMENT_CHAR_PATTERN : regex := chr 0xFFFD.
Definition QUESTION_MARK_PATTERN : regex := Rep 3 (fun c => (c =? 63)%N).
Definition cjkPattern : regex :=
  Chr (fun c => in_range 0x4E00 0x9FFF c || in_range 0x3400 0x4DBF c).

(** The loops [for (const pattern of PATTERNS) { count += matches.length }]. *)
Definition count_all (ps : list regex) (s : jsstr) : nat :=
  fold_left (fun n p => (n + count_matches p s)%nat) ps O.

Definition ratio (n len : nat) : Q := (inject_Z (Z.of_nat n) / inject_Z (Z.of_nat len))%Q.
Definition Qgtb (a b : Q) : bool := negb (Qle_bool a b).
Definition Qltb (a b : Q) : bool := negb (Qle_bool b a).

Section Detector.
Variable toLowerCase : jsstr -> jsstr.

Definition is_frameset_fallback (trimmedContent : jsstr) : bool :=
  let lowerContent := toLowerCase trimmedContent in
  includes lowerContent (lit "this page uses frames")
  || includes lowerContent (lit "your browser doesn't support")
  || includes lowerContent (lit "your browser does not support frames").

(** Signal 1: Unicode replacement characters. *)
Definition signal_replacement (t : jsstr) (acc : Z * list Signal) : Z * list Signal :=
  let replacementCount := count_matches REPLACEMENT_CHAR_PATTERN t in
  if (0 <? replacementCount)%nat then
    if Qgtb (ratio replacementCount (length t)) (1 # 100) then
      (acc.1 + 50, acc.2 ++ [ReplacementChars replacementCount])
    else if (3 <? replacementCount)%nat then
      (acc.1 + 30, acc.2 ++ [ReplacementChars replacementCount])
    else acc
  else acc.

(** Signal 2: HTML entities left undecoded. *)
Definition signal_entities (t : jsstr) (acc : Z * list Signal) : Z * list Signal :=
  let htmlEntityCount := count_all HTML_ENTITY_PATTERNS t in
  if (5 <? htmlEntityCount)%nat then
    (acc.1 + 40, acc.2 ++ [HtmlEntities htmlEntityCount])
  else if (2 <? htmlEntityCount)%nat then
    (acc.1 + 20, acc.2 ++ [HtmlEntities htmlEntityCount])
  else acc.

(** Signal 3: typical mojibake character runs. *)
Definition signal_mojibake (t : jsstr) (acc : Z * list Signal) : Z * list Signal :=
  let mojibakeMatches := count_all MOJIBAKE_CHAR_PATTERNS t in
  if (10 <? mojibakeMatches)%nat then
    (acc.1 + 40, acc.2 ++ [MojibakePatterns mojibakeMatches])
  else if (3 <? mojibakeMatches)%nat then
    (acc.1 + 25, acc.2 ++ [MojibakePatterns mojibakeMatches])
  else acc.

(** Signal 4: runs of question marks. *)
Definition signal_questions (t : jsstr) (acc : Z * list Signal) : Z * list Signal :=
  let questionMarks := count_matches QUESTION_MARK_PATTERN t in
  if (2 <? questionMarks)%nat then
    (acc.1 + 20, acc.2 ++ [QuestionMarks questionMarks])
  else acc.

(** Signal 5: some CJK, but an anomalously low share of it, on top of
    another signal. *)
Definition signal_cjk (t : jsstr) (acc : Z * list Signal) : Z * list Signal :=
  let cjkCount := count_matches cjkPattern t in
  let cjkRatio := ratio cjkCount (length t) in
  if (0 <? cjkCount)%nat && (cjkCount <? 20)%nat
     && Qltb cjkRatio (5 # 100) && (0 <? acc.1) then
    (acc.1 + 15, acc.2 ++ [LowCjkRatio cjkCount (length t)])
  else acc.

Definition accumulate (t : jsstr) : Z * list Signal :=
  signal_cjk t (signal_questions t (signal_mojibake t
    (signal_entities t (signal_replacement t (0, []))))).

Definition detectGarbledContent (content : jsstr) : GarbledDetectionResult :=
  if (length content =? 0)%nat || (length (trim content) =? 0)%nat then
    mkDetection false true true (Some ContentEmpty) 0
  else
    let trimmedContent := trim content in
    let contentLength := length trimmedContent in
    if (contentLength <? 50)%nat then
      mkDetection false false true (Some ContentTooShort) 0
    else if is_frameset_fallback trimmedContent then
      mkDetection true false true (Some FramesetFallback) 100
    else
      let '(score, reasons) := accumulate trimmedContent in
      let isGarbled := 40 <=? score in
      mkDetection isGarbled false isGarbled
        (match reasons with [] => None | _ :: _ => Some (Signals reasons) end)
        score.

Definition needsRefetch_content (content : option jsstr) : bool :=
  match content with
  | None | Some [] => true
  | Some c => needsRefetch (detectGarbledContent c)
  end.
End Detector.

(** Code units of ordinary Chinese prose: CJK ideographs, CJK
    punctuation and full-width forms. *)
Definition plain_cjk (c : N) : bool :=
  in_range 0x4E00 0x9FFF c || in_range 0x3400 0x4DBF c
  || in_range 0x3000 0x303F c || in_range 0xFF01 0xFF5E c.

Section Batch.
Variable toLowerCase : jsstr -> jsstr.

(** [batchDetect]: a missing or empty content is reported empty without
    running the detector. *)
Definition batchDetect (contents : list (Z * option jsstr))
  : list (Z * GarbledDetectionResult) :=
  List.map (fun entry =>
              (entry.1,
               if truthy_str entry.2 then detectGarbledContent toLowerCase (or_empty entry.2)
               else mkDetection false true true (Some ContentEmpty) 0))
    contents.
End Batch.

End Garbled.

(* ===================================================================== *)
(** ** Domain records ([shared/types], as [database.service.ts] builds them) *)
(* ===================================================================== *)

Module Types.
Import JS.

Inductive BookmarkStatus : Type := pending | analyzing | completed | failed.

#[global] Instance BookmarkStatus_eq_dec : EqDecision BookmarkStatus.
Proof. solve_decision. Defined.

(** A row of [bookmarks] as [mapRowToBookmark] presents it. The columns
    that no modelled operation reads or writes (folder path, favicon,
    category id, archive flag, visit counter) are left out. [retry_count]
    is never NULL: every insert supplies the default 0. *)
Record Bookmark : Type := mkBookmark {
  id : Z;
  chromeBookmarkId : option jsstr;
  url : jsstr;
  originalTitle : jsstr;
  pageContent : option jsstr;
  pageContentHash : option jsstr;
  userNotes : option jsstr;
  status : BookmarkStatus;
  errorMessage : option jsstr;
  retryCount : Z;
  fetchFailedAt : option Z;
  fetchFailReason : option jsstr;
  isPinned : bool;
  createdAt : Z;
  analyzedAt : option Z;
  contentFetchedAt : option Z;
  lastUpdated : Z;
}.

Record AISummary : Type := mkSummary {
  sum_id : Z;
  bookmarkId : Z;
  aiProvider : jsstr;
  aiModel : option jsstr;
  summaryText : jsstr;
  summaryOriginal : option jsstr;
  confidenceScore : option Q;
  language : option jsstr;
  sum_createdAt : Z;
}.

Record Tag : Type := mkTag {
  tag_id : Z;
  name : jsstr;
  nameZh : option jsstr;
  nameEn : option jsstr;
  namePinyin : option jsstr;
}.

Record Category : Type := mkCategory {
  cat_name : jsstr;
  cat_namePinyin : option jsstr;
}.

(** [BookmarkWithDetails extends Bookmark]. *)
Record BookmarkWithDetails : Type := mkDetails {
  base : Bookmark;
  summary : option AISummary;
  tags : option (list Tag);
  category : option Category;
}.

Inductive MatchType : Type :=
| MT_exact_case | MT_exact | MT_pinyin | MT_fuzzy
| MT_url | MT_tag | MT_summary | MT_category | MT_notes | MT_content.

(** The [matchedField] text: a strategy's field name, or ["fuzzy"]. *)
Inductive MatchedField : Type :=
| MF_field (f : Config.SearchField)
| MF_fuzzy.

Record SearchResult : Type := mkResult {
  bookmark : BookmarkWithDetails;
  score : Q;
  matchType : MatchType;
  matchedField : MatchedField;
}.

Inductive SearchType : Type := ST_default | ST_fulltext | ST_tag | ST_category.

#[global] Instance SearchType_eq_dec : EqDecision SearchType.
Proof. solve_decision. Defined.

Record SearchOptions : Type := mkOptions {
  query : jsstr;
  searchType : option SearchType;
  limit : option Z;
}.

End Types.

(* ===================================================================== *)
(** ** Ranking engine ([search-engine.ts], [frecency.service.ts])          *)
(* ===================================================================== *)

Module Engine.
Import JS Types.

(** [CATEGORY_PREFIX]: an ASCII or full-width commercial at, group 1 of
    one or more non-blank code units, then optionally one or more blanks
    followed by group 2 of any code units but line terminators, then the
    end of the input. The start anchor is rendered by attempting the
    match at index 0 only. *)
Definition is_at (c : N) : bool := (c =? 0x40)%N || (c =? 0xFF20)%N.

Definition CATEGORY_PREFIX : regex :=
  Cat (Chr is_at)
   (Cat (Grp 1 (Rep 1 not_ws))
    (Cat (Opt (Cat (Rep 1 is_ws) (Grp 2 (Rep 0 is_dot))))
     Eos)).

Definition isCategorySearch (query : jsstr) : bool :=
  match match_here CATEGORY_PREFIX (trim query) with
  | Some _ => true
  | None => false
  end.

Record ParsedCategory : Type := mkParsed { p_category : jsstr; p_keyword : jsstr }.

Definition parseCategorySearch (query : jsstr) : ParsedCategory :=
  match match_here CATEGORY_PREFIX (trim query) with
  | Some (m, _) => mkParsed (or_empty (cap 1 m)) (trim (or_empty (cap 2 m)))
  | None => mkParsed [] query
  end.

(** [results: Map<number, SearchResult>]: iteration follows insertion
    order and [set] on a present key keeps the key's position. *)
Definition ResultMap : Type := list (Z * SearchResult).

Fixpoint map_set (k : Z) (v : SearchResult) (m : ResultMap) : ResultMap :=
  match m with
  | [] => [(k, v)]
  | (k', v') :: m' => if k' =? k then (k, v) :: m' else (k', v') :: map_set k v m'
  end.

Fixpoint map_get (k : Z) (m : ResultMap) : option SearchResult :=
  match m with
  | [] => None
  | (k', v') :: m' => if k' =? k then Some v' else map_get k m'
  end.

Definition map_has (k : Z) (m : ResultMap) : bool :=
  match map_get k m with Some _ => true | None => false end.

Definition map_values (m : ResultMap) : list SearchResult := List.map snd m.

(** [l.slice(0, limit)] *)
Definition slice0 {A : Type} (limit : Z) (l : list A) : list A :=
  if limit <? 0 then firstn (length l - Z.to_nat (- limit)) l
  else firstn (Z.to_nat limit) l.

Definition fieldToMatchType (f : Config.SearchField) (m : Config.MatchMode) : MatchType :=
  match m with
  | Config.exact_case => MT_exact_case
  | Config.exact => MT_exact
  | Config.pinyin => MT_pinyin
  | Config.fuzzy => MT_fuzzy
  end.

Definition text_of (o : option jsstr) : list jsstr :=
  if truthy_str o then [or_empty o] else [].

Definition getFieldText (b : BookmarkWithDetails) (f : Config.SearchField) : list jsstr :=
  match f with
  | Config.F_url => text_of (Some (url (base b)))
  | Config.F_title => text_of (Some (originalTitle (base b)))
  | Config.F_tag =>
      match tags b with
      | None => []
      | Some ts =>
          flat_map (fun t => text_of (Some (name t)) ++ text_of (nameZh t)
                             ++ text_of (nameEn t) ++ text_of (namePinyin t)) ts
      end
  | Config.F_summary =>
      match summary b with
      | Some s => text_of (Some (summaryText s))
      | None => []
      end
  | Config.F_category =>
      match category b with
      | Some cat => text_of (Some (cat_name cat)) ++ text_of (cat_namePinyin cat)
      | None => []
      end
  | Config.F_notes => text_of (userNotes (base b))
  | Config.F_content => text_of (pageContent (base b))
  end.

(** What Fuse.js returns for one hit ([includeScore: true]). *)
Record FuseResult : Type := mkFuse {
  item : BookmarkWithDetails;
  f_score : option Q;
}.

(** [result.score || 0]: the distance of a hit, 0 being a perfect match. *)
Definition hit_score (r : FuseResult) : Q :=
  match f_score r with Some s => s | None => 0%Q end.

(** What the frecency library is handed and hands back. *)
Record FrecencyItem : Type := mkItem { fi_id : Z; originalIndex : nat }.

(** The module-level state after [refreshIndex]. *)
Record EngineState : Type := mkState {
  searchIndex : list BookmarkWithDetails;
  fuseInstance : option (jsstr -> Z -> list FuseResult);
  activeStrategies : list Config.SearchStrategy;
}.

Definition is_fuzzy (s : Config.SearchStrategy) : bool :=
  bool_decide (Config.matchType s = Config.fuzzy).

Fixpoint findIndex {A : Type} (p : A -> bool) (l : list A) : option nat :=
  match l with
  | [] => None
  | x :: l' => if p x then Some O else option_map S (findIndex p l')
  end.

Definition compareResults (a b : SearchResult) : Q :=
  if isPinned (base (bookmark a)) && negb (isPinned (base (bookmark b))) then (-1)%Q
  else if negb (isPinned (base (bookmark a))) && isPinned (base (bookmark b)) then 1%Q
  else (score b - score a)%Q.

Definition compareCategory (a b : BookmarkWithDetails) : Q :=
  if isPinned (base a) && negb (isPinned (base b)) then (-1)%Q
  else if negb (isPinned (base a)) && isPinned (base b) then 1%Q
  else inject_Z (lastUpdated (base b) - lastUpdated (base a)).

Definition categoryResult (b : BookmarkWithDetails) : SearchResult :=
  mkResult b 100%Q MT_category (MF_field Config.F_category).

(** The order of the category short-circuit, as the specification words
    it: pinned first, then by last update, most recent first. *)
Definition pinned_then_recent (a b : BookmarkWithDetails) : Prop :=
  (isPinned (base a) = true /\ isPinned (base b) = false)
  \/ (isPinned (base a) = isPinned (base b)
      /\ lastUpdated (base b) <= lastUpdated (base a)).

(** [bestMatch] when strategy [s], at position [i] of [total] enabled
    strategies, matches bookmark [b]. *)
Definition best_match (b : BookmarkWithDetails) (i total : nat) (s : Config.SearchStrategy)
  : SearchResult :=
  mkResult b (Config.calculateScore (Z.of_nat i) (Z.of_nat total))
    (fieldToMatchType (Config.field s) (Config.matchType s))
    (MF_field (Config.field s)).

(** A strategy that phase 1 considers at all: not a fuzzy one, and a
    content strategy only in full-text mode. *)
Definition eligible (searchType : SearchType) (s : Config.SearchStrategy) : bool :=
  negb (is_fuzzy s)
  && (negb (bool_decide (Config.field s = Config.F_content))
      || bool_decide (searchType = ST_fulltext)).

Section Search.
(** [String.prototype.toLowerCase]. *)
Variable toLowerCase : jsstr -> jsstr.
(** [pinyinMatch.match(text, query)] made a boolean; [None] when it throws. *)
Variable pinyinMatch : jsstr -> jsstr -> option bool.
(** [frecency.sort({searchQuery, results, keepScores})]; [None] when it throws. *)
Variable frecencySort : jsstr -> list FrecencyItem -> option (list FrecencyItem).

Definition checkMatch (query : jsstr) (text : option jsstr) (m : Config.MatchMode) : bool :=
  if negb (truthy_str text) then false
  else
    let text := or_empty text in
    match m with
    | Config.exact_case => includes text query
    | Config.exact => includes (toLowerCase text) (toLowerCase query)
    | Config.pinyin =>
        match pinyinMatch text query with
        | Some b => b
        | None => false
        end
    | Config.fuzzy => false
    end.

(** The field-text set of [b] holds a value that satisfies the match
    mode of [s]. *)
Definition strategy_matches (effectiveQuery : jsstr) (b : BookmarkWithDetails)
           (s : Config.SearchStrategy) : bool :=
  existsb (fun text => checkMatch effectiveQuery (Some text) (Config.matchType s))
    (getFieldText b (Config.field s)).

(** The inner loop of phase 1, from position [i] of the enabled
    strategies on; [Some] is [bestMatch] at the [break]. *)
Fixpoint strategyLoop (effectiveQuery : jsstr) (searchType : SearchType)
         (totalStrategies : nat) (b : BookmarkWithDetails)
         (i : nat) (ss : list Config.SearchStrategy) : option SearchResult :=
  match ss with
  | [] => None
  | strategy :: rest =>
      if bool_decide (Config.field strategy = Config.F_content)
         && negb (bool_decide (searchType = ST_fulltext)) then
        strategyLoop effectiveQuery searchType totalStrategies b (S i) rest
      else if is_fuzzy strategy then
        strategyLoop effectiveQuery searchType totalStrategies b (S i) rest
      else
        let texts := getFieldText b (Config.field strategy) in
        let matched :=
          existsb (fun text => checkMatch effectiveQuery (Some text)
                                 (Config.matchType strategy)) texts in
        if matched then
          Some (mkResult b
                  (Config.calculateScore (Z.of_nat i) (Z.of_nat totalStrategies))
                  (fieldToMatchType (Config.field strategy) (Config.matchType strategy))
                  (MF_field (Config.field strategy)))
        else strategyLoop effectiveQuery searchType totalStrategies b (S i) rest
  end.

(** Phase 1: the loop over the candidate bookmarks. *)
Definition phase_step (effectiveQuery : jsstr) (searchType : SearchType)
           (enabledStrategies : list Config.SearchStrategy)
           (results : ResultMap) (b : BookmarkWithDetails) : ResultMap :=
  match strategyLoop effectiveQuery searchType (length enabledStrategies)
          b O enabledStrategies with
  | Some bestMatch => map_set (id (base b)) bestMatch results
  | None => results
  end.

Definition strategyPhase (effectiveQuery : jsstr) (searchType : SearchType)
           (enabledStrategies : list Config.SearchStrategy)
           (filteredIndex : list BookmarkWithDetails) : ResultMap :=
  fold_left (phase_step effectiveQuery searchType enabledStrategies) filteredIndex [].

Definition fuzzyBaseScore (enabledStrategies : list Config.SearchStrategy) : Q :=
  match findIndex is_fuzzy enabledStrategies with
  | Some fuzzyIndex =>
      Config.calculateScore (Z.of_nat fuzzyIndex) (Z.of_nat (length enabledStrategies))
  | None => 35%Q
  end.

Definition adjustedScore (base_score : Q) (r : FuseResult) : Q :=
  let fuseQuality := (1 - hit_score r)%Q in
  (base_score * fuseQuality)%Q.

Definition add_fuzzy (base_score : Q) (results : ResultMap) (r : FuseResult) : ResultMap :=
  if negb (map_has (id (base (item r))) results) then
    map_set (id (base (item r)))
      (mkResult (item r) (adjustedScore base_score r) MT_fuzzy MF_fuzzy) results
  else results.

(** Phase 2: the approximate index fills the result set up to [limit]. *)
Definition fuzzyPhase (fuse : option (jsstr -> Z -> list FuseResult))
           (effectiveQuery : jsstr) (limit : Z)
           (enabledStrategies : list Config.SearchStrategy)
           (results : ResultMap) : ResultMap :=
  let hasFuzzyStrategy := existsb is_fuzzy enabledStrategies in
  match fuse with
  | Some fuseSearch =>
      if (Z.of_nat (length results) <? limit) && hasFuzzyStrategy
         && negb (length effectiveQuery =? 0)%nat then
        let fuseResults := fuseSearch effectiveQuery (limit - Z.of_nat (length results)) in
        fold_left (add_fuzzy (fuzzyBaseScore enabledStrategies)) fuseResults results
      else results
  | None => results
  end.

(** [sortByFrecency]: each result is an object of its own, so
    [results.indexOf(r)] is the position of [r]; an index the library
    hands back out of range reads [undefined] ([None]). *)
Definition frecencyItems (results : list SearchResult) : list FrecencyItem :=
  imap (fun i r => mkItem (id (base (bookmark r))) i) results.

Definition sortByFrecency (query : jsstr) (results : list SearchResult)
  : list (option SearchResult) :=
  let normalizedQuery := trim (toLowerCase query) in
  if (length normalizedQuery =? 0)%nat || (length results =? 0)%nat then
    List.map Some results
  else
    match frecencySort normalizedQuery (frecencyItems results) with
    | Some sortedBookmarks =>
        List.map (fun it => nth_error results (originalIndex it)) sortedBookmarks
    | None => List.map Some results
    end.

Definition in_category (categoryFilter : jsstr) (b : BookmarkWithDetails) : bool :=
  match category b with
  | Some cat => bool_decide (toLowerCase (cat_name cat) = toLowerCase categoryFilter)
  | None => false
  end.

Definition search (st : EngineState) (options : SearchOptions)
  : list (option SearchResult) :=
  let query := query options in
  let searchType := default ST_default (searchType options) in
  let limit := default 20 (limit options) in
  if (length query =? 0)%nat || (length (trim query) =? 0)%nat then []
  else
    let isCat := isCategorySearch query in
    let parsed := parseCategorySearch query in
    let effectiveQuery := if isCat then p_keyword parsed else query in
    let filteredIndex :=
      if isCat then List.filter (in_category (p_category parsed)) (searchIndex st)
      else searchIndex st in
    if isCat && (length effectiveQuery =? 0)%nat then
      List.map (fun b => Some (categoryResult b))
        (slice0 limit (stable_sort compareCategory filteredIndex))
    else
      let enabledStrategies := Config.getEnabledStrategies (activeStrategies st) in
      let results := strategyPhase effectiveQuery searchType enabledStrategies filteredIndex in
      let results := fuzzyPhase (fuseInstance st) effectiveQuery limit enabledStrategies results in
      let sortedResults := slice0 limit (stable_sort compareResults (map_values results)) in
      let pinnedResults := List.filter (fun r => isPinned (base (bookmark r))) sortedResults in
      let normalResults := List.filter (fun r => negb (isPinned (base (bookmark r)))) sortedResults in
      let frecencySortedNormal :=
        sortByFrecency (if (length effectiveQuery =? 0)%nat then query else effectiveQuery)
          normalResults in
      List.map Some pinnedResults ++ frecencySortedNormal.
End Search.

(** *** History mode ([!] prefix)

    [HISTORY_PREFIX]: an ASCII or full-width exclamation mark at index 0. *)
Definition is_bang (c : N) : bool := (c =? 0x21)%N || (c =? 0xFF01)%N.

Definition HISTORY_PREFIX : regex := Chr is_bang.

Definition isHistorySearch (query : jsstr) : bool :=
  match match_here HISTORY_PREFIX (trim query) with
  | Some _ => true
  | None => false
  end.

(** [query.replace(HISTORY_PREFIX, '').trim()]: the pattern is anchored
    and not global, so only a match at index 0 is removed. *)
Definition extractHistoryQuery (query : jsstr) : jsstr :=
  trim (match match_here HISTORY_PREFIX query with
        | Some (_, rest) => rest
        | None => query
        end).

(** What [chrome.history.search] answers, and what [searchHistory] makes
    of it (the favicon address, built from the extension id, is left
    out). Visit times are milliseconds with a fraction. *)
Record HistoryItem : Type := mkHistoryItem {
  h_id : jsstr;
  h_title : option jsstr;
  h_url : option jsstr;
  lastVisitTime : option Q;
  visitCount : option Z;
}.

Record HistorySearchResult : Type := mkHistoryResult {
  hr_id : jsstr;
  hr_title : jsstr;
  hr_url : jsstr;
  hr_visitCount : Z;
  hr_lastVisitAt : Q;
  hr_score : Q;
}.

(** [x || d] on an optional number: 0 is falsy. *)
Definition num_or (d : Q) (o : option Q) : Q :=
  match o with
  | Some q => if Qeq_bool q 0 then d else q
  | None => d
  end.

Definition compareHistory (a b : HistoryItem) : Q :=
  (num_or 0 (lastVisitTime b) - num_or 0 (lastVisitTime a))%Q.

Definition historyResult (now : Q) (item : HistoryItem) : HistorySearchResult :=
  mkHistoryResult (h_id item)
    (if truthy_str (h_title item) then or_empty (h_title item)
     else if truthy_str (h_url item) then or_empty (h_url item)
     else lit "No Title")
    (or_empty (h_url item))
    (match visitCount item with Some 0 | None => 1 | Some n => n end)
    (num_or now (lastVisitTime item))
    (num_or 0 (lastVisitTime item)).

Section History.
(** [chrome.history.search({ text, maxResults, startTime: 0 })];
    [None] when it rejects. *)
Variable historySearch : jsstr -> Z -> option (list HistoryItem).
(** [Date.now()] as read while the item at a position is mapped. *)
Variable now : nat -> Q.

Definition searchHistory (rawQuery : jsstr) (limit : option Z) : list HistorySearchResult :=
  let query := extractHistoryQuery rawQuery in
  match historySearch query (default 100 limit) with
  | Some historyItems =>
      imap (fun i item => historyResult (now i) item)
        (stable_sort compareHistory historyItems)
  | None => []
  end.
End History.

(** *** The local values of [search], by the names the source gives them *)

Definition effectiveQuery (query : jsstr) : jsstr :=
  if isCategorySearch query then p_keyword (parseCategorySearch query) else query.

Section SearchValues.
Variable toLowerCase : jsstr -> jsstr.
Variable pinyinMatch : jsstr -> jsstr -> option bool.

Definition filteredIndex (st : EngineState) (query : jsstr) : list BookmarkWithDetails :=
  if isCategorySearch query then
    List.filter (in_category toLowerCase (p_category (parseCategorySearch query)))
      (searchIndex st)
  else searchIndex st.

(** [results] once both phases have run. *)
Definition results (st : EngineState) (options : SearchOptions) : ResultMap :=
  let enabledStrategies := Config.getEnabledStrategies (activeStrategies st) in
  fuzzyPhase (fuseInstance st) (effectiveQuery (query options))
    (default 20 (limit options)) enabledStrategies
    (strategyPhase toLowerCase pinyinMatch (effectiveQuery (query options))
       (default ST_default (searchType options)) enabledStrategies
       (filteredIndex st (query options))).

Definition sortedResults (st : EngineState) (options : SearchOptions) : list SearchResult :=
  slice0 (default 20 (limit options))
    (stable_sort compareResults (map_values (results st options))).
End SearchValues.

(** The order of the ranked list, in words: pinned first, then by
    score, highest first. *)
Definition pinned_then_score (a b : SearchResult) : Prop :=
  (isPinned (base (bookmark a)) = true /\ isPinned (base (bookmark b)) = false)
  \/ (isPinned (base (bookmark a)) = isPinned (base (bookmark b))
      /\ (score b <= score a)%Q).

End Engine.

(* ===================================================================== *)
(** ** Storage ([schema.ts], [database.service.ts])                       *)
(* ===================================================================== *)

Module Store.
Import JS Types.

Inductive SyncAction : Type := A_add | A_update | A_delete | A_analyze | A_fetch_content.
Inductive SyncLogStatus : Type := L_pending | L_success | L_failed.

(** Why the repair scan picked a bookmark: empty content, or the
    detector's reason (with its fallback text when there is none). *)
Inductive RefetchReason : Type :=
| RR_empty
| RR_detected (r : option Garbled.Reason).

(** The message texts of the log entries, before rendering. *)
Inductive LogMessage : Type :=
| MsgTagsGenerated (totalTagCount : nat) (language : jsstr)
| MsgError (e : jsstr)
| MsgRefetched (reason : RefetchReason).

Record SyncLogEntry : Type := mkLog {
  action : SyncAction;
  log_bookmarkId : option Z;
  log_status : SyncLogStatus;
  message : option LogMessage;
  timestamp : Z;
}.

Record TagLink : Type := mkLink {
  bt_bookmark_id : Z;
  bt_tag_id : Z;
  bt_confidence : option Q;
  bt_created_at : Z;
}.

(** The tables, each in rowid order, the AUTOINCREMENT counters of
    [sqlite_sequence] and the connection's [last_insert_rowid()]. *)
Record DB : Type := mkDB {
  bookmarks : list Bookmark;
  ai_summaries : list AISummary;
  tags : list Tag;
  bookmark_tags : list TagLink;
  sync_log : list SyncLogEntry;
  seq_bookmarks : Z;
  seq_summaries : Z;
  seq_tags : Z;
  last_insert_rowid : Z;
}.

(** [CREATE TABLE IF NOT EXISTS ...] on a new database. *)
Definition empty_db : DB := mkDB [] [] [] [] [] 0 0 0 0.

Definition with_bookmarks (bs : list Bookmark) (d : DB) : DB :=
  mkDB bs (ai_summaries d) (tags d) (bookmark_tags d) (sync_log d)
       (seq_bookmarks d) (seq_summaries d) (seq_tags d) (last_insert_rowid d).

Inductive Outcome (A : Type) : Type :=
| Return (a : A)
| Throw (e : jsstr).
Arguments Return {A} a.
Arguments Throw {A} e.

(** *** Statements on [bookmarks] *)

(** [UPDATE bookmarks SET ... WHERE p] *)
Definition update_bookmarks (p : Bookmark -> bool) (f : Bookmark -> Bookmark) (d : DB) : DB :=
  with_bookmarks (List.map (fun b => if p b then f b else b) (bookmarks d)) d.

Definition has_id (i : Z) (b : Bookmark) : bool := id b =? i.

(** [UPDATE_BOOKMARK_STATUS]: status, error_message, analyzed_at, last_updated. *)
Definition set_status (s : BookmarkStatus) (err : option jsstr) (analyzed : option Z)
           (now : Z) (b : Bookmark) : Bookmark :=
  mkBookmark (id b) (chromeBookmarkId b) (url b) (originalTitle b) (pageContent b)
    (pageContentHash b) (userNotes b) s err (retryCount b) (fetchFailedAt b)
    (fetchFailReason b) (isPinned b) (createdAt b) analyzed (contentFetchedAt b) now.

(** [UPDATE_BOOKMARK_CONTENT]: page_content, page_content_hash,
    content_fetched_at, last_updated. *)
Definition set_content (content hash : jsstr) (now : Z) (b : Bookmark) : Bookmark :=
  mkBookmark (id b) (chromeBookmarkId b) (url b) (originalTitle b) (Some content)
    (Some hash) (userNotes b) (status b) (errorMessage b) (retryCount b) (fetchFailedAt b)
    (fetchFailReason b) (isPinned b) (createdAt b) (analyzedAt b) (Some now) now.

(** The statement of [resetAnalyzingToRetry]:
    [SET status = 'pending', retry_count = retry_count + 1, last_updated = ?]. *)
Definition set_retry (now : Z) (b : Bookmark) : Bookmark :=
  mkBookmark (id b) (chromeBookmarkId b) (url b) (originalTitle b) (pageContent b)
    (pageContentHash b) (userNotes b) pending (errorMessage b) (retryCount b + 1)
    (fetchFailedAt b) (fetchFailReason b) (isPinned b) (createdAt b) (analyzedAt b)
    (contentFetchedAt b) now.

(** The statement of [markFetchFailed]:
    [SET fetch_failed_at = ?, fetch_fail_reason = ?, last_updated = ?]. *)
Definition set_fetch_failed (reason : jsstr) (now : Z) (b : Bookmark) : Bookmark :=
  mkBookmark (id b) (chromeBookmarkId b) (url b) (originalTitle b) (pageContent b)
    (pageContentHash b) (userNotes b) (status b) (errorMessage b) (retryCount b)
    (Some now) (Some reason) (isPinned b) (createdAt b) (analyzedAt b)
    (contentFetchedAt b) now.

(** [GET_BOOKMARKS_PENDING]:
    [WHERE status = 'pending' OR (status = 'failed' AND retry_count < 3)
     ORDER BY created_at ASC LIMIT ?]. Rows created at the same time
    keep their table order (SQL leaves the order of ties open). *)
Definition pending_row (b : Bookmark) : bool :=
  bool_decide (status b = pending)
  || (bool_decide (status b = failed) && (retryCount b <? 3)).

Definition GET_BOOKMARKS_PENDING (limit : nat) (d : DB) : list Bookmark :=
  firstn limit
    (stable_sort (fun a b => inject_Z (createdAt a - createdAt b))
       (List.filter pending_row (bookmarks d))).

(** [GET_PENDING_COUNT]: [WHERE status = 'pending']. *)
Definition GET_PENDING_COUNT (d : DB) : nat :=
  length (List.filter (fun b => bool_decide (status b = pending)) (bookmarks d)).

(** [INSERT_BOOKMARK]; [url] is [NOT NULL UNIQUE]. *)
Definition INSERT_BOOKMARK (chromeId : option jsstr) (u title : jsstr) (now : Z) (d : DB)
  : Outcome Z * DB :=
  if existsb (fun b => bool_decide (url b = u)) (bookmarks d) then
    (Throw (lit "UNIQUE constraint failed: bookmarks.url"), d)
  else
    let i := seq_bookmarks d + 1 in
    (Return i,
     mkDB (bookmarks d ++ [mkBookmark i chromeId u title None None None pending None 0
                             None None false now None None now])
       (ai_summaries d) (tags d) (bookmark_tags d) (sync_log d)
       i (seq_summaries d) (seq_tags d) i).

(** [DELETE_BOOKMARK]: [WHERE chrome_bookmark_id = ?]. The connection
    never switches [PRAGMA foreign_keys] on, so SQLite leaves the
    foreign keys of the schema unenforced: nothing cascades. *)
Definition DELETE_BOOKMARK (chromeId : jsstr) (d : DB) : DB :=
  with_bookmarks
    (List.filter (fun b => negb (bool_decide (chromeBookmarkId b = Some chromeId)))
       (bookmarks d)) d.

(** *** Statements on [ai_summaries]

    [bookmark_id INTEGER NOT NULL UNIQUE]. [INSERT_SUMMARY] is a plain
    [INSERT]: a violated constraint aborts the statement and the
    database is unchanged. *)
Definition INSERT_SUMMARY (s : AISummary) (d : DB) : Outcome Z * DB :=
  if existsb (fun s' => bookmarkId s' =? bookmarkId s) (ai_summaries d) then
    (Throw (lit "UNIQUE constraint failed: ai_summaries.bookmark_id"), d)
  else
    let i := seq_summaries d + 1 in
    (Return i,
     mkDB (bookmarks d)
       (ai_summaries d ++ [mkSummary i (bookmarkId s) (aiProvider s) (aiModel s)
                             (summaryText s) (summaryOriginal s) (confidenceScore s)
                             (language s) (sum_createdAt s)])
       (tags d) (bookmark_tags d) (sync_log d)
       (seq_bookmarks d) i (seq_tags d) i).

Definition GET_SUMMARY_COUNT (d : DB) : nat := length (ai_summaries d).

(** *** Statements on [tags], [bookmark_tags] and [sync_log] *)

(** SQLite's [LOWER] folds ASCII letters only. *)
Definition sql_lower (s : jsstr) : jsstr := lower_ascii s.

(** [GET_TAG_BY_NAME]: [WHERE name = LOWER(?)]. *)
Definition GET_TAG_BY_NAME (n : jsstr) (d : DB) : option Tag :=
  List.find (fun t => bool_decide (name t = sql_lower n)) (tags d).

(** [INSERT_TAG]: [INSERT OR IGNORE], the name stored as [LOWER(?)]. *)
Definition INSERT_TAG (n : jsstr) (d : DB) : DB :=
  if existsb (fun t => bool_decide (name t = sql_lower n)) (tags d) then d
  else
    let i := seq_tags d + 1 in
    mkDB (bookmarks d) (ai_summaries d)
      (tags d ++ [mkTag i (sql_lower n) None None None])
      (bookmark_tags d) (sync_log d)
      (seq_bookmarks d) (seq_summaries d) i i.

(** [ADD_BOOKMARK_TAG]: [INSERT OR IGNORE] under the primary key
    [(bookmark_id, tag_id)]. *)
Definition ADD_BOOKMARK_TAG (l : TagLink) (d : DB) : DB :=
  if existsb (fun l' => (bt_bookmark_id l' =? bt_bookmark_id l)
                        && (bt_tag_id l' =? bt_tag_id l)) (bookmark_tags d)
  then d
  else
    mkDB (bookmarks d) (ai_summaries d) (tags d) (bookmark_tags d ++ [l]) (sync_log d)
      (seq_bookmarks d) (seq_summaries d) (seq_tags d) (last_insert_rowid d).

Definition INSERT_SYNC_LOG (e : SyncLogEntry) (d : DB) : DB :=
  mkDB (bookmarks d) (ai_summaries d) (tags d) (bookmark_tags d) (sync_log d ++ [e])
    (seq_bookmarks d) (seq_summaries d) (seq_tags d) (last_insert_rowid d).

(** *** Reachable databases

    The write statements of the schema; [S_UPDATE_BOOKMARKS] stands for
    every [UPDATE bookmarks SET ... WHERE ...]. A statement that
    violates a constraint leaves the database as it was. *)
Inductive Statement : Type :=
| S_INSERT_BOOKMARK (chromeId : option jsstr) (u title : jsstr) (now : Z)
| S_DELETE_BOOKMARK (chromeId : jsstr)
| S_UPDATE_BOOKMARKS (p : Bookmark -> bool) (f : Bookmark -> Bookmark)
| S_INSERT_SUMMARY (s : AISummary)
| S_INSERT_TAG (n : jsstr)
| S_ADD_BOOKMARK_TAG (l : TagLink)
| S_INSERT_SYNC_LOG (e : SyncLogEntry).

Definition run (st : Statement) (d : DB) : DB :=
  match st with
  | S_INSERT_BOOKMARK chromeId u title now => (INSERT_BOOKMARK chromeId u title now d).2
  | S_DELETE_BOOKMARK chromeId => DELETE_BOOKMARK chromeId d
  | S_UPDATE_BOOKMARKS p f => update_bookmarks p f d
  | S_INSERT_SUMMARY s => (INSERT_SUMMARY s d).2
  | S_INSERT_TAG n => INSERT_TAG n d
  | S_ADD_BOOKMARK_TAG l => ADD_BOOKMARK_TAG l d
  | S_INSERT_SYNC_LOG e => INSERT_SYNC_LOG e d
  end.

Inductive reachable : DB -> Prop :=
| reach_empty : reachable empty_db
| reach_run (d : DB) (st : Statement) : reachable d -> reachable (run st d).

(** The summaries of bookmark [i]. *)
Definition summaries_of (i : Z) (d : DB) : list AISummary :=
  List.filter (fun s => bookmarkId s =? i) (ai_summaries d).

(** *** Further statements on [bookmarks] *)

(** The statement of [clearFetchFailed]:
    [SET fetch_failed_at = NULL, fetch_fail_reason = NULL, last_updated = ?]. *)
Definition set_fetch_cleared (now : Z) (b : Bookmark) : Bookmark :=
  mkBookmark (id b) (chromeBookmarkId b) (url b) (originalTitle b) (pageContent b)
    (pageContentHash b) (userNotes b) (status b) (errorMessage b) (retryCount b)
    None None (isPinned b) (createdAt b) (analyzedAt b) (contentFetchedAt b) now.

(** The statement of [updateChromeId]:
    [SET chrome_bookmark_id = ?, last_updated = ?]. *)
Definition set_chrome_id (chromeId : option jsstr) (now : Z) (b : Bookmark) : Bookmark :=
  mkBookmark (id b) chromeId (url b) (originalTitle b) (pageContent b)
    (pageContentHash b) (userNotes b) (status b) (errorMessage b) (retryCount b)
    (fetchFailedAt b) (fetchFailReason b) (isPinned b) (createdAt b) (analyzedAt b)
    (contentFetchedAt b) now.

(** [UPDATE_BOOKMARK]: original_title, url, last_updated (and the
    favicon and folder columns, which are not modelled). *)
Definition set_title_url (title u : jsstr) (now : Z) (b : Bookmark) : Bookmark :=
  mkBookmark (id b) (chromeBookmarkId b) u title (pageContent b)
    (pageContentHash b) (userNotes b) (status b) (errorMessage b) (retryCount b)
    (fetchFailedAt b) (fetchFailReason b) (isPinned b) (createdAt b) (analyzedAt b)
    (contentFetchedAt b) now.

Definition has_chrome_id (chromeId : jsstr) (b : Bookmark) : bool :=
  bool_decide (chromeBookmarkId b = Some chromeId).

(** [GET_BOOKMARK_BY_CHROME_ID], [GET_BOOKMARK_BY_ID] and
    [SELECT * FROM bookmarks WHERE url = ?]: the callers read [rows[0]]. *)
Definition GET_BOOKMARK_BY_CHROME_ID (chromeId : jsstr) (d : DB) : option Bookmark :=
  List.find (has_chrome_id chromeId) (bookmarks d).

Definition GET_BOOKMARK_BY_ID (i : Z) (d : DB) : option Bookmark :=
  List.find (has_id i) (bookmarks d).

Definition GET_BOOKMARK_BY_URL (u : jsstr) (d : DB) : option Bookmark :=
  List.find (fun b => bool_decide (url b = u)) (bookmarks d).

(** [UPDATE_BOOKMARK ... WHERE chrome_bookmark_id = ?] under
    [url NOT NULL UNIQUE]: the rows are rewritten one by one, and the
    statement is aborted as soon as a rewritten row would carry the URL
    of another row, that is, when a row outside the selection holds
    the new URL or when the selection has more than one row. *)
Definition UPDATE_BOOKMARK (title u : jsstr) (now : Z) (chromeId : jsstr) (d : DB)
  : Outcome unit * DB :=
  let selected := List.filter (has_chrome_id chromeId) (bookmarks d) in
  let others := List.filter (fun b => negb (has_chrome_id chromeId b)) (bookmarks d) in
  if negb (length selected =? 0)%nat
     && (existsb (fun b => bool_decide (url b = u)) others || (1 <? length selected)%nat)
  then (Throw (lit "UNIQUE constraint failed: bookmarks.url"), d)
  else (Return tt, update_bookmarks (has_chrome_id chromeId) (set_title_url title u now) d).

(** The statements of the repositories, one constructor each; every
    [UPDATE] keeps the [id] column. *)
Inductive Write : Type :=
| W_INSERT_BOOKMARK (chromeId : option jsstr) (u title : jsstr) (now : Z)
| W_UPDATE_BOOKMARK (title u : jsstr) (now : Z) (chromeId : jsstr)
| W_UPDATE_CHROME_ID (i : Z) (chromeId : option jsstr) (now : Z)
| W_UPDATE_BOOKMARK_CONTENT (i : Z) (content hash : jsstr) (now : Z)
| W_UPDATE_BOOKMARK_STATUS (i : Z) (s : BookmarkStatus) (err : option jsstr)
    (analyzed : option Z) (now : Z)
| W_RESET_ANALYZING (now : Z)
| W_MARK_FETCH_FAILED (i : Z) (reason : jsstr) (now : Z)
| W_CLEAR_FETCH_FAILED (i : Z) (now : Z)
| W_DELETE_BOOKMARK (chromeId : jsstr)
| W_INSERT_SUMMARY (s : AISummary)
| W_INSERT_TAG (n : jsstr)
| W_ADD_BOOKMARK_TAG (l : TagLink)
| W_INSERT_SYNC_LOG (e : SyncLogEntry).

Definition write (st : Write) (d : DB) : DB :=
  match st with
  | W_INSERT_BOOKMARK chromeId u title now => (INSERT_BOOKMARK chromeId u title now d).2
  | W_UPDATE_BOOKMARK title u now chromeId => (UPDATE_BOOKMARK title u now chromeId d).2
  | W_UPDATE_CHROME_ID i chromeId now =>
      update_bookmarks (has_id i) (set_chrome_id chromeId now) d
  | W_UPDATE_BOOKMARK_CONTENT i content hash now =>
      update_bookmarks (has_id i) (set_content content hash now) d
  | W_UPDATE_BOOKMARK_STATUS i s err analyzed now =>
      update_bookmarks (has_id i) (set_status s err analyzed now) d
  | W_RESET_ANALYZING now =>
      update_bookmarks (fun b => bool_decide (status b = analyzing)) (set_retry now) d
  | W_MARK_FETCH_FAILED i reason now =>
      update_bookmarks (has_id i) (set_fetch_failed reason now) d
  | W_CLEAR_FETCH_FAILED i now =>
      update_bookmarks (has_id i) (set_fetch_cleared now) d
  | W_DELETE_BOOKMARK chromeId => DELETE_BOOKMARK chromeId d
  | W_INSERT_SUMMARY s => (INSERT_SUMMARY s d).2
  | W_INSERT_TAG n => INSERT_TAG n d
  | W_ADD_BOOKMARK_TAG l => ADD_BOOKMARK_TAG l d
  | W_INSERT_SYNC_LOG e => INSERT_SYNC_LOG e d
  end.

(** The database after a sequence of writes on a new database. *)
Definition written (ws : list Write) : DB := fold_left (fun d w => write w d) ws empty_db.

(** The constraints of the schema that the tables are to satisfy: the
    primary keys, [bookmarks.url UNIQUE], [tags.name UNIQUE],
    [ai_summaries.bookmark_id UNIQUE], the key of [bookmark_tags], and
    AUTOINCREMENT ids below their counters. *)
Definition consistent (d : DB) : Prop :=
  0 <= seq_bookmarks d /\ 0 <= seq_tags d
  /\ NoDup (List.map id (bookmarks d))
  /\ Forall (fun b => 0 < id b <= seq_bookmarks d) (bookmarks d)
  /\ NoDup (List.map url (bookmarks d))
  /\ NoDup (List.map bookmarkId (ai_summaries d))
  /\ NoDup (List.map name (tags d))
  /\ NoDup (List.map tag_id (tags d))
  /\ Forall (fun t => 0 < tag_id t <= seq_tags d) (tags d)
  /\ NoDup (List.map (fun l => (bt_bookmark_id l, bt_tag_id l)) (bookmark_tags d)).

End Store.

(* ===================================================================== *)
(** ** Enrichment queue ([summarization-queue.ts], background start-up)   *)
(* ===================================================================== *)

(** Logging, the "bookmark updated" notification and the progress
    broadcasts have no effect on storage and are left out. *)

Module Queue.
Import JS Types Store.

Record SummaryResult : Type := mkSummaryResult {
  summaryZh : jsstr;
  res_summaryOriginal : option jsstr;
  tagsZh : option (list jsstr);
  tagsOriginal : option (list jsstr);
  confidence : option Q;
  res_language : option jsstr;
}.

Record AIService : Type := mkAI {
  provider : jsstr;
  summarize : jsstr -> jsstr -> option jsstr -> Outcome SummaryResult;
}.

(** The collaborators of the queue: the clock, SHA-256, the configured
    AI service (if any) and the content fetcher, which answers [null]
    rather than throwing. *)
Record Env : Type := mkEnv {
  now : Z;
  hashContent : jsstr -> jsstr;
  toLowerCase : jsstr -> jsstr;
  getActiveAIService : option AIService;
  fetchPageContentSmart : jsstr -> option jsstr;
}.

(** Storage, the session flag [summarizing], the [summarize-next] alarm
    and the two counters of [syncStatus] that the queue maintains. *)
Record World : Type := mkWorld {
  db : DB;
  summarizing : bool;
  alarm : bool;
  summarizedCount : nat;
  pendingCount : nat;
}.

(** *** State and exceptions *)

Definition M (A : Type) : Type := World -> Outcome A * World.

Definition ret {A : Type} (a : A) : M A := fun w => (Return a, w).
Definition throw {A : Type} (e : jsstr) : M A := fun w => (Throw e, w).

Definition bind {A B : Type} (m : M A) (k : A -> M B) : M B :=
  fun w =>
    match m w with
    | (Return a, w') => k a w'
    | (Throw e, w') => (Throw e, w')
    end.

Definition try_catch {A : Type} (m : M A) (handler : jsstr -> M A) : M A :=
  fun w =>
    match m w with
    | (Return a, w') => (Return a, w')
    | (Throw e, w') => handler e w'
    end.

Notation "x <- m ;; k" := (bind m (fun x => k))
  (at level 100, m at next level, k at level 200, right associativity).
Notation "m ;;; k" := (bind m (fun _ => k))
  (at level 100, k at level 200, right associativity).

Definition lift {A : Type} (o : Outcome A) : M A := fun w => (o, w).

(** [query] and [execute] reach the database through
    [sendToOffscreen], which rejects when the message channel fails or
    the database reports an error. The channel is taken to deliver: a
    query answers, and a statement is refused only for a violated
    constraint ([execute_checked]). *)
Definition query_db {A : Type} (q : DB -> A) : M A := fun w => (Return (q (db w)), w).

Definition with_db (d : DB) (w : World) : World :=
  mkWorld d (summarizing w) (alarm w) (summarizedCount w) (pendingCount w).

Definition execute (stmt : DB -> DB) : M unit :=
  fun w => (Return tt, with_db (stmt (db w)) w).

Definition execute_checked {A : Type} (stmt : DB -> Outcome A * DB) : M A :=
  fun w => let '(o, d) := stmt (db w) in (o, with_db d w).

Fixpoint for_each {A : Type} (l : list A) (body : A -> M unit) : M unit :=
  match l with
  | [] => ret tt
  | x :: l' => body x ;;; for_each l' body
  end.

Fixpoint fold_each {A S : Type} (l : list A) (body : S -> A -> M S) (s : S) : M S :=
  match l with
  | [] => ret s
  | x :: l' => s' <- body s x ;; fold_each l' body s'
  end.

(** *** Frame conditions

    [respects P m]: running [m] takes every world to a [P]-related one,
    whether it returns or throws. *)
Definition respects (P : World -> World -> Prop) {A : Type} (m : M A) : Prop :=
  forall w, P w (m w).2.

(** The bookmark rows keep their ids and retry counters. *)
Definition same_retry (w w' : World) : Prop :=
  List.map (fun r => (id r, retryCount r)) (bookmarks (db w'))
  = List.map (fun r => (id r, retryCount r)) (bookmarks (db w)).

(** The bookmark rows keep their ids, and the rows whose id is not in
    [touched] are unchanged. *)
Definition only_touches (touched : list Z) (w w' : World) : Prop :=
  Forall2 (fun r r' => id r = id r' /\ (~ In (id r) touched -> r = r'))
    (bookmarks (db w)) (bookmarks (db w')).

(** The row of [bookmarks] with the given id. *)
Definition row_of (i : Z) (d : DB) : option Bookmark :=
  List.find (has_id i) (bookmarks d).

Definition CHUNK_SIZE : nat := 2.

Section Repositories.
Variable env : Env.

(** [x || null] on an optional text. *)
Definition or_null (o : option jsstr) : option jsstr :=
  if truthy_str o then o else None.

(** [x || null] on an optional number: 0 is falsy. *)
Definition or_null_num (o : option Q) : option Q :=
  match o with
  | Some q => if Qeq_bool q 0 then None else Some q
  | None => None
  end.

Definition updateStatus (i : Z) (s : BookmarkStatus) (errorMessage : option jsstr) : M unit :=
  let analyzedAt := if bool_decide (s = completed) then Some (now env) else None in
  execute (update_bookmarks (has_id i)
             (set_status s (or_null errorMessage) analyzedAt (now env))).

Definition updateContent (i : Z) (content hash : jsstr) : M unit :=
  execute (update_bookmarks (has_id i) (set_content content hash (now env))).

Definition findPending (limit : nat) : M (list Bookmark) :=
  query_db (GET_BOOKMARKS_PENDING limit).

Definition countPending : M nat := query_db GET_PENDING_COUNT.

(** [GET_ALL_FOR_INDEX] answers one row per bookmark; the joined
    summary, tag and category columns are not read by the queue. *)
Definition getAllForIndex : M (list Bookmark) := query_db bookmarks.

Definition resetAnalyzingToRetry : M nat :=
  changes <- query_db (fun d =>
    length (List.filter (fun b => bool_decide (status b = analyzing)) (bookmarks d))) ;;
  execute (update_bookmarks (fun b => bool_decide (status b = analyzing))
             (set_retry (now env))) ;;;
  ret changes.

Definition markFetchFailed (i : Z) (reason : jsstr) : M unit :=
  execute (update_bookmarks (has_id i) (set_fetch_failed reason (now env))).

Definition AISummaryRepository_create (s : AISummary) : M Z :=
  execute_checked
    (INSERT_SUMMARY
       (mkSummary 0 (bookmarkId s) (aiProvider s) (or_null (aiModel s))
          (summaryText s) (or_null (summaryOriginal s)) (or_null_num (confidenceScore s))
          (or_null (language s)) (sum_createdAt s))).

Definition AISummaryRepository_count : M nat := query_db GET_SUMMARY_COUNT.

Definition TagRepository_findOrCreate (n : jsstr) : M Z :=
  existing <- query_db (GET_TAG_BY_NAME (toLowerCase env n)) ;;
  match existing with
  | Some t => ret (tag_id t)
  | None =>
      execute (INSERT_TAG (toLowerCase env n)) ;;;
      query_db last_insert_rowid
  end.

Definition TagRepository_addToBookmark (b t : Z) (conf : option Q) : M unit :=
  execute (ADD_BOOKMARK_TAG (mkLink b t (or_null_num conf) (now env))).

Definition SyncLogRepository_create (e : SyncLogEntry) : M unit :=
  execute (INSERT_SYNC_LOG
             (mkLog (action e)
                (match log_bookmarkId e with Some 0 => None | o => o end)
                (log_status e) (message e) (timestamp e))).

(** *** [summarizeBookmark] *)

Definition save_tag (b : Z) (conf : option Q) (tagName : jsstr) : M unit :=
  tagId <- TagRepository_findOrCreate tagName ;;
  TagRepository_addToBookmark b tagId conf.

Definition str_in (s : jsstr) (l : list jsstr) : bool :=
  existsb (fun x => bool_decide (x = s)) l.

Definition summarize_steps (bookmark : Bookmark) : M bool :=
  updateStatus (id bookmark) analyzing None ;;;
  aiService <- match getActiveAIService env with
               | Some s => ret s
               | None => throw (lit "Error: No AI service configured")
               end ;;
  content <- (if truthy_str (pageContent bookmark) then ret (pageContent bookmark)
              else
                let content := fetchPageContentSmart env (url bookmark) in
                if truthy_str content then
                  updateContent (id bookmark) (or_empty content)
                    (hashContent env (or_empty content)) ;;;
                  ret content
                else ret content) ;;
  result <- lift (summarize aiService (originalTitle bookmark) (url bookmark)
                    (or_null content)) ;;
  AISummaryRepository_create
    (mkSummary 0 (id bookmark) (provider aiService) None (summaryZh result)
       (res_summaryOriginal result) (confidence result) (res_language result)
       (now env)) ;;;
  let totalTagCount :=
    (length (default [] (tagsZh result)) + length (default [] (tagsOriginal result)))%nat in
  for_each (default [] (tagsZh result)) (save_tag (id bookmark) (confidence result)) ;;;
  for_each (default [] (tagsOriginal result))
    (fun tagName =>
       if negb (str_in tagName (default [] (tagsZh result))) then
         save_tag (id bookmark) (confidence result) tagName
       else ret tt) ;;;
  updateStatus (id bookmark) completed None ;;;
  SyncLogRepository_create
    (mkLog A_analyze (Some (id bookmark)) L_success
       (Some (MsgTagsGenerated totalTagCount
                (if truthy_str (res_language result) then or_empty (res_language result)
                 else lit "unknown")))
       (now env)) ;;;
  ret true.

Definition summarize_failed (bookmark : Bookmark) (error : jsstr) : M bool :=
  let newRetryCount := retryCount bookmark + 1 in
  updateStatus (id bookmark)
    (if 3 <=? newRetryCount then failed else pending) (Some error) ;;;
  SyncLogRepository_create
    (mkLog A_analyze (Some (id bookmark)) L_failed (Some (MsgError error)) (now env)) ;;;
  ret false.

Definition summarizeBookmark (bookmark : Bookmark) : M bool :=
  try_catch (summarize_steps bookmark) (summarize_failed bookmark).

(** *** The batch loop *)

Definition isQueueRunning : M bool := fun w => (Return (summarizing w), w).

Definition set_summarizing (v : bool) : M unit :=
  fun w => (Return tt, mkWorld (db w) v (alarm w) (summarizedCount w) (pendingCount w)).

Definition set_alarm (v : bool) : M unit :=
  fun w => (Return tt, mkWorld (db w) (summarizing w) v (summarizedCount w) (pendingCount w)).

Definition set_syncStatus (s p : nat) : M unit :=
  fun w => (Return tt, mkWorld (db w) (summarizing w) (alarm w) s p).

(** The [try] block of [processNextBatch], once the rows are fetched. *)
Definition process_batch (pending : list Bookmark) : M unit :=
  if (length pending =? 0)%nat then
    set_summarizing false ;;; set_alarm false
  else
    for_each pending
      (fun bookmark =>
         summarizeBookmark bookmark ;;;
         s <- AISummaryRepository_count ;;
         p <- countPending ;;
         set_syncStatus s p) ;;;
    remainingCount <- countPending ;;
    if (0 <? remainingCount)%nat then set_alarm true
    else set_summarizing false.

Definition processNextBatch : M unit :=
  running <- isQueueRunning ;;
  if negb running then ret tt
  else
    try_catch
      (pending <- findPending CHUNK_SIZE ;; process_batch pending)
      (fun _ => set_alarm true).

(** The part of [initializeAsync] that touches the queue: resume an
    interrupted batch, then the recovery pass. *)
Definition initializeAsync : M unit :=
  running <- isQueueRunning ;;
  (if running then processNextBatch else ret tt) ;;;
  try_catch (resetAnalyzingToRetry ;;; ret tt) (fun _ => ret tt).

(** *** The repair flow [refetchGarbledContent] *)

Inductive RefetchError : Type :=
| StillGarbled (title : jsstr)
| NewContentTooShort (title : jsstr)
| NoContent (title : jsstr) (failReason : jsstr).

Record RefetchResult : Type := mkRefetch {
  totalScanned : nat;
  garbledFound : nat;
  emptyFound : nat;
  refetched : nat;
  failedCount : nat;
  errors : list RefetchError;
}.

(** JavaScript truthiness of a time stamp: present and not 0. *)
Definition truthy_num (o : option Z) : bool :=
  match o with Some t => negb (t =? 0) | None => false end.

(** The scan: what [needsRefetchList] holds, with the two counters. *)
Definition scan_step (acc : list (Bookmark * RefetchReason) * nat * nat)
           (bookmark : Bookmark) : list (Bookmark * RefetchReason) * nat * nat :=
  let '(needs, emptyN, garbledN) := acc in
  if truthy_num (fetchFailedAt bookmark) then acc
  else
    let content := pageContent bookmark in
    if negb (truthy_str content) || (length (trim (or_empty content)) =? 0)%nat then
      (needs ++ [(bookmark, RR_empty)], S emptyN, garbledN)
    else
      let detection := Garbled.detectGarbledContent (toLowerCase env) (or_empty content) in
      if Garbled.isGarbled detection then
        (needs ++ [(bookmark, RR_detected (Garbled.reason detection))], emptyN, S garbledN)
      else acc.

Definition scan (allBookmarks : list Bookmark)
  : list (Bookmark * RefetchReason) * nat * nat :=
  fold_left scan_step allBookmarks ([], O, O).

(** ["无法获取内容 (" + n + " bytes)"] *)
Definition failReason (n : nat) : jsstr :=
  [0x65E0; 0x6CD5; 0x83B7; 0x53D6; 0x5185; 0x5BB9; 0x20; 0x28]%N
  ++ decimal n ++ lit " bytes)".

Definition count_failed (e : RefetchError) (r : RefetchResult) : RefetchResult :=
  mkRefetch (totalScanned r) (garbledFound r) (emptyFound r) (refetched r)
    (S (failedCount r)) (errors r ++ [e]).

Definition count_refetched (r : RefetchResult) : RefetchResult :=
  mkRefetch (totalScanned r) (garbledFound r) (emptyFound r) (S (refetched r))
    (failedCount r) (errors r).

(** The body of the repair loop for one entry. Nothing in it can throw
    here (the fetcher answers [null], the statements are updates and a
    log insert), so its [catch] branch, which only counts a failure,
    does not appear. *)
Definition refetch_one (result : RefetchResult) (entry : Bookmark * RefetchReason)
  : M RefetchResult :=
  let '(bookmark, reason) := entry in
  let newContent := fetchPageContentSmart env (url bookmark) in
  if truthy_str newContent && (50 <? length (or_empty newContent))%nat then
    let newContent := or_empty newContent in
    let newDetection := Garbled.detectGarbledContent (toLowerCase env) newContent in
    if Garbled.isGarbled newDetection then
      ret (count_failed (StillGarbled (originalTitle bookmark)) result)
    else
      let oldContent := pageContent bookmark in
      if truthy_str oldContent
         && (length newContent * 2 <? length (or_empty oldContent))%nat then
        ret (count_failed (NewContentTooShort (originalTitle bookmark)) result)
      else
        updateContent (id bookmark) newContent (hashContent env newContent) ;;;
        SyncLogRepository_create
          (mkLog A_fetch_content (Some (id bookmark)) L_success
             (Some (MsgRefetched reason)) (now env)) ;;;
        ret (count_refetched result)
  else
    let reasonText := failReason (length (or_empty newContent)) in
    markFetchFailed (id bookmark) reasonText ;;;
    ret (count_failed (NoContent (originalTitle bookmark) reasonText) result).

(** The scan's verdict on one row: not dead-marked, and either without
    content or with content the detector calls garbled. *)
Definition flagged (b : Bookmark) : bool :=
  negb (truthy_num (fetchFailedAt b))
  && (negb (truthy_str (pageContent b))
      || (length (trim (or_empty (pageContent b))) =? 0)%nat
      || Garbled.isGarbled
           (Garbled.detectGarbledContent (toLowerCase env) (or_empty (pageContent b)))).

(** What the repair of the flagged bookmark [b] does to a row: the new
    content when it is accepted, the dead-link mark when nothing usable
    was fetched, nothing when the new content is rejected. *)
Definition refetch_update (b : Bookmark) (r : Bookmark) : Bookmark :=
  let newContent := fetchPageContentSmart env (url b) in
  if truthy_str newContent && (50 <? length (or_empty newContent))%nat then
    if Garbled.isGarbled
         (Garbled.detectGarbledContent (toLowerCase env) (or_empty newContent)) then r
    else if truthy_str (pageContent b)
            && (length (or_empty newContent) * 2 <? length (or_empty (pageContent b)))%nat
    then r
    else set_content (or_empty newContent) (hashContent env (or_empty newContent)) (now env) r
  else set_fetch_failed (failReason (length (or_empty newContent))) (now env) r.

Definition refetchGarbledContent : M RefetchResult :=
  allBookmarks <- getAllForIndex ;;
  let '(needsRefetchList, emptyN, garbledN) := scan allBookmarks in
  fold_each needsRefetchList refetch_one
    (mkRefetch (length allBookmarks) garbledN emptyN O O []).
(** *** Starting and stopping the queue *)

Definition startSummarizationQueue : M unit :=
  set_summarizing true ;;; processNextBatch.

Definition stopSummarizationQueue : M unit :=
  set_summarizing false ;;; set_alarm false.

Definition processQueue : M unit := startSummarizationQueue.

(** *** Further repository operations *)

Definition findById (i : Z) : M (option Bookmark) := query_db (GET_BOOKMARK_BY_ID i).

Definition findByChromeId (chromeId : jsstr) : M (option Bookmark) :=
  query_db (GET_BOOKMARK_BY_CHROME_ID chromeId).

Definition findByUrl (u : jsstr) : M (option Bookmark) := query_db (GET_BOOKMARK_BY_URL u).

(** [BookmarkRepository.create]: both time stamps are the time of the
    insert; the status is ['pending'] whatever the argument says. *)
Definition BookmarkRepository_create (chromeBookmarkId : option jsstr) (u title : jsstr)
  : M Z :=
  execute_checked (INSERT_BOOKMARK (or_null chromeBookmarkId) u title (now env)).

Definition BookmarkRepository_update (chromeId : jsstr) (title u : jsstr) : M unit :=
  execute_checked (UPDATE_BOOKMARK title u (now env) chromeId).

Definition updateChromeId (i : Z) (chromeId : jsstr) : M unit :=
  execute (update_bookmarks (has_id i) (set_chrome_id (Some chromeId) (now env))).

Definition BookmarkRepository_delete (chromeId : jsstr) : M unit :=
  execute (DELETE_BOOKMARK chromeId).

Definition clearFetchFailed (i : Z) : M unit :=
  execute (update_bookmarks (has_id i) (set_fetch_cleared (now env))).

Definition TagRepository_findByName (n : jsstr) : M (option Tag) :=
  query_db (GET_TAG_BY_NAME n).

(** *** Manual summarization *)

(** [bookmark.pageContent = content] on the object read from the row. *)
Definition with_pageContent (content : option jsstr) (b : Bookmark) : Bookmark :=
  mkBookmark (id b) (chromeBookmarkId b) (url b) (originalTitle b) content
    (pageContentHash b) (userNotes b) (status b) (errorMessage b) (retryCount b)
    (fetchFailedAt b) (fetchFailReason b) (isPinned b) (createdAt b) (analyzedAt b)
    (contentFetchedAt b) (lastUpdated b).

(** [summarizePage]: the bookmark is looked up with the URL in the
    place of the Chrome id. *)
Definition summarizePage (title u : jsstr) (content : option jsstr) : M bool :=
  try_catch
    (found <- findByChromeId u ;;
     bookmark <- match found with
                 | Some b => ret b
                 | None =>
                     i <- BookmarkRepository_create None u title ;;
                     created <- findById i ;;
                     match created with
                     | Some b => ret b
                     | None => throw (lit "Error: Failed to create bookmark")
                     end
                 end ;;
     bookmark <- (if truthy_str content then
                    updateContent (id bookmark) (or_empty content)
                      (hashContent env (or_empty content)) ;;;
                    ret (with_pageContent content bookmark)
                  else ret bookmark) ;;
     summarizeBookmark bookmark)
    (fun _ => ret false).

Definition summarizeBookmarkById (bookmarkId : Z) : M bool :=
  try_catch
    (found <- findById bookmarkId ;;
     match found with
     | None => ret false
     | Some bookmark =>
         if bool_decide (status bookmark = completed) then ret true
         else summarizeBookmark bookmark
     end)
    (fun _ => ret false).

(** *** Mirroring a Chrome bookmark ([syncBookmark]) *)

Record ChromeBookmark : Type := mkChrome {
  cb_id : jsstr;
  cb_title : jsstr;
  cb_url : option jsstr;
}.

Inductive SyncResult : Type := added | updated | skipped.

Definition syncBookmark (chromeBookmark : ChromeBookmark) : M SyncResult :=
  if negb (truthy_str (cb_url chromeBookmark)) then ret skipped
  else
    let u := or_empty (cb_url chromeBookmark) in
    existing <- findByChromeId (cb_id chromeBookmark) ;;
    match existing with
    | Some existing =>
        if negb (bool_decide (originalTitle existing = cb_title chromeBookmark))
           || negb (bool_decide (url existing = u)) then
          BookmarkRepository_update (cb_id chromeBookmark) (cb_title chromeBookmark) u ;;;
          ret updated
        else ret skipped
    | None =>
        byUrl <- findByUrl u ;;
        match byUrl with
        | Some existing =>
            updateChromeId (id existing) (cb_id chromeBookmark) ;;;
            if negb (bool_decide (originalTitle existing = cb_title chromeBookmark)) then
              BookmarkRepository_update (cb_id chromeBookmark) (cb_title chromeBookmark) u ;;;
              ret updated
            else ret skipped
        | None =>
            BookmarkRepository_create (Some (cb_id chromeBookmark)) u
              (cb_title chromeBookmark) ;;;
            ret added
        end
    end.

End Repositories.

End Queue.

(* ===================================================================== *)
(** ** Concrete inputs used by the examples below                         *)
(* ===================================================================== *)

Module Examples.
Import JS Types.

(** Forty Unicode replacement characters. *)
Definition replacement40 : jsstr := repeat 0xFFFD%N 40.

(** A 500-character Chinese paragraph (a 20-character sentence, 25 times). *)
Definition sentence : jsstr :=
  [0x4ECA; 0x5929; 0x5929; 0x6C14; 0x5F88; 0x597D; 0xFF0C; 0x6211; 0x4EEC; 0x53BB;
   0x516C; 0x56ED; 0x6563; 0x6B65; 0xFF0C; 0x5FC3; 0x60C5; 0x6109; 0x5FEB; 0x3002]%N.

Definition paragraph500 : jsstr := concat (repeat sentence 25).

(** The fallback text of a frameset page that was not fetched properly. *)
Definition frames_text : jsstr :=
  lit "This page uses frames, but your browser doesn't support them.".

(** The libraries, made concrete for the examples: ASCII case folding,
    a phonetic matcher that never matches, a frecency log without
    entries (the order is kept). *)
Definition no_pinyin (text query : jsstr) : option bool := Some false.
Definition keep_order (q : jsstr) (l : list Engine.FrecencyItem)
  : option (list Engine.FrecencyItem) := Some l.

Definition plain_bookmark (i : Z) (u title : jsstr) (pinned : bool) (updated : Z)
  : Bookmark :=
  mkBookmark i None u title None None None completed None 0 None None pinned
    updated None None updated.

(** Twenty-one bookmarks of the category ["dev"]. *)
Definition dev_bookmark (i : nat) : BookmarkWithDetails :=
  mkDetails
    (plain_bookmark (Z.of_nat i) (lit "https://example.org/" ++ decimal i)
       (lit "Page " ++ decimal i) false (Z.of_nat i))
    None (Some []) (Some (mkCategory (lit "dev") None)).

Definition dev_index : list BookmarkWithDetails := List.map dev_bookmark (seq 1 21).

Definition dev_state : Engine.EngineState :=
  Engine.mkState dev_index None Config.DEFAULT_SEARCH_STRATEGIES.

Definition at_dev : SearchOptions := mkOptions (lit "@dev") None None.

(** The end-to-end scenario of the specification: A (title "React
    Guide"), B (title "react tutorial", pinned) and C (only its URL
    holds "react"), with only [title_exact] and [url_exact] enabled, in
    that order. *)
Definition bmA : BookmarkWithDetails :=
  mkDetails (plain_bookmark 1 (lit "https://a.example/guide") (lit "React Guide") false 10)
    None (Some []) None.
Definition bmB : BookmarkWithDetails :=
  mkDetails (plain_bookmark 2 (lit "https://b.example/tutorial") (lit "react tutorial") true 20)
    None (Some []) None.
Definition bmC : BookmarkWithDetails :=
  mkDetails (plain_bookmark 3 (lit "https://c.example/react") (lit "Unrelated") false 30)
    None (Some []) None.

Definition abc_index : list BookmarkWithDetails := [bmA; bmB; bmC].

Definition title_then_url : Config.SearchStrategyOrder :=
  Config.mkOrder
    (Some (Config.mkSaved "title_exact" true :: Config.mkSaved "url_exact" true
           :: List.map (fun d => Config.mkSaved (Config.id d) false)
                (List.filter
                   (fun d => negb (String.eqb (Config.id d) "title_exact"
                                   || String.eqb (Config.id d) "url_exact"))
                   Config.DEFAULT_SEARCH_STRATEGIES))).

Definition abc_state : Engine.EngineState :=
  Engine.mkState abc_index None (Config.loadSearchStrategies title_then_url).

Definition react : SearchOptions := mkOptions (lit "react") None None.

Definition at_server_react : SearchOptions :=
  mkOptions ([0x40; 0x670D; 0x52A1; 0x5668; 0x20]%N ++ lit "react") None None.


(** A bookmark that failed once already, and a service that is down. *)
Definition once_failed : Bookmark :=
  mkBookmark 1 None (lit "https://example.org/a") (lit "A page") None None None
    pending None 1 None None false 100 None None 100.

Definition twice_failed : Bookmark :=
  mkBookmark 1 None (lit "https://example.org/a") (lit "A page") None None None
    pending None 2 None None false 100 None None 100.

Definition world_of (rows : list Bookmark) : Queue.World :=
  Queue.mkWorld (Store.mkDB rows [] [] [] [] 1 0 0 0) true false 0 0.

Definition service_down : Queue.AIService :=
  Queue.mkAI (lit "deepseek")
    (fun title url content => Store.Throw (lit "Error: network timeout")).

Definition env_down : Queue.Env :=
  Queue.mkEnv 1000 (fun c => c) lower_ascii (Some service_down) (fun url => None).

(** A row left [analyzing] by a worker that died, next to a pending one. *)
Definition stuck : Bookmark :=
  mkBookmark 2 None (lit "https://example.org/b") (lit "B page") None None None
    analyzing None 0 None None false 50 None None 60.

Definition stuck_world : Queue.World := world_of [once_failed; stuck].

(** A bookmark whose stored content is sixty replacement characters,
    and a fetcher that brings back the same garbled text. *)
Definition garbled60 : jsstr := repeat 0xFFFD%N 60.

Definition garbled_bm : Bookmark :=
  mkBookmark 7 None (lit "https://example.org/g") (lit "G page") (Some garbled60) None None
    completed None 0 None None false 100 None None 100.

Definition env_still_garbled : Queue.Env :=
  Queue.mkEnv 1000 (fun c => c) lower_ascii None (fun url => Some garbled60).

(** A summary for bookmark 1, written twice. *)
Definition summary1 : AISummary :=
  mkSummary 0 1 (lit "deepseek") None (lit "summary") None None None 1000.

Definition summarized_twice : Store.DB :=
  Store.run (Store.S_INSERT_SUMMARY summary1)
    (Store.run (Store.S_INSERT_SUMMARY summary1)
       (Store.run (Store.S_INSERT_BOOKMARK None (lit "https://example.org/a")
                     (lit "A page") 100)
          Store.empty_db)).

(** A second pinned bookmark, matched by its URL only. *)
Definition bmD : BookmarkWithDetails :=
  mkDetails (plain_bookmark 4 (lit "https://d.example/react-notes") (lit "Reading list") true 40)
    None (Some []) None.

Definition abcd_state : Engine.EngineState :=
  Engine.mkState [bmA; bmB; bmC; bmD] None (Config.loadSearchStrategies title_then_url).

(** A text that raises every signal of the detector at its highest
    rate: sixty replacement characters, six undecoded entities, eleven
    runs of accented Latin-1 letters, three runs of question marks and
    a single ideograph. *)
Definition all_signals : jsstr :=
  repeat 0xFFFD%N 60
  ++ concat (repeat (lit "&amp;") 6)
  ++ concat (repeat [0xE9; 0xE9; 0x20]%N 11)
  ++ concat (repeat (lit "???a") 3)
  ++ [0x4E2D]%N.

(** Forty-nine letters: too short for the detector to judge. *)
Definition short_text : jsstr := repeat 0x61%N 49.

(** A service that answers, with tags in both languages. *)
Definition service_up : Queue.AIService :=
  Queue.mkAI (lit "deepseek")
    (fun title url content =>
       Store.Return
         (Queue.mkSummaryResult (lit "A summary") None
            (Some [lit "React"; lit "Web"]) (Some [lit "react"; lit "notes"])
            (Some (9 # 10)) (Some (lit "en")))).

Definition env_up : Queue.Env :=
  Queue.mkEnv 1000 (fun c => c) lower_ascii (Some service_up) (fun url => None).

End Examples.

(* ===================================================================== *)
(** * Properties                                                          *)
(* ===================================================================== *)

(** ** Strategy configuration *)

Module ConfigProps.
Import Config.

Lemma default_ids_NoDup : NoDup (id <$> DEFAULT_SEARCH_STRATEGIES).
Proof. compute_done. Qed.

(** A map filled entry by entry from a list without repeated ids
    answers what a search of the list answers. *)
Lemma fold_insert_lookup (l : list SearchStrategy) (m : gmap string SearchStrategy) i :
  NoDup (id <$> l) ->
  fold_left (fun m s => <[id s := s]> m) l m !! i =
  match List.find (fun d => String.eqb (id d) i) l with
  | Some d => Some d
  | None => m !! i
  end.
Proof.
  revert m. induction l as [|a l IH]; intros m Hnd; simpl; [done|].
  inversion Hnd as [|? ? Hnotin Hnd']; subst.
  rewrite IH by done.
  destruct (String.eqb_spec (id a) i) as [Hai|Hne].
  - destruct (List.find _ l) as [d|] eqn:Hf.
    + apply find_some in Hf as [Hin Heq].
      apply String.eqb_eq in Heq.
      exfalso. apply Hnotin. rewrite Hai, <- Heq.
      apply list_elem_of_fmap_2, list_elem_of_In, Hin.
    + rewrite <- Hai. apply lookup_insert_eq.
  - destruct (List.find _ l); [done|]. by apply lookup_insert_ne.
Qed.

Lemma defaultMap_lookup i : defaultMap !! i = find_default i.
Proof.
  unfold defaultMap, find_default.
  rewrite fold_insert_lookup by apply default_ids_NoDup.
  destruct (List.find _ _); [done|]. apply lookup_empty.
Qed.

Lemma find_default_elem (d : SearchStrategy) :
  d ∈ DEFAULT_SEARCH_STRATEGIES -> find_default (id d) = Some d.
Proof.
  intros Hd. unfold find_default.
  pose proof default_ids_NoDup as Hnd.
  induction DEFAULT_SEARCH_STRATEGIES as [|a l IH]; [by apply elem_of_nil in Hd|].
  simpl. inversion Hnd as [|? ? Hnotin Hnd']; subst.
  apply elem_of_cons in Hd as [->|Hd].
  - by rewrite String.eqb_refl.
  - destruct (String.eqb_spec (id a) (id d)) as [Heq|Hne]; [|by apply IH].
    exfalso. apply Hnotin. rewrite Heq. by apply list_elem_of_fmap_2.
Qed.

(** The first loop: the result grows by the known saved entries, in
    order, and [usedIds] by their ids. *)
Lemma load_saved_fold (saved : list SavedEntry) acc :
  (fold_left load_saved saved acc).1 =
    acc.1 ++ omap (fun s => with_enabled (s_enabled s) <$> find_default (s_id s)) saved
  /\ forall i, i ∈ (fold_left load_saved saved acc).2 <->
               i ∈ acc.2 \/ (i ∈ s_id <$> saved /\ is_Some (find_default i)).
Proof.
  revert acc. induction saved as [|s saved IH]; intros acc; simpl.
  - split; [by rewrite app_nil_r|]. intros i. split; [by left|].
    intros [?|[H _]]; [done|]. by apply elem_of_nil in H.
  - destruct (IH (load_saved acc s)) as [IH1 IH2]. split.
    + rewrite IH1. unfold load_saved. rewrite defaultMap_lookup.
      destruct (find_default (s_id s)); simpl; [|done].
      by rewrite <- app_assoc.
    + intros i. rewrite IH2. unfold load_saved. rewrite defaultMap_lookup.
      rewrite elem_of_cons.
      destruct (find_default (s_id s)) as [d|] eqn:Hf; simpl.
      * rewrite elem_of_union, elem_of_singleton. split.
        -- intros [[->|?]|[? ?]]; eauto.
        -- intros [?|[[->|?] ?]]; eauto.
      * split.
        -- intros [?|[? ?]]; eauto.
        -- intros [?|[[->|?] Hs]]; eauto.
           rewrite Hf in Hs. by destruct Hs.
Qed.

(** The second loop appends the defaults whose id is not in [usedIds]. *)
Lemma load_new_fold (used : gset string) (l res : list SearchStrategy) :
  fold_left (load_new used) l res = res ++ base.filter (fun d => id d ∉ used) l.
Proof.
  revert res. induction l as [|d l IH]; intros res; simpl.
  - by rewrite app_nil_r.
  - rewrite IH. unfold load_new. rewrite filter_cons.
    destruct (decide (id d ∈ used)), (decide (id d ∉ used)); try done.
    by rewrite <- app_assoc.
Qed.

Lemma filter_ext_elem {A} (P Q : A -> Prop) `{!forall x, Decision (P x)}
      `{!forall x, Decision (Q x)} (l : list A) :
  (forall x, x ∈ l -> (P x <-> Q x)) -> base.filter P l = base.filter Q l.
Proof.
  induction l as [|a l IH]; intros Hext; [done|].
  rewrite !filter_cons.
  assert (P a <-> Q a) as Ha by (apply Hext; left).
  rewrite IH by (intros x Hx; apply Hext; by right).
  destruct (decide (P a)), (decide (Q a)); tauto.
Qed.

(** C5. [loadSearchStrategies] returns the hardcoded default order when
    the saved override list is absent or empty; otherwise it emits, in
    the saved order, the default definition under the saved [enabled]
    flag for every saved id of the default set (other ids are ignored),
    followed, in default order, by every default strategy whose id is
    absent from the saved list. *)
Theorem loadSearchStrategies_merge :
  loadSearchStrategies (mkOrder None) = DEFAULT_SEARCH_STRATEGIES
  /\ loadSearchStrategies (mkOrder (Some [])) = DEFAULT_SEARCH_STRATEGIES
  /\ forall s saved,
       loadSearchStrategies (mkOrder (Some (s :: saved))) = merge_saved (s :: saved).
Proof.
  split; [done|]. split; [done|].
  intros s saved. unfold loadSearchStrategies, merge_saved.
  cbn [strategies].
  destruct (load_saved_fold (s :: saved) ([], ∅)) as [H1 H2].
  rewrite load_new_fold, H1. cbn [fst]. rewrite app_nil_l. f_equal.
  apply filter_ext_elem. intros d Hd.
  rewrite H2. cbn [snd]. split.
  - intros Hn Hin. apply Hn. right. split; [done|].
    rewrite (find_default_elem d Hd). by eexists.
  - intros Hn [H|[H _]]; [by apply elem_of_empty in H|done].
Qed.

End ConfigProps.

(** ** Regular-expression matcher *)

Module JSProps.
Import JS.

(** A match cannot begin with a code unit outside the first set. *)
Lemma rmatch_first_fail {R} (r : regex) c s m (k : jsstr -> caps -> option R) :
  first_ok r c = false -> rmatch r (c :: s) m k = None.
Proof.
  revert m k. induction r as [p|n p|r1 IH1 r2 IH2|r1 IH|i r1 IH|]; intros m k Hf; simpl in *.
  - by rewrite Hf.
  - destruct n; [done|]. by rewrite Hf.
  - by apply IH1.
  - done.
  - by apply IH.
  - done.
Qed.

Lemma count_matches_from_none (r : regex) (s : jsstr) skip :
  forallb (fun c => negb (first_ok r c)) s = true ->
  count_matches_from r skip s = O.
Proof.
  revert skip. induction s as [|c s IH]; intros skip Hs; simpl in *; [done|].
  apply andb_true_iff in Hs as [Hc Hs]. apply negb_true_iff in Hc.
  destruct skip; [|by apply IH].
  unfold match_here. rewrite rmatch_first_fail by done. by apply IH.
Qed.

Lemma count_matches_none (r : regex) (s : jsstr) :
  forallb (fun c => negb (first_ok r c)) s = true -> count_matches r s = O.
Proof. apply count_matches_from_none. Qed.

(** *** The stable sort *)

Section SortProps.
Context {A : Type} (cmp : A -> A -> Q).

Hypothesis before_total : forall a b, before cmp a b \/ before cmp b a.
Hypothesis before_trans :
  forall a b c, before cmp a b -> before cmp b c -> before cmp a c.

Lemma insert_sorted_perm (x : A) (l : list A) :
  Permutation (insert_sorted cmp x l) (x :: l).
Proof.
  induction l as [|y l IH]; simpl; [done|].
  destruct (Qle_bool (cmp x y) 0); [done|].
  rewrite IH. apply perm_swap.
Qed.

Lemma stable_sort_perm (l : list A) : Permutation (stable_sort cmp l) l.
Proof.
  induction l as [|x l IH]; simpl; [done|].
  rewrite insert_sorted_perm. by constructor.
Qed.

Lemma insert_sorted_sorted (x : A) (l : list A) :
  StronglySorted (before cmp) l -> StronglySorted (before cmp) (insert_sorted cmp x l).
Proof.
  induction 1 as [|y l Hl IH Hy]; simpl.
  - repeat constructor.
  - destruct (Qle_bool (cmp x y) 0) eqn:Hxy.
    + constructor; [by constructor|].
      constructor; [exact Hxy|].
      eapply Forall_impl; [exact Hy|]. intros z Hz. by eapply before_trans.
    + constructor; [exact IH|].
      assert (before cmp y x) as Hyx.
      { destruct (before_total x y) as [H|H]; [|done]. unfold before in H. congruence. }
      apply Forall_forall. intros z Hz.
      rewrite insert_sorted_perm in Hz.
      apply elem_of_cons in Hz as [->|Hz]; [done|].
      by apply (proj1 (Forall_forall _ _) Hy).
Qed.

Lemma stable_sort_sorted (l : list A) :
  StronglySorted (before cmp) (stable_sort cmp l).
Proof.
  induction l as [|x l IH]; simpl; [constructor|]. by apply insert_sorted_sorted.
Qed.
End SortProps.

Lemma StronglySorted_weaken {A} (R R' : A -> A -> Prop) (l : list A) :
  (forall a b, R a b -> R' a b) -> StronglySorted R l -> StronglySorted R' l.
Proof.
  intros HR. induction 1 as [|x l Hl IH Hx]; constructor; [done|].
  eapply Forall_impl; [exact Hx|]. intros y; apply HR.
Qed.

Lemma StronglySorted_take {A} (R : A -> A -> Prop) (l : list A) (n : nat) :
  StronglySorted R l -> StronglySorted R (firstn n l).
Proof.
  intros Hs. revert n. induction Hs as [|x l Hl IH Hx]; intros n.
  - destruct n; constructor.
  - destruct n as [|n]; simpl; [constructor|].
    constructor; [apply IH|].
    apply Forall_forall. intros y Hy. apply subseteq_take in Hy.
    by apply (proj1 (Forall_forall _ _) Hx).
Qed.

Lemma inject_Z_nonpos (z : Z) : Qle_bool (inject_Z z) 0 = true <-> z <= 0.
Proof.
  rewrite Qle_bool_iff. unfold Qle. simpl. lia.
Qed.

End JSProps.

(** ** Garbled-content detector *)

Module GarbledProps.
Import JS Garbled.

Lemma forallb_impl {A} (p q : A -> bool) (l : list A) :
  (forall x, p x = true -> q x = true) -> forallb p l = true -> forallb q l = true.
Proof.
  intros Hpq. induction l as [|a l IH]; simpl; [done|].
  intros [Ha Hl]%andb_true_iff. rewrite (Hpq _ Ha). by apply IH.
Qed.

(** Unfold the code-unit predicates down to comparisons on [N]. *)
Ltac ranges :=
  unfold plain_cjk, latin1_lower_ci, is_hex_ci, is_digit, eq_ci, is_lower, is_upper,
    in_range in *;
  repeat match goal with
    | H : _ || _ = true |- _ => apply orb_true_iff in H as [H|H]
    | H : _ && _ = true |- _ => apply andb_true_iff in H as [? ?]
    | H : (_ <=? _)%N = true |- _ => apply N.leb_le in H
    | H : (_ =? _)%N = true |- _ => apply N.eqb_eq in H
    end.

Lemma plain_cjk_bounds c :
  plain_cjk c = true -> (0x3000 <= c <= 0x9FFF \/ 0xFF01 <= c <= 0xFF5E)%N.
Proof. intros H. ranges; lia. Qed.

(** No pattern of the detector can start on a code unit of plain
    Chinese prose. *)
Lemma plain_cjk_no_start c :
  plain_cjk c = true ->
  first_ok REPLACEMENT_CHAR_PATTERN c = false
  /\ first_ok QUESTION_MARK_PATTERN c = false
  /\ Forall (fun r => first_ok r c = false) HTML_ENTITY_PATTERNS
  /\ Forall (fun r => first_ok r c = false) MOJIBAKE_CHAR_PATTERNS.
Proof.
  intros H%plain_cjk_bounds.
  assert (forall a, (a < 0x3000)%N -> (c =? a)%N = false) as Hne
      by (intros a Ha; apply N.eqb_neq; lia).
  assert (forall lo hi, (hi < 0x3000)%N -> in_range lo hi c = false) as Hr.
  { intros lo hi Hhi. unfold in_range. apply andb_false_iff. right.
    apply N.leb_gt. lia. }
  assert ((c =? 0xFFFD)%N = false) as Hrep by (apply N.eqb_neq; lia).
  assert (forall a, (a < 0x2000)%N -> eq_ci a c = false) as Hci.
  { intros a Ha. unfold eq_ci.
    rewrite !Hne by lia. by rewrite !andb_false_r. }
  split; [exact Hrep|]. split; [by apply Hne|].
  split.
  - unfold HTML_ENTITY_PATTERNS.
    repeat first [apply Forall_cons_2 | apply Forall_nil_2];
      cbn; rewrite ?Hci by (vm_compute; reflexivity);
      rewrite ?Hne by (cbn; lia); reflexivity.
  - unfold MOJIBAKE_CHAR_PATTERNS.
    repeat first [apply Forall_cons_2 | apply Forall_nil_2];
      cbn; unfold latin1_lower_ci;
      rewrite ?Hne by (cbn; lia); rewrite ?Hr by (cbn; lia); reflexivity.
Qed.

Lemma count_all_none (ps : list regex) (s : jsstr) :
  Forall (fun r => count_matches r s = O) ps -> count_all ps s = O.
Proof.
  unfold count_all. generalize O at 2 3 as n.
  induction ps as [|p ps IH]; intros n Hps; simpl; [done|].
  inversion Hps as [|? ? Hp Hps']; subst. rewrite Hp, Nat.add_0_r. by apply IH.
Qed.

Lemma plain_text_counts (t : jsstr) :
  forallb plain_cjk t = true ->
  count_matches REPLACEMENT_CHAR_PATTERN t = O
  /\ count_matches QUESTION_MARK_PATTERN t = O
  /\ count_all HTML_ENTITY_PATTERNS t = O
  /\ count_all MOJIBAKE_CHAR_PATTERNS t = O.
Proof.
  intros Ht.
  assert (forall r, (forall c, plain_cjk c = true -> first_ok r c = false) ->
                    count_matches r t = O) as Hcount.
  { intros r Hr. apply JSProps.count_matches_none.
    eapply forallb_impl; [|exact Ht]. intros c Hc. by rewrite (Hr c Hc). }
  split; [|split; [|split]].
  - apply Hcount. intros c Hc. apply (plain_cjk_no_start c Hc).
  - apply Hcount. intros c Hc. apply (plain_cjk_no_start c Hc).
  - apply count_all_none, Forall_forall. intros r Hr. apply Hcount. intros c Hc.
    destruct (plain_cjk_no_start c Hc) as (_ & _ & He & _).
    by apply (proj1 (Forall_forall _ _) He).
  - apply count_all_none, Forall_forall. intros r Hr. apply Hcount. intros c Hc.
    destruct (plain_cjk_no_start c Hc) as (_ & _ & _ & Hm).
    by apply (proj1 (Forall_forall _ _) Hm).
Qed.

(** *** Runs of the replacement character *)

Lemma count_replacement_run (n : nat) :
  count_matches REPLACEMENT_CHAR_PATTERN (repeat 0xFFFD%N n) = n.
Proof.
  unfold count_matches. induction n as [|n IH]; [done|].
  cbn [repeat count_matches_from].
  assert (match_here REPLACEMENT_CHAR_PATTERN (0xFFFD%N :: repeat 0xFFFD%N n)
          = Some ([], repeat 0xFFFD%N n)) as -> by reflexivity.
  replace (length (0xFFFD%N :: repeat 0xFFFD%N n) - length (repeat 0xFFFD%N n) - 1)%nat
    with O by (cbn [length]; lia).
  by rewrite IH.
Qed.

Lemma replacement_no_start :
  first_ok QUESTION_MARK_PATTERN 0xFFFD%N = false
  /\ first_ok cjkPattern 0xFFFD%N = false
  /\ Forall (fun r => first_ok r 0xFFFD%N = false) HTML_ENTITY_PATTERNS
  /\ Forall (fun r => first_ok r 0xFFFD%N = false) MOJIBAKE_CHAR_PATTERNS.
Proof.
  split; [reflexivity|]. split; [reflexivity|].
  split; repeat first [apply Forall_cons_2 | apply Forall_nil_2]; reflexivity.
Qed.

Lemma replacement_run_counts (n : nat) :
  count_matches QUESTION_MARK_PATTERN (repeat 0xFFFD%N n) = O
  /\ count_matches cjkPattern (repeat 0xFFFD%N n) = O
  /\ count_all HTML_ENTITY_PATTERNS (repeat 0xFFFD%N n) = O
  /\ count_all MOJIBAKE_CHAR_PATTERNS (repeat 0xFFFD%N n) = O.
Proof.
  assert (forall r, first_ok r 0xFFFD%N = false ->
                    count_matches r (repeat 0xFFFD%N n) = O) as Hcount.
  { intros r Hr. apply JSProps.count_matches_none.
    induction n as [|n IH]; [done|]. cbn [repeat forallb]. by rewrite Hr, IH. }
  destruct replacement_no_start as (Hq & Hc & He & Hm).
  split; [by apply Hcount|]. split; [by apply Hcount|].
  split; apply count_all_none, Forall_forall; intros r Hr; apply Hcount.
  - by apply (proj1 (Forall_forall _ _) He).
  - by apply (proj1 (Forall_forall _ _) Hm).
Qed.

Lemma rev_run {A} (c : A) (n : nat) : rev (repeat c n) = repeat c n.
Proof.
  induction n as [|n IH]; [done|]. cbn [repeat rev]. rewrite IH.
  symmetry. apply repeat_cons.
Qed.

Lemma trim_run (c : N) (n : nat) : is_ws c = false -> trim (repeat c n) = repeat c n.
Proof.
  intros Hc.
  assert (trimStart (repeat c n) = repeat c n) as Hs.
  { destruct n as [|n]; [done|]. cbn [repeat trimStart]. by rewrite Hc. }
  unfold trim, trimEnd. by rewrite Hs, rev_run, Hs, rev_run.
Qed.

Lemma ratio_whole (n : nat) :
  (0 < n)%nat -> Qgtb (ratio n n) (1 # 100) = true.
Proof.
  intros Hn. unfold Qgtb. apply negb_true_iff.
  destruct (Qle_bool (ratio n n) (1 # 100)) eqn:Hle; [|done].
  apply Qle_bool_iff in Hle. exfalso.
  assert (ratio n n == 1)%Q as Hone.
  { unfold ratio. field. unfold Qeq. simpl. lia. }
  rewrite Hone in Hle. revert Hle. unfold Qle. simpl. lia.
Qed.

Lemma accumulate_replacement_run (n : nat) :
  (0 < n)%nat ->
  accumulate (repeat 0xFFFD%N n) = (50, [ReplacementChars n]).
Proof.
  intros Hn. destruct (replacement_run_counts n) as (Hq & Hc & He & Hm).
  unfold accumulate, signal_replacement, signal_entities, signal_mojibake,
    signal_questions, signal_cjk.
  rewrite count_replacement_run, Hq, Hc, He, Hm, repeat_length.
  destruct (Nat.ltb_spec 0 n) as [_|]; [|lia].
  rewrite (ratio_whole n Hn). reflexivity.
Qed.

Section Detector.
Variable toLowerCase : jsstr -> jsstr.

(** Plain prose raises no signal. *)
Lemma accumulate_plain (t : jsstr) :
  forallb plain_cjk t = true -> accumulate t = (0, []).
Proof.
  intros Ht. destruct (plain_text_counts t Ht) as (H1 & H2 & H3 & H4).
  unfold accumulate, signal_replacement, signal_entities, signal_mojibake,
    signal_questions, signal_cjk.
  rewrite H1, H2, H3, H4. cbn.
  by rewrite andb_false_r.
Qed.

(** On every input the verdict is the comparison of the reported score
    with the threshold. *)
Lemma isGarbled_iff_score (content : jsstr) :
  isGarbled (detectGarbledContent toLowerCase content) = true <->
  40 <= score (detectGarbledContent toLowerCase content).
Proof.
  unfold detectGarbledContent.
  destruct (_ || _); [cbn; split; [done|lia]|].
  destruct (_ <? _)%nat; [cbn; split; [done|lia]|].
  destruct (is_frameset_fallback _ _); [cbn; split; [done|lia]|].
  destruct (accumulate _) as [sc rs]. cbn. apply Z.leb_le.
Qed.

Lemma detect_empty :
  detectGarbledContent toLowerCase [] = mkDetection false true true (Some ContentEmpty) 0.
Proof. reflexivity. Qed.

Lemma detect_replacement40 :
  detectGarbledContent toLowerCase Examples.replacement40
  = mkDetection false false true (Some ContentTooShort) 0.
Proof. reflexivity. Qed.

(** From fifty replacement characters on the text is flagged; below
    fifty it is too short to be judged. *)
Lemma detect_replacement_run (n : nat) :
  let d := detectGarbledContent toLowerCase (repeat 0xFFFD%N n) in
  ((50 <= n)%nat ->
   isGarbled d = true /\ isEmpty d = false /\ needsRefetch d = true /\ 50 <= score d)
  /\ ((0 < n < 50)%nat ->
      d = mkDetection false false true (Some ContentTooShort) 0).
Proof.
  cbn zeta. unfold detectGarbledContent.
  rewrite trim_run by reflexivity. rewrite repeat_length.
  split; intros Hn.
  - destruct (Nat.eqb_spec n 0) as [|_]; [lia|]. cbn [orb].
    destruct (Nat.ltb_spec n 50) as [|_]; [lia|].
    destruct (is_frameset_fallback _ _); [cbn; repeat split; lia|].
    rewrite accumulate_replacement_run by lia. cbn. repeat split; lia.
  - destruct (Nat.eqb_spec n 0) as [|_]; [lia|]. cbn [orb].
    destruct (Nat.ltb_spec n 50) as [_|]; [done|lia].
Qed.

End Detector.

(** C9, as stated, fails on its first clause: forty replacement
    characters are below the 50-character minimum, so the detector
    answers "too short" and does not flag them. *)
Lemma replacement40_not_garbled :
  isGarbled (detectGarbledContent lower_ascii Examples.replacement40) = false
  /\ isGarbled (detectGarbledContent lower_ascii Examples.replacement40) <> true.
Proof. split; [reflexivity|discriminate]. Qed.

(** Fifty of them pass the minimum and are flagged. *)
Example replacement50_garbled :
  detectGarbledContent lower_ascii (repeat 0xFFFD%N 50)
  = mkDetection true false true (Some (Signals [ReplacementChars 50])) 50.
Proof. vm_compute. reflexivity. Qed.

(** The frames override reports the fixed score 100, although the text
    raises no signal. *)
Example frames_override :
  detectGarbledContent lower_ascii Examples.frames_text
  = mkDetection true false true (Some FramesetFallback) 100
  /\ accumulate (trim Examples.frames_text) = (0, []).
Proof. split; vm_compute; reflexivity. Qed.

(** C9 (amended). For a 40-character string of Unicode replacement
    characters the detector returns [isGarbled = false] with
    [needsRefetch = true] (the text is under the 50-character minimum),
    and so it does for every such string of 1 to 49 characters; from 50
    replacement characters on it returns [isGarbled = true], with
    [needsRefetch = true] and a score of at least 50; for the empty
    string it returns [isEmpty = true] and [isGarbled = false]; for a
    paragraph of at least 50 characters of plain Chinese prose that does
    not contain the frames boilerplate it returns [isGarbled = false];
    and for every input [isGarbled] holds exactly when the reported
    score is at least the threshold 40. *)
Theorem detectGarbledContent_classification
    (toLowerCase : jsstr -> jsstr) (paragraph : jsstr)
    (Hlen : (50 <= length (trim paragraph))%nat)
    (Hplain : forallb plain_cjk (trim paragraph) = true)
    (Hframes : is_frameset_fallback toLowerCase (trim paragraph) = false) :
  (isGarbled (detectGarbledContent toLowerCase Examples.replacement40) = false
   /\ isEmpty (detectGarbledContent toLowerCase Examples.replacement40) = false
   /\ needsRefetch (detectGarbledContent toLowerCase Examples.replacement40) = true)
  /\ (forall n, (50 <= n)%nat ->
        isGarbled (detectGarbledContent toLowerCase (repeat 0xFFFD%N n)) = true
        /\ isEmpty (detectGarbledContent toLowerCase (repeat 0xFFFD%N n)) = false
        /\ needsRefetch (detectGarbledContent toLowerCase (repeat 0xFFFD%N n)) = true
        /\ 50 <= score (detectGarbledContent toLowerCase (repeat 0xFFFD%N n)))
  /\ (forall n, (0 < n < 50)%nat ->
        detectGarbledContent toLowerCase (repeat 0xFFFD%N n)
        = mkDetection false false true (Some ContentTooShort) 0)
  /\ (isEmpty (detectGarbledContent toLowerCase []) = true
      /\ isGarbled (detectGarbledContent toLowerCase []) = false)
  /\ isGarbled (detectGarbledContent toLowerCase paragraph) = false
  /\ (forall content,
        isGarbled (detectGarbledContent toLowerCase content) = true <->
        40 <= score (detectGarbledContent toLowerCase content)).
Proof.
  split; [done|].
  split; [intros n; apply (detect_replacement_run toLowerCase n)|].
  split; [intros n; apply (detect_replacement_run toLowerCase n)|].
  split; [done|]. split; [|apply isGarbled_iff_score].
  unfold detectGarbledContent.
  destruct (_ || _); [done|].
  destruct (Nat.ltb_spec (length (trim paragraph)) 50) as [Hlt|_]; [lia|].
  rewrite Hframes, accumulate_plain by done. reflexivity.
Qed.

Lemma detectGarbledContent_classification_witness :
  isGarbled (detectGarbledContent lower_ascii Examples.paragraph500) = false
  /\ length Examples.paragraph500 = 500%nat.
Proof.
  split; [|reflexivity].
  apply (detectGarbledContent_classification lower_ascii Examples.paragraph500).
  - vm_compute. lia.
  - vm_compute. reflexivity.
  - vm_compute. reflexivity.
Defined.

End GarbledProps.

(** ** Ranking engine *)

Module EngineProps.
Import JS Types Engine JSProps.

(** *** The category prefix *)

(** A greedy class repetition that can take a whole run, and whose
    continuation succeeds right after the run, stops there. *)
Lemma rep_greedy {R} (p : N -> bool) (min : nat) (run rest : jsstr)
      (k : jsstr -> option R) (r : R) :
  forallb p run = true ->
  (min <= length run)%nat ->
  match rest with [] => True | c :: _ => p c = false end ->
  k rest = Some r ->
  rep p min (run ++ rest) k = Some r.
Proof.
  revert min. induction run as [|c run IH]; intros min Hrun Hmin Hrest Hk; simpl in *.
  - assert (min = O) as -> by lia.
    destruct rest as [|c rest]; simpl; [done|]. by rewrite Hrest.
  - apply andb_true_iff in Hrun as [Hc Hrun]. rewrite Hc.
    rewrite IH; [done|done|lia|done|done].
Qed.

Lemma rep_nil_fail {R} (p : N -> bool) (n : nat) (k : jsstr -> option R) :
  rep p (S n) [] k = None.
Proof. reflexivity. Qed.

Lemma firstn_length_diff {A} (l1 l2 : list A) :
  firstn (length (l1 ++ l2) - length l2) (l1 ++ l2) = l1.
Proof.
  rewrite length_app. replace (length l1 + length l2 - length l2)%nat with (length l1) by lia.
  by rewrite firstn_app, Nat.sub_diag, firstn_all, app_nil_r.
Qed.

(** What the expression captures on an input of the shape
    [@token sep rest]. *)
Lemma category_prefix_match (a : N) (token sep rest : jsstr) :
  is_at a = true ->
  token <> [] -> forallb not_ws token = true ->
  forallb is_ws sep = true -> (sep = [] -> rest = []) ->
  forallb is_dot rest = true ->
  match rest with [] => True | c :: _ => is_ws c = false end ->
  match_here CATEGORY_PREFIX (a :: token ++ sep ++ rest) =
  Some (match sep with
        | [] => [(1%nat, token)]
        | _ :: _ => [(2%nat, rest); (1%nat, token)]
        end, []).
Proof.
  intros Ha Htok Hnws Hsep Hsep0 Hdot Hrest.
  unfold match_here, CATEGORY_PREFIX. cbn [rmatch]. rewrite Ha.
  assert (1 <= length token)%nat as Hlen by (destruct token; [done|simpl; lia]).
  destruct sep as [|s sep].
  - rewrite (Hsep0 eq_refl), !app_nil_r.
    rewrite <- (app_nil_r token) at 1.
    erewrite rep_greedy; [reflexivity|done|done|done|].
    cbn. rewrite ?app_nil_r, Nat.sub_0_r, firstn_all. reflexivity.
  - erewrite rep_greedy; [reflexivity|done|done| |].
    + simpl in Hsep. apply andb_true_iff in Hsep as [Hs _].
      simpl. unfold not_ws. by rewrite Hs.
    + rewrite firstn_length_diff.
      erewrite (rep_greedy is_ws 1 (s :: sep) rest); [reflexivity|done|simpl; lia| |].
      * destruct rest; [done|]. done.
      * rewrite <- (app_nil_r rest) at 1.
        erewrite rep_greedy; [reflexivity|done|lia|done|].
        cbn. by rewrite ?app_nil_r, Nat.sub_0_r, firstn_all.
Qed.

(** [trimStart] leaves nothing blank in front, [trimEnd] nothing behind. *)
Lemma trimStart_head (s : jsstr) :
  match trimStart s with [] => True | c :: _ => is_ws c = false end.
Proof.
  induction s as [|c s IH]; simpl; [done|].
  destruct (is_ws c) eqn:Hc; [done|by rewrite Hc].
Qed.

Lemma trimStart_id (s : jsstr) :
  match s with [] => True | c :: _ => is_ws c = false end -> trimStart s = s.
Proof. destruct s as [|c s]; simpl; [done|]. by intros ->. Qed.

Lemma trimEnd_suffix (s x rest : jsstr) :
  trimEnd s = x ++ rest -> rest <> [] -> trimEnd rest = rest.
Proof.
  unfold trimEnd. intros Hs Hrest.
  assert (trimStart (rev s) = rev rest ++ rev x) as Hrev.
  { rewrite <- rev_app_distr, <- Hs. by rewrite rev_involutive. }
  pose proof (trimStart_head (rev s)) as Hhd. rewrite Hrev in Hhd.
  rewrite trimStart_id, rev_involutive; [done|].
  destruct (rev rest) as [|c l] eqn:Hr; [|done].
  exfalso. apply Hrest. apply (f_equal (@rev N)) in Hr. by rewrite rev_involutive in Hr.
Qed.

(** Every query whose trimmed text reads [@token], or [@token], blanks
    and a rest on one line, is a category search and parses into the
    token and the rest. *)
Lemma parseCategorySearch_shape (q : jsstr) (a : N) (token sep rest : jsstr) :
  trim q = a :: token ++ sep ++ rest ->
  is_at a = true ->
  token <> [] -> forallb not_ws token = true ->
  forallb is_ws sep = true -> (sep = [] -> rest = []) ->
  forallb is_dot rest = true ->
  match rest with [] => True | c :: _ => is_ws c = false end ->
  isCategorySearch q = true
  /\ parseCategorySearch q = mkParsed token rest.
Proof.
  intros Hq Ha Htok Hnws Hsep Hsep0 Hdot Hrest.
  unfold isCategorySearch, parseCategorySearch.
  assert (trim rest = rest) as Htrim.
  { destruct rest as [|c rest]; [done|].
    unfold trim. rewrite trimStart_id by exact Hrest.
    apply (trimEnd_suffix (trimStart q) (a :: token ++ sep)); [|done].
    fold (trim q). rewrite Hq. simpl. by rewrite <- app_assoc. }
  rewrite Hq, (category_prefix_match a token sep rest) by done.
  split; [done|].
  destruct sep as [|s sep]; cbn [cap or_empty Nat.eqb].
  - by rewrite (Hsep0 eq_refl).
  - by rewrite Htrim.
Qed.

Example parse_category_keyword :
  parseCategorySearch ([0x40; 0x670D; 0x52A1; 0x5668; 0x20]%N ++ lit "react")
  = mkParsed [0x670D; 0x52A1; 0x5668]%N (lit "react").
Proof. vm_compute. reflexivity. Qed.

Example parse_category_alone :
  parseCategorySearch [0x40; 0x670D; 0x52A1; 0x5668]%N
  = mkParsed [0x670D; 0x52A1; 0x5668]%N [].
Proof. vm_compute. reflexivity. Qed.

Lemma compareCategory_before (a b : BookmarkWithDetails) :
  before compareCategory a b <-> pinned_then_recent a b.
Proof.
  unfold before, compareCategory, pinned_then_recent.
  destruct (isPinned (base a)), (isPinned (base b)); cbn.
  - rewrite inject_Z_nonpos. split; [intros; right; split; [done|lia]|].
    intros [[_ ?]|[_ ?]]; [done|lia].
  - split; [by left|done].
  - split; [done|]. intros [[? _]|[? _]]; done.
  - rewrite inject_Z_nonpos. split; [intros; right; split; [done|lia]|].
    intros [[? _]|[_ ?]]; [done|lia].
Qed.

Lemma pinned_then_recent_total (a b : BookmarkWithDetails) :
  pinned_then_recent a b \/ pinned_then_recent b a.
Proof.
  unfold pinned_then_recent.
  destruct (isPinned (base a)), (isPinned (base b));
    destruct (Z.le_ge_cases (lastUpdated (base a)) (lastUpdated (base b))); auto;
    intuition lia.
Qed.

Lemma pinned_then_recent_trans (a b c : BookmarkWithDetails) :
  pinned_then_recent a b -> pinned_then_recent b c -> pinned_then_recent a c.
Proof.
  unfold pinned_then_recent.
  intros [[? ?]|[? ?]] [[? ?]|[? ?]];
    destruct (isPinned (base a)), (isPinned (base b)), (isPinned (base c));
    try done; first [by left | right; split; [done|lia]].
Qed.

Lemma sort_category_sorted (l : list BookmarkWithDetails) :
  StronglySorted pinned_then_recent (stable_sort compareCategory l).
Proof.
  eapply StronglySorted_weaken; [|apply (stable_sort_sorted compareCategory)].
  - intros a b. apply compareCategory_before.
  - intros a b. rewrite !compareCategory_before. apply pinned_then_recent_total.
  - intros a b c. rewrite !compareCategory_before. apply pinned_then_recent_trans.
Qed.

(** *** The category short-circuit *)

Section SearchProps.
Variable toLowerCase : jsstr -> jsstr.
Variable pinyinMatch : jsstr -> jsstr -> option bool.
Variable frecencySort : jsstr -> list FrecencyItem -> option (list FrecencyItem).

Local Abbreviation search := (Engine.search toLowerCase pinyinMatch frecencySort).
Local Abbreviation in_category := (Engine.in_category toLowerCase).

Lemma isCategorySearch_nonblank (q : jsstr) :
  isCategorySearch q = true ->
  (length q =? 0)%nat || (length (trim q) =? 0)%nat = false.
Proof.
  unfold isCategorySearch. intros Hq.
  destruct q as [|c q]; [done|]. simpl.
  destruct (trim (c :: q)); [done|done].
Qed.

Lemma search_category_only (st : EngineState) (options : SearchOptions) (token : jsstr) :
  isCategorySearch (query options) = true ->
  parseCategorySearch (query options) = mkParsed token [] ->
  search st options =
  List.map (fun b => Some (categoryResult b))
    (slice0 (default 20 (limit options))
       (stable_sort compareCategory
          (List.filter (in_category token) (searchIndex st)))).
Proof.
  intros Hcat Hparse. unfold Engine.search.
  rewrite (isCategorySearch_nonblank _ Hcat), Hcat, Hparse. reflexivity.
Qed.

(** C3 (amended). A query whose trimmed text has the shape
    [@token], or [@token], blanks and a rest, parses into category
    [token] and keyword [rest]. When the rest is empty, [search]
    returns the bookmarks whose category name equals the token
    case-insensitively, sorted pinned-first then by last update
    descending and cut to the first [limit] entries (20 by default),
    each with score 100 and match type "category"; all of them are
    returned when there are at most [limit]. No other bookmark is
    returned. *)
Theorem category_prefix_search
    (st : EngineState) (options : SearchOptions) (a : N) (token sep rest : jsstr)
    (Hq : trim (query options) = a :: token ++ sep ++ rest)
    (Ha : is_at a = true)
    (Htok : token <> []) (Hnws : forallb not_ws token = true)
    (Hsep : forallb is_ws sep = true) (Hsep0 : sep = [] -> rest = [])
    (Hdot : forallb is_dot rest = true)
    (Hrest : match rest with [] => True | c :: _ => is_ws c = false end) :
  parseCategorySearch (query options) = mkParsed token rest
  /\ (rest = [] ->
      0 <= default 20 (limit options) ->
      let members := List.filter (in_category token) (searchIndex st) in
      exists sorted,
        Permutation sorted members
        /\ StronglySorted pinned_then_recent sorted
        /\ search st options =
           List.map (fun b => Some (categoryResult b))
             (firstn (Z.to_nat (default 20 (limit options))) sorted)
        /\ (Z.of_nat (length members) <= default 20 (limit options) ->
            search st options = List.map (fun b => Some (categoryResult b)) sorted)
        /\ (forall r, In (Some r) (search st options) ->
            score r = 100%Q /\ matchType r = MT_category
            /\ in_category token (bookmark r) = true)).
Proof.
  destruct (parseCategorySearch_shape _ a token sep rest Hq Ha Htok Hnws Hsep Hsep0 Hdot Hrest)
    as [Hcat Hparse].
  split; [exact Hparse|].
  intros -> Hlim members.
  exists (stable_sort compareCategory members).
  assert (search st options =
          List.map (fun b => Some (categoryResult b))
            (firstn (Z.to_nat (default 20 (limit options)))
               (stable_sort compareCategory members))) as Hsearch.
  { rewrite (search_category_only st options token Hcat Hparse).
    unfold slice0. by destruct (Z.ltb_spec (default 20 (limit options)) 0); [lia|]. }
  split; [apply stable_sort_perm|].
  split; [apply sort_category_sorted|].
  split; [exact Hsearch|].
  split.
  - intros Hall. rewrite Hsearch. f_equal. apply firstn_all2.
    rewrite (Permutation_length (stable_sort_perm compareCategory members)). lia.
  - intros r Hr. rewrite Hsearch in Hr.
    apply in_map_iff in Hr as (b & Hb & Hin). injection Hb as <-.
    split; [done|]. split; [done|].
    apply list_elem_of_In, subseteq_take, list_elem_of_In in Hin.
    apply (Permutation_in _ (stable_sort_perm compareCategory members)) in Hin.
    by apply filter_In in Hin as [_ Hin].
Qed.

End SearchProps.

(** C3, as stated, fails on "all bookmarks": with 21 bookmarks in the
    category and the default limit of 20, one of them is not returned. *)
Lemma category_search_truncated :
  length (List.filter (Engine.in_category lower_ascii (lit "dev"))
            (searchIndex Examples.dev_state)) = 21%nat
  /\ length (Engine.search lower_ascii Examples.no_pinyin Examples.keep_order
               Examples.dev_state Examples.at_dev) = 20%nat
  /\ In (Examples.dev_bookmark 1)
        (List.filter (Engine.in_category lower_ascii (lit "dev"))
           (searchIndex Examples.dev_state))
  /\ ~ In 1 (flat_map (fun o => match o with
                               | Some r => [id (base (bookmark r))]
                               | None => []
                               end)
               (Engine.search lower_ascii Examples.no_pinyin Examples.keep_order
                  Examples.dev_state Examples.at_dev)).
Proof.
  split; [vm_compute; reflexivity|]. split; [vm_compute; reflexivity|].
  split; [vm_compute; by left|].
  vm_compute. intros H.
  repeat (destruct H as [H|H]; [discriminate|]). exact H.
Qed.

Lemma category_prefix_search_witness :
  parseCategorySearch (query Examples.at_server_react)
  = mkParsed [0x670D; 0x52A1; 0x5668]%N (lit "react").
Proof.
  refine (proj1 (category_prefix_search lower_ascii Examples.no_pinyin Examples.keep_order
                   Examples.dev_state Examples.at_server_react
                   0x40%N [0x670D; 0x52A1; 0x5668]%N [0x20%N] (lit "react")
                   _ _ _ _ _ _ _ _)).
  - vm_compute. reflexivity.
  - reflexivity.
  - discriminate.
  - reflexivity.
  - reflexivity.
  - discriminate.
  - vm_compute. reflexivity.
  - vm_compute. reflexivity.
Defined.

(** *** Phase 1: the first matching strategy *)

Lemma map_get_set_eq (k : Z) (v : SearchResult) (m : ResultMap) :
  map_get k (map_set k v m) = Some v.
Proof.
  induction m as [|[k' v'] m IH]; simpl.
  - by rewrite Z.eqb_refl.
  - destruct (Z.eqb_spec k' k) as [->|Hne]; simpl.
    + by rewrite Z.eqb_refl.
    + by destruct (Z.eqb_spec k' k).
Qed.

Lemma map_get_set_ne (k k' : Z) (v : SearchResult) (m : ResultMap) :
  k <> k' -> map_get k (map_set k' v m) = map_get k m.
Proof.
  intros Hne. induction m as [|[k0 v0] m IH]; simpl.
  - by destruct (Z.eqb_spec k' k); [congruence|].
  - destruct (Z.eqb_spec k0 k') as [->|Hne0]; simpl.
    + by destruct (Z.eqb_spec k' k); [congruence|].
    + by rewrite IH.
Qed.

Lemma map_set_keys (k : Z) (v : SearchResult) (m : ResultMap) :
  List.map fst (map_set k v m) =
  if existsb (Z.eqb k) (List.map fst m) then List.map fst m
  else List.map fst m ++ [k].
Proof.
  induction m as [|[k' v'] m IH]; simpl; [done|].
  destruct (Z.eqb_spec k' k) as [->|Hne]; simpl.
  - by rewrite Z.eqb_refl.
  - rewrite IH. destruct (Z.eqb_spec k k'); [congruence|]. simpl.
    by destruct (existsb _ _).
Qed.

Lemma map_set_NoDup (k : Z) (v : SearchResult) (m : ResultMap) :
  NoDup (List.map fst m) -> NoDup (List.map fst (map_set k v m)).
Proof.
  intros Hnd. rewrite map_set_keys.
  destruct (existsb _ _) eqn:He; [done|].
  apply NoDup_app. split; [done|]. split; [|apply NoDup_singleton].
  intros x Hx Hk. apply list_elem_of_singleton in Hk as ->.
  assert (existsb (Z.eqb k) (List.map fst m) = true); [|congruence].
  apply existsb_exists. exists k. split; [by apply list_elem_of_In|apply Z.eqb_refl].
Qed.


Section StrategyPhase.
Variable toLowerCase : jsstr -> jsstr.
Variable pinyinMatch : jsstr -> jsstr -> option bool.

Local Abbreviation strategy_matches := (Engine.strategy_matches toLowerCase pinyinMatch).
Local Abbreviation strategyLoop := (Engine.strategyLoop toLowerCase pinyinMatch).
Local Abbreviation strategyPhase := (Engine.strategyPhase toLowerCase pinyinMatch).
Local Abbreviation phase_step := (Engine.phase_step toLowerCase pinyinMatch).

(** One turn of the loop: an ineligible or non-matching strategy is
    passed over, an eligible matching one is taken. *)
Lemma strategyLoop_cons q st total b i s ss :
  strategyLoop q st total b i (s :: ss) =
  if eligible st s && strategy_matches q b s then Some (best_match b i total s)
  else strategyLoop q st total b (S i) ss.
Proof.
  unfold eligible, Engine.strategy_matches, best_match. simpl.
  destruct (bool_decide (Config.field s = Config.F_content));
    destruct (bool_decide (st = ST_fulltext));
    destruct (is_fuzzy s); simpl; try done;
    by destruct (existsb _ _).
Qed.

Lemma strategyLoop_first q st total b (ss : list Config.SearchStrategy) i0 j s :
  ss !! j = Some s ->
  eligible st s = true -> strategy_matches q b s = true ->
  (forall j' s', (j' < j)%nat -> ss !! j' = Some s' ->
                 eligible st s' && strategy_matches q b s' = false) ->
  strategyLoop q st total b i0 ss = Some (best_match b (i0 + j) total s).
Proof.
  revert i0 j. induction ss as [|s0 ss IH]; intros i0 j Hj He Hm Hfirst; [done|].
  rewrite strategyLoop_cons. destruct j as [|j]; simpl in Hj.
  - injection Hj as ->. by rewrite He, Hm, Nat.add_0_r.
  - rewrite (Hfirst O s0) by (done || lia).
    rewrite (IH (S i0) j); [|done|done|done|].
    + f_equal. f_equal. lia.
    + intros j' s' Hlt Hs'. apply (Hfirst (S j') s'); [lia|done].
Qed.

Lemma strategyLoop_none q st total b (ss : list Config.SearchStrategy) i0 :
  (forall j s, ss !! j = Some s -> eligible st s && strategy_matches q b s = false) ->
  strategyLoop q st total b i0 ss = None.
Proof.
  revert i0. induction ss as [|s0 ss IH]; intros i0 Hnone; [done|].
  rewrite strategyLoop_cons, (Hnone O s0) by done.
  apply IH. intros j s Hs. by apply (Hnone (S j) s).
Qed.

(** The loop over the bookmarks: an entry is exactly what the inner
    loop found for the bookmark of that id. *)
Lemma phase_fold_other q st ss (l : list BookmarkWithDetails) (m : ResultMap) k :
  (forall b, In b l -> id (base b) <> k) ->
  map_get k (fold_left (phase_step q st ss) l m) = map_get k m.
Proof.
  revert m. induction l as [|a l IH]; intros m Hk; simpl; [done|].
  rewrite IH by (intros b Hb; apply Hk; by right).
  unfold phase_step. destruct (strategyLoop _ _ _ _ _ _); [|done].
  apply map_get_set_ne. intros Heq. by apply (Hk a); [left|].
Qed.

Lemma phase_fold_get q st ss (l : list BookmarkWithDetails) (m : ResultMap) b :
  NoDup (List.map (fun b => id (base b)) l) -> In b l ->
  map_get (id (base b)) (fold_left (phase_step q st ss) l m) =
  match strategyLoop q st (length ss) b O ss with
  | Some r => Some r
  | None => map_get (id (base b)) m
  end.
Proof.
  revert m. induction l as [|a l IH]; intros m Hnd Hb; [done|].
  simpl in Hnd. inversion Hnd as [|? ? Hnotin Hnd']; subst.
  simpl. destruct Hb as [->|Hb].
  - rewrite phase_fold_other.
    + unfold phase_step. destruct (strategyLoop _ _ _ _ _ _); [|done].
      apply map_get_set_eq.
    + intros b' Hb' Heq. apply Hnotin.
      apply list_elem_of_In, in_map_iff. by exists b'.
  - rewrite IH by done.
    destruct (strategyLoop q st (length ss) b 0 ss); [done|].
    unfold phase_step. destruct (strategyLoop _ _ _ a _ _); [|done].
    apply map_get_set_ne. intros Heq. apply Hnotin.
    apply list_elem_of_In, in_map_iff. by exists b.
Qed.

Lemma phase_fold_NoDup q st ss (l : list BookmarkWithDetails) (m : ResultMap) :
  NoDup (List.map fst m) ->
  NoDup (List.map fst (fold_left (phase_step q st ss) l m)).
Proof.
  revert m. induction l as [|a l IH]; intros m Hm; simpl; [done|].
  apply IH. unfold phase_step. destruct (strategyLoop _ _ _ _ _ _); [|done].
  by apply map_set_NoDup.
Qed.

(** C1. In the strategy phase a bookmark of the candidate set gets the
    result of the first enabled strategy, in priority order, that is
    eligible (not fuzzy; a content strategy only in full-text mode) and
    whose field-text set holds a value that satisfies its match mode:
    the score is [calculateScore] of that strategy's position among
    the enabled strategies and of their number. A bookmark that no such
    strategy matches gets no result, and no bookmark has more than one
    result. *)
Theorem strategy_phase_first_match
    (q : jsstr) (st : SearchType) (strategies : list Config.SearchStrategy)
    (index : list BookmarkWithDetails) (b : BookmarkWithDetails)
    (Hids : NoDup (List.map (fun b => id (base b)) index))
    (Hb : In b index) :
  let enabledStrategies := Config.getEnabledStrategies strategies in
  let results := strategyPhase q st enabledStrategies index in
  NoDup (List.map fst results)
  /\ (forall i s,
        enabledStrategies !! i = Some s ->
        eligible st s = true -> strategy_matches q b s = true ->
        (forall j s', (j < i)%nat -> enabledStrategies !! j = Some s' ->
                      eligible st s' && strategy_matches q b s' = false) ->
        map_get (id (base b)) results =
        Some (mkResult b
                (Config.calculateScore (Z.of_nat i) (Z.of_nat (length enabledStrategies)))
                (fieldToMatchType (Config.field s) (Config.matchType s))
                (MF_field (Config.field s))))
  /\ ((forall i s, enabledStrategies !! i = Some s ->
                   eligible st s && strategy_matches q b s = false) ->
      map_get (id (base b)) results = None).
Proof.
  intros enabledStrategies results.
  assert (results = fold_left (phase_step q st enabledStrategies) index []) as -> by done.
  split; [apply phase_fold_NoDup; constructor|]. split.
  - intros i s Hi He Hm Hfirst.
    rewrite phase_fold_get by done.
    by rewrite (strategyLoop_first q st _ b enabledStrategies O i s Hi He Hm Hfirst).
  - intros Hnone. rewrite phase_fold_get by done.
    by rewrite strategyLoop_none.
Qed.

End StrategyPhase.

Lemma strategy_phase_first_match_witness :
  map_get 1 (Engine.strategyPhase lower_ascii Examples.no_pinyin (lit "react") ST_default
               (Config.getEnabledStrategies (activeStrategies Examples.abc_state))
               Examples.abc_index)
  = Some (mkResult Examples.bmA (Config.calculateScore 0 2) MT_exact
            (MF_field Config.F_title)).
Proof.
  refine (proj1 (proj2 (strategy_phase_first_match lower_ascii Examples.no_pinyin
                          (lit "react") ST_default (activeStrategies Examples.abc_state)
                          Examples.abc_index Examples.bmA _ _))
            O (Config.mkStrategy "title_exact" Config.F_title Config.exact true
                 "Title (Case-insensitive)" "标题（忽略大小写）") _ _ _ _).
  - apply (bool_decide_unpack _). vm_compute. reflexivity.
  - by left.
  - vm_compute. reflexivity.
  - vm_compute. reflexivity.
  - vm_compute. reflexivity.
  - intros j s' Hj. lia.
Defined.

(** *** Phase 2: the fuzzy hits *)

Lemma max_denominator_pos (t : Z) : (0 < inject_Z (Z.max 1 (t - 1)))%Q.
Proof. unfold Qlt. simpl. lia. Qed.

(** A later position never scores higher. *)
Lemma calculateScore_antitone (i j t : Z) :
  i <= j -> (Config.calculateScore j t <= Config.calculateScore i t)%Q.
Proof.
  intros Hij. unfold Config.calculateScore.
  pose proof (max_denominator_pos t) as Hm.
  set (m := inject_Z (Z.max 1 (t - 1))) in *.
  assert (inject_Z i / m <= inject_Z j / m)%Q as Hdiv.
  { unfold Qdiv. apply Qmult_le_compat_r; [by rewrite <- Zle_Qle|].
    apply Qlt_le_weak, Qinv_lt_0_compat, Hm. }
  lra.
Qed.

(** Every position of the list scores at least 40. *)
Lemma calculateScore_floor (i t : Z) :
  0 <= i < t -> (40 <= Config.calculateScore i t)%Q.
Proof.
  intros Hi. unfold Config.calculateScore.
  pose proof (max_denominator_pos t) as Hm.
  set (m := inject_Z (Z.max 1 (t - 1))) in *.
  assert (inject_Z i / m <= 1)%Q as Hdiv.
  { apply Qle_shift_div_r; [exact Hm|]. rewrite Qmult_1_l. unfold m.
    rewrite <- Zle_Qle. lia. }
  lra.
Qed.

Lemma findIndex_lt {A} (p : A -> bool) (l : list A) (i : nat) :
  findIndex p l = Some i -> (i < length l)%nat.
Proof.
  revert i. induction l as [|x l IH]; intros i; simpl; [done|].
  destruct (p x); [intros [= <-]; lia|].
  destruct (findIndex p l) as [j|]; [|done]. intros [= <-].
  specialize (IH j eq_refl). lia.
Qed.

Lemma fuzzyBaseScore_nonneg (enabledStrategies : list Config.SearchStrategy) :
  (0 <= fuzzyBaseScore enabledStrategies)%Q.
Proof.
  unfold fuzzyBaseScore. destruct (findIndex _ _) as [i|] eqn:Hi; [|done].
  apply findIndex_lt in Hi.
  pose proof (calculateScore_floor (Z.of_nat i) (Z.of_nat (length enabledStrategies))) as H.
  assert (40 <= Config.calculateScore (Z.of_nat i) (Z.of_nat (length enabledStrategies)))%Q
    by (apply H; lia).
  lra.
Qed.

(** A hit never scores above the base score, and a closer hit never
    scores below a farther one. *)
Lemma adjustedScore_le_base (base_score : Q) (r : FuseResult) :
  (0 <= base_score)%Q -> (0 <= hit_score r)%Q ->
  (adjustedScore base_score r <= base_score)%Q.
Proof.
  intros Hb Hs. unfold adjustedScore.
  assert (0 <= base_score * hit_score r)%Q by (by apply Qmult_le_0_compat).
  lra.
Qed.

Lemma adjustedScore_antitone (base_score : Q) (r1 r2 : FuseResult) :
  (0 <= base_score)%Q -> (hit_score r1 <= hit_score r2)%Q ->
  (adjustedScore base_score r2 <= adjustedScore base_score r1)%Q.
Proof.
  intros Hb Hs. unfold adjustedScore.
  assert (0 <= base_score * (hit_score r2 - hit_score r1))%Q
    by (apply Qmult_le_0_compat; lra).
  lra.
Qed.


Lemma add_fuzzy_keeps base_score (hits : list FuseResult) (m : ResultMap) k r :
  map_get k m = Some r -> map_get k (fold_left (add_fuzzy base_score) hits m) = Some r.
Proof.
  revert m. induction hits as [|h hits IH]; intros m Hk; simpl; [done|].
  apply IH. unfold add_fuzzy, map_has.
  destruct (map_get (id (base (item h))) m) eqn:Hh; simpl; [done|].
  rewrite map_get_set_ne; [done|]. intros ->. congruence.
Qed.

Lemma add_fuzzy_new base_score (hits : list FuseResult) (m : ResultMap) k r :
  map_get k (fold_left (add_fuzzy base_score) hits m) = Some r ->
  map_get k m = None ->
  exists hit, In hit hits /\ id (base (item hit)) = k
              /\ r = mkResult (item hit) (adjustedScore base_score hit) MT_fuzzy MF_fuzzy.
Proof.
  revert m. induction hits as [|h hits IH]; intros m Hr Hm; simpl in *; [congruence|].
  destruct (map_get k (add_fuzzy base_score m h)) as [r0|] eqn:Hk.
  - rewrite (add_fuzzy_keeps _ _ _ _ _ Hk) in Hr. injection Hr as <-.
    exists h. split; [by left|].
    unfold add_fuzzy, map_has in Hk.
    destruct (map_get (id (base (item h))) m) eqn:Hh; simpl in Hk; [congruence|].
    destruct (Z.eq_dec k (id (base (item h)))) as [->|Hne].
    + rewrite map_get_set_eq in Hk. by injection Hk as <-.
    + rewrite map_get_set_ne in Hk by done. congruence.
  - destruct (IH _ Hr Hk) as (hit & Hin & Hid & Hres).
    exists hit. split; [by right|done].
Qed.






(** *** Fuzzy hits against the results of phase 1 *)

Section PhaseOrder.
Variable toLowerCase : jsstr -> jsstr.
Variable pinyinMatch : jsstr -> jsstr -> option bool.

Local Abbreviation strategy_matches := (Engine.strategy_matches toLowerCase pinyinMatch).
Local Abbreviation strategyLoop := (Engine.strategyLoop toLowerCase pinyinMatch).
Local Abbreviation strategyPhase := (Engine.strategyPhase toLowerCase pinyinMatch).
Local Abbreviation phase_step := (Engine.phase_step toLowerCase pinyinMatch).

Lemma strategyLoop_some q st total b (ss : list Config.SearchStrategy) i0 r :
  strategyLoop q st total b i0 ss = Some r ->
  exists j s, ss !! j = Some s /\ eligible st s = true /\ strategy_matches q b s = true
              /\ r = best_match b (i0 + j) total s.
Proof.
  revert i0. induction ss as [|s0 ss IH]; intros i0; [done|].
  rewrite strategyLoop_cons.
  destruct (eligible st s0 && strategy_matches q b s0) eqn:Hs0.
  - intros [= <-]. apply andb_true_iff in Hs0 as [He Hm].
    exists O, s0. by rewrite Nat.add_0_r.
  - intros (j & s & Hj & He & Hm & ->)%IH.
    exists (S j), s. repeat split; try done. f_equal. lia.
Qed.

(** Every entry of phase 1 is the [bestMatch] of some enabled strategy
    at its position. *)
Lemma strategy_phase_entry q st ss (l : list BookmarkWithDetails) (m : ResultMap) k r :
  map_get k (fold_left (phase_step q st ss) l m) = Some r ->
  map_get k m = Some r
  \/ exists b i s, In b l /\ ss !! i = Some s /\ r = best_match b i (length ss) s.
Proof.
  revert m. induction l as [|a l IH]; intros m; simpl; [by left|].
  intros [Hm|(b & i & s & Hb & Hs & ->)]%IH.
  - unfold Engine.phase_step in Hm.
    destruct (strategyLoop q st (length ss) a 0 ss) as [r0|] eqn:Hloop; [|by left].
    destruct (Z.eq_dec k (id (base a))) as [->|Hne].
    + rewrite map_get_set_eq in Hm. injection Hm as <-.
      apply strategyLoop_some in Hloop as (j & s & Hj & _ & _ & ->).
      right. exists a, j, s. split; [by left|done].
    + rewrite map_get_set_ne in Hm by done. by left.
  - right. exists b, i, s. split; [by right|done].
Qed.

(** A fuzzy hit never outranks a result that phase 1 scored from a
    strategy placed before the (first) enabled fuzzy strategy. *)
Corollary fuzzy_hit_below_prior_strategy
    (fuse : option (jsstr -> Z -> list FuseResult)) (q : jsstr) (st : SearchType)
    (limit : Z) (ss : list Config.SearchStrategy) (index : list BookmarkWithDetails)
    (k k' : Z) (r r' : SearchResult) (b : BookmarkWithDetails) (i fuzzyIndex : nat)
    (s : Config.SearchStrategy) :
  let results := strategyPhase q st ss index in
  (forall f hit, fuse = Some f ->
     In hit (f q (limit - Z.of_nat (length results))) -> (0 <= hit_score hit)%Q) ->
  map_get k results = Some r -> r = best_match b i (length ss) s ->
  findIndex is_fuzzy ss = Some fuzzyIndex -> (i <= fuzzyIndex)%nat ->
  map_get k' (fuzzyPhase fuse q limit ss results) = Some r' ->
  map_get k' results = None ->
  (score r' <= score r)%Q.
Proof.
  intros results Hscore Hr -> Hfi Hi Hr' Hnew. cbn [best_match score].
  unfold fuzzyPhase in Hr'. destruct fuse as [f|]; [|congruence].
  destruct (_ && _ && _); [|congruence].
  destruct (add_fuzzy_new _ _ _ _ _ Hr' Hnew) as (hit & Hin & _ & ->). cbn [score].
  eapply Qle_trans.
  { apply adjustedScore_le_base; [apply fuzzyBaseScore_nonneg|by eapply Hscore]. }
  unfold fuzzyBaseScore. rewrite Hfi. apply calculateScore_antitone. lia.
Qed.

End PhaseOrder.

(** *** The final order: pinned results first *)

Lemma StronglySorted_lookup {A} (R : A -> A -> Prop) (l : list A) i j a b :
  StronglySorted R l -> (i < j)%nat -> l !! i = Some a -> l !! j = Some b -> R a b.
Proof.
  intros Hl. revert i j. induction Hl as [|x l Hl IH Hx]; intros i j Hij Hi Hj; [done|].
  destruct j as [|j]; [lia|]. simpl in Hj. destruct i as [|i]; simpl in Hi.
  - injection Hi as <-. apply (proj1 (Forall_forall _ _) Hx).
    apply list_elem_of_lookup. by exists j.
  - apply (IH i j); [lia|done|done].
Qed.

Lemma slice0_prefix {A} (limit : Z) (l : list A) : exists n, slice0 limit l = firstn n l.
Proof. unfold slice0. destruct (limit <? 0); eauto. Qed.

Section FinalOrder.
Variable toLowerCase : jsstr -> jsstr.
Variable pinyinMatch : jsstr -> jsstr -> option bool.
Variable frecencySort : jsstr -> list FrecencyItem -> option (list FrecencyItem).

Local Abbreviation search := (Engine.search toLowerCase pinyinMatch frecencySort).
Local Abbreviation sortByFrecency := (Engine.sortByFrecency toLowerCase frecencySort).

(** Whatever the frecency library answers, a result that
    [sortByFrecency] hands back is one of the results it was given. *)
Lemma sortByFrecency_from_input (q : jsstr) (results : list SearchResult) (r : SearchResult) :
  In (Some r) (sortByFrecency q results) -> In r results.
Proof.
  unfold Engine.sortByFrecency.
  assert (In (Some r) (List.map Some results) -> In r results) as Hsame.
  { intros (r' & [= ->] & Hin)%in_map_iff. exact Hin. }
  destruct (_ || _); [exact Hsame|].
  destruct (frecencySort _ _) as [sorted|]; [|exact Hsame].
  intros (it & Hnth & _)%in_map_iff. by eapply nth_error_In.
Qed.

(** The two shapes of a result list: the category short-circuit, and
    the pinned partition followed by the frecency-ordered rest. *)
Lemma search_shape (st : EngineState) (options : SearchOptions) :
  (exists n l, search st options =
               List.map (fun b => Some (categoryResult b))
                 (firstn n (stable_sort compareCategory l)))
  \/ (exists q' sortedResults,
        search st options =
        List.map Some (List.filter (fun r => isPinned (base (bookmark r))) sortedResults)
        ++ sortByFrecency q'
             (List.filter (fun r => negb (isPinned (base (bookmark r)))) sortedResults)).
Proof.
  unfold Engine.search.
  destruct (_ || _).
  - left. by exists O, [].
  - destruct (isCategorySearch (query options) && _).
    + left. destruct (slice0_prefix (default 20 (limit options))
                        (stable_sort compareCategory
                           (if isCategorySearch (query options)
                            then List.filter
                                   (in_category toLowerCase
                                      (p_category (parseCategorySearch (query options))))
                                   (searchIndex st)
                            else searchIndex st))) as [n ->].
      eauto.
    + right. eauto.
Qed.

(** C2. In every result list of [search] every pinned result stands
    before every non-pinned result, whatever the scores are and
    whatever the frecency library answers: only the non-pinned
    partition goes through [sortByFrecency], and it is appended to the
    pinned partition. *)
Theorem pinned_results_first
    (st : EngineState) (options : SearchOptions) (i j : nat) (a b : SearchResult) :
  search st options !! i = Some (Some a) ->
  isPinned (base (bookmark a)) = true ->
  search st options !! j = Some (Some b) ->
  isPinned (base (bookmark b)) = false ->
  (i < j)%nat.
Proof.
  intros Hi Ha Hj Hb.
  destruct (Nat.lt_ge_cases i j) as [|Hji]; [done|exfalso].
  assert (i <> j) as Hne by (intros ->; congruence).
  assert (j < i)%nat as Hlt by lia. clear Hji Hne.
  destruct (search_shape st options) as [(n & l & Hs)|(q' & sorted & Hs)];
    rewrite Hs in Hi, Hj; clear Hs.
  - rewrite list_lookup_fmap in Hi, Hj.
    destruct (firstn n (stable_sort compareCategory l) !! i) as [x|] eqn:Hx; [|done].
    destruct (firstn n (stable_sort compareCategory l) !! j) as [y|] eqn:Hy; [|done].
    injection Hi as <-. injection Hj as <-. cbn in Ha, Hb.
    assert (pinned_then_recent y x) as Hyx.
    { apply (StronglySorted_lookup _ (stable_sort compareCategory l) j i); [|done| |].
      - apply sort_category_sorted.
      - apply lookup_take_Some in Hy. tauto.
      - apply lookup_take_Some in Hx. tauto. }
    destruct Hyx as [[? ?]|[? ?]]; congruence.
  - set (pinned := List.filter _ sorted) in *.
    set (normal := List.filter _ sorted) in *.
    destruct (Nat.lt_ge_cases i (length (List.map Some pinned))) as [Hip|Hip].
    + rewrite lookup_app_l in Hj by lia.
      rewrite list_lookup_fmap in Hj.
      destruct (pinned !! j) as [y|] eqn:Hy; [|done]. injection Hj as <-.
      apply list_elem_of_lookup_2, list_elem_of_In, filter_In in Hy as [_ Hy]. congruence.
    + rewrite lookup_app_r in Hi by done.
      apply list_elem_of_lookup_2, list_elem_of_In, sortByFrecency_from_input in Hi.
      apply filter_In in Hi as [_ Hi]. rewrite Ha in Hi. done.
Qed.

End FinalOrder.

Lemma pinned_results_first_witness :
  Engine.search lower_ascii Examples.no_pinyin Examples.keep_order
    Examples.abc_state Examples.react
  = [Some (mkResult Examples.bmB (Config.calculateScore 0 2) MT_exact (MF_field Config.F_title));
     Some (mkResult Examples.bmA (Config.calculateScore 0 2) MT_exact (MF_field Config.F_title));
     Some (mkResult Examples.bmC (Config.calculateScore 1 2) MT_exact (MF_field Config.F_url))]
  /\ (0 < 1)%nat.
Proof.
  split; [vm_compute; reflexivity|].
  apply (pinned_results_first lower_ascii Examples.no_pinyin Examples.keep_order
           Examples.abc_state Examples.react 0 1
           (mkResult Examples.bmB (Config.calculateScore 0 2) MT_exact (MF_field Config.F_title))
           (mkResult Examples.bmA (Config.calculateScore 0 2) MT_exact (MF_field Config.F_title))).
  - vm_compute. reflexivity.
  - reflexivity.
  - vm_compute. reflexivity.
  - reflexivity.
Defined.

End EngineProps.

(** ** Enrichment queue *)

Module QueueProps.
Import JS Types Store Queue JSProps.

(** *** Frame rules of the monad *)

Section Frame.
Variable P : World -> World -> Prop.
Hypothesis P_refl : forall w, P w w.
Hypothesis P_trans : forall w1 w2 w3, P w1 w2 -> P w2 w3 -> P w1 w3.

Lemma respects_ret {A} (a : A) : respects P (ret a).
Proof. intros w. apply P_refl. Qed.

Lemma respects_throw {A} (e : jsstr) : respects P (@throw A e).
Proof. intros w. apply P_refl. Qed.

Lemma respects_lift {A} (o : Outcome A) : respects P (lift o).
Proof. intros w. apply P_refl. Qed.

Lemma respects_query {A} (q : DB -> A) : respects P (query_db q).
Proof. intros w. apply P_refl. Qed.

Lemma respects_bind {A B} (m : M A) (k : A -> M B) :
  respects P m -> (forall a, respects P (k a)) -> respects P (bind m k).
Proof.
  intros Hm Hk w. unfold bind. specialize (Hm w).
  destruct (m w) as [[a|e] w']; simpl in *; [|done].
  eapply P_trans; [exact Hm|apply Hk].
Qed.

Lemma respects_try_catch {A} (m : M A) (h : jsstr -> M A) :
  respects P m -> (forall e, respects P (h e)) -> respects P (try_catch m h).
Proof.
  intros Hm Hh w. unfold try_catch. specialize (Hm w).
  destruct (m w) as [[a|e] w']; simpl in *; [done|].
  eapply P_trans; [exact Hm|apply Hh].
Qed.

Lemma respects_for_each {A} (l : list A) (body : A -> M unit) :
  (forall x, In x l -> respects P (body x)) -> respects P (for_each l body).
Proof.
  induction l as [|x l IH]; intros Hbody; simpl; [apply respects_ret|].
  apply respects_bind; [apply Hbody; by left|].
  intros _. apply IH. intros y Hy. apply Hbody. by right.
Qed.

Lemma respects_fold_each {A S} (l : list A) (body : S -> A -> M S) (s : S) :
  (forall s x, In x l -> respects P (body s x)) -> respects P (fold_each l body s).
Proof.
  revert s. induction l as [|x l IH]; intros s Hbody; simpl; [apply respects_ret|].
  apply respects_bind; [apply Hbody; by left|].
  intros s'. apply IH. intros s0 y Hy. apply Hbody. by right.
Qed.

Lemma respects_execute (stmt : DB -> DB) :
  (forall w, P w (with_db (stmt (db w)) w)) -> respects P (execute stmt).
Proof. intros H w. apply H. Qed.

Lemma respects_execute_checked {A} (stmt : DB -> Outcome A * DB) :
  (forall w, P w (with_db (stmt (db w)).2 w)) -> respects P (execute_checked stmt).
Proof.
  intros H w. unfold execute_checked. specialize (H w).
  by destruct (stmt (db w)).
Qed.
End Frame.

(** *** The statements leave the retry counter alone *)

Lemma same_retry_refl w : same_retry w w.
Proof. done. Qed.

Lemma same_retry_trans w1 w2 w3 : same_retry w1 w2 -> same_retry w2 w3 -> same_retry w1 w3.
Proof. unfold same_retry. congruence. Qed.

Lemma update_keeps_retry (p : Bookmark -> bool) (f : Bookmark -> Bookmark) (w : World) :
  (forall b, id (f b) = id b /\ retryCount (f b) = retryCount b) ->
  same_retry w (with_db (update_bookmarks p f (db w)) w).
Proof.
  intros Hf. unfold same_retry. simpl. rewrite map_map.
  apply map_ext. intros b. destruct (p b); [|done].
  by destruct (Hf b) as [-> ->].
Qed.

Lemma bookmarks_kept_retry (stmt : DB -> DB) (w : World) :
  bookmarks (stmt (db w)) = bookmarks (db w) ->
  same_retry w (with_db (stmt (db w)) w).
Proof. intros H. unfold same_retry. simpl. by rewrite H. Qed.

Lemma INSERT_SUMMARY_bookmarks s d : bookmarks (INSERT_SUMMARY s d).2 = bookmarks d.
Proof. unfold INSERT_SUMMARY. by destruct (existsb _ _). Qed.

Lemma INSERT_TAG_bookmarks n d : bookmarks (INSERT_TAG n d) = bookmarks d.
Proof. unfold INSERT_TAG. by destruct (existsb _ _). Qed.

Lemma ADD_BOOKMARK_TAG_bookmarks l d : bookmarks (ADD_BOOKMARK_TAG l d) = bookmarks d.
Proof. unfold ADD_BOOKMARK_TAG. by destruct (existsb _ _). Qed.

Section Repositories.
Variable env : Env.

(** The tag and log writes, and the summary insert, keep any relation
    that only looks at the bookmark rows. *)
Section AnyFrame.
Variable P : World -> World -> Prop.
Hypothesis P_refl : forall w, P w w.
Hypothesis P_trans : forall w1 w2 w3, P w1 w2 -> P w2 w3 -> P w1 w3.
Hypothesis P_rows : forall w d, bookmarks d = bookmarks (db w) -> P w (with_db d w).

Lemma respects_save_tag b conf n : respects P (save_tag env b conf n).
Proof.
  unfold save_tag, TagRepository_findOrCreate, TagRepository_addToBookmark.
  apply respects_bind; [done| |].
  - apply respects_bind; [done|by apply respects_query|].
    intros [t|]; [by apply respects_ret|].
    apply respects_bind; [done| |intros; by apply respects_query].
    apply respects_execute. intros w. apply P_rows, INSERT_TAG_bookmarks.
  - intros tagId. apply respects_execute. intros w.
    apply P_rows, ADD_BOOKMARK_TAG_bookmarks.
Qed.

Lemma respects_log e : respects P (SyncLogRepository_create e).
Proof. apply respects_execute. intros w. by apply P_rows. Qed.

Lemma respects_create_summary s : respects P (AISummaryRepository_create s).
Proof.
  apply respects_execute_checked. intros w. apply P_rows, INSERT_SUMMARY_bookmarks.
Qed.

(** [summarizeBookmark] keeps [P] as soon as its two updates of the
    bookmark's own row do. *)
Lemma respects_summarizeBookmark (b : Bookmark) :
  (forall s err, respects P (updateStatus env (id b) s err)) ->
  (forall c h, respects P (updateContent env (id b) c h)) ->
  respects P (summarizeBookmark env b).
Proof.
  intros Hstatus Hcontent. unfold summarizeBookmark.
  apply respects_try_catch; [done| |].
  - unfold summarize_steps.
    apply respects_bind; [done|apply Hstatus|intros _].
    apply respects_bind; [done| |intros ai].
    { destruct (getActiveAIService env); [by apply respects_ret|by apply respects_throw]. }
    apply respects_bind; [done| |intros content].
    { destruct (truthy_str (pageContent b)); [by apply respects_ret|].
      destruct (truthy_str (fetchPageContentSmart env (url b))); [|by apply respects_ret].
      apply respects_bind; [done|apply Hcontent|intros; by apply respects_ret]. }
    apply respects_bind; [done|by apply respects_lift|intros result].
    apply respects_bind; [done|apply respects_create_summary|intros _].
    apply respects_bind; [done| |intros _].
    { apply respects_for_each; [done..|]. intros n _. apply respects_save_tag. }
    apply respects_bind; [done| |intros _].
    { apply respects_for_each; [done..|]. intros n _.
      destruct (negb _); [apply respects_save_tag|by apply respects_ret]. }
    apply respects_bind; [done|apply Hstatus|intros _].
    apply respects_bind; [done|apply respects_log|intros _].
    by apply respects_ret.
  - intros e. unfold summarize_failed.
    apply respects_bind; [done|apply Hstatus|intros _].
    apply respects_bind; [done|apply respects_log|intros _].
    by apply respects_ret.
Qed.
End AnyFrame.

(** No step of [summarizeBookmark], on success or on failure, writes
    [retry_count]. *)
Lemma summarizeBookmark_same_retry (b : Bookmark) :
  respects same_retry (summarizeBookmark env b).
Proof.
  apply respects_summarizeBookmark.
  - apply same_retry_refl.
  - apply same_retry_trans.
  - intros w d Hd. unfold same_retry. simpl. by rewrite Hd.
  - intros s err. apply respects_execute. intros w. by apply update_keeps_retry.
  - intros c h. apply respects_execute. intros w. by apply update_keeps_retry.
Qed.

End Repositories.

(** C6 (the code at the failing input). A bookmark stored with
    [retryCount = 1] whose summarization fails ends [pending] with its
    stored [retryCount] still 1, not 2; with [retryCount = 2] it ends
    [failed], the counter still 2. *)
Theorem failure_leaves_retry_count :
  bookmarks (db (summarizeBookmark Examples.env_down Examples.once_failed
                   (Examples.world_of [Examples.once_failed])).2)
  = [mkBookmark 1 None (lit "https://example.org/a") (lit "A page") None None None
       pending (Some (lit "Error: network timeout")) 1 None None false 100 None None 1000]
  /\ bookmarks (db (summarizeBookmark Examples.env_down Examples.twice_failed
                      (Examples.world_of [Examples.twice_failed])).2)
     = [mkBookmark 1 None (lit "https://example.org/a") (lit "A page") None None None
          failed (Some (lit "Error: network timeout")) 2 None None false 100 None None 1000].
Proof. split; vm_compute; reflexivity. Qed.

(** *** The recovery pass *)

Lemma only_touches_refl T w : only_touches T w w.
Proof. unfold only_touches. induction (bookmarks (db w)); constructor; auto. Qed.

Lemma only_touches_trans T w1 w2 w3 :
  only_touches T w1 w2 -> only_touches T w2 w3 -> only_touches T w1 w3.
Proof.
  unfold only_touches. generalize (bookmarks (db w1)), (bookmarks (db w2)), (bookmarks (db w3)).
  intros l1 l2 l3 H12. revert l3.
  induction H12 as [|r1 r2 l1 l2 [Hid H] H12 IH]; intros l3 H23;
    inversion H23 as [|? r3 ? l3' [Hid' H'] H23']; subst; constructor.
  - split; [congruence|]. intros Hn. rewrite (H Hn). apply H'. by rewrite <- Hid.
  - by apply IH.
Qed.

Lemma only_touches_same_rows T w w' :
  bookmarks (db w') = bookmarks (db w) -> only_touches T w w'.
Proof. unfold only_touches. intros ->. apply only_touches_refl. Qed.

Lemma only_touches_update T (i : Z) (f : Bookmark -> Bookmark) (w : World) :
  In i T -> (forall b, id (f b) = id b) ->
  only_touches T w (with_db (update_bookmarks (has_id i) f (db w)) w).
Proof.
  intros Hi Hf. unfold only_touches. simpl.
  induction (bookmarks (db w)) as [|r l IH]; simpl; constructor; [|exact IH].
  unfold has_id. destruct (Z.eqb_spec (id r) i) as [Heq|Hne]; [|done].
  split; [by rewrite Hf|]. intros Hn. by rewrite Heq in Hn.
Qed.

Lemma only_touches_ids T w w' :
  only_touches T w w' ->
  List.map id (bookmarks (db w')) = List.map id (bookmarks (db w)).
Proof.
  unfold only_touches. induction 1 as [|r r' l l' [Hid _] _ IH]; simpl; [done|].
  by rewrite IH, Hid.
Qed.

Lemma only_touches_In T w w' (b : Bookmark) :
  only_touches T w w' -> In b (bookmarks (db w)) -> ~ In (id b) T ->
  In b (bookmarks (db w')).
Proof.
  unfold only_touches. induction 1 as [|r r' l l' [_ Hr] _ IH]; simpl; [done|].
  intros [->|Hb] Hn; [left; symmetry; by apply Hr|right; by apply IH].
Qed.

Lemma pending_rows_In (limit : nat) (d : DB) (p : Bookmark) :
  In p (GET_BOOKMARKS_PENDING limit d) -> In p (bookmarks d) /\ pending_row p = true.
Proof.
  unfold GET_BOOKMARKS_PENDING. intros Hp.
  apply list_elem_of_In, subseteq_take, list_elem_of_In in Hp.
  apply (Permutation_in _ (stable_sort_perm _ _)) in Hp.
  by apply filter_In in Hp.
Qed.

(** The chunk fetch answers rows that satisfy its [WHERE] clause, at
    most [limit] of them, oldest-created first. *)
Lemma pending_rows_sorted (limit : nat) (d : DB) :
  Forall (fun p => pending_row p = true) (GET_BOOKMARKS_PENDING limit d)
  /\ (length (GET_BOOKMARKS_PENDING limit d) <= limit)%nat
  /\ StronglySorted (fun a b => createdAt a <= createdAt b) (GET_BOOKMARKS_PENDING limit d).
Proof.
  split; [|split].
  - apply Forall_forall. intros p Hp. apply list_elem_of_In in Hp.
    by apply pending_rows_In in Hp as [_ Hp].
  - unfold GET_BOOKMARKS_PENDING. rewrite length_take. lia.
  - unfold GET_BOOKMARKS_PENDING.
    set (cmp := fun a b : Bookmark => inject_Z (createdAt a - createdAt b)).
    assert (forall a b, before cmp a b <-> createdAt a <= createdAt b) as Hb.
    { intros a b. unfold before, cmp. rewrite inject_Z_nonpos. lia. }
    assert (StronglySorted (fun a b => createdAt a <= createdAt b)
              (stable_sort cmp (List.filter pending_row (bookmarks d)))) as Hs.
    { eapply StronglySorted_weaken; [intros a b; apply Hb|].
      apply stable_sort_sorted.
      - intros a b. rewrite !Hb. lia.
      - intros a b c. rewrite !Hb. lia. }
    by apply StronglySorted_take.
Qed.

Section Recovery.
Variable env : Env.

Lemma summarizeBookmark_touches T (b : Bookmark) :
  In (id b) T -> respects (only_touches T) (summarizeBookmark env b).
Proof.
  intros Hb. apply respects_summarizeBookmark.
  - apply only_touches_refl.
  - apply only_touches_trans.
  - intros w d Hd. by apply only_touches_same_rows.
  - intros s err. apply respects_execute. intros w. by apply only_touches_update.
  - intros c h. apply respects_execute. intros w. by apply only_touches_update.
Qed.

Lemma process_batch_touches T (pending : list Bookmark) :
  (forall b, In b pending -> In (id b) T) ->
  respects (only_touches T) (process_batch env pending).
Proof.
  intros HT.
  assert (forall A (m : M A), (forall w, bookmarks (db (m w).2) = bookmarks (db w)) ->
                              respects (only_touches T) m) as Hsame.
  { intros A m Hm w. apply only_touches_same_rows, Hm. }
  pose proof (only_touches_refl T) as Hrefl.
  pose proof (only_touches_trans T) as Htrans.
  unfold process_batch. destruct (_ =? _)%nat.
  - apply respects_bind; [done|by apply Hsame|intros; by apply Hsame].
  - apply respects_bind; [done| |intros _].
    + apply respects_for_each; [done..|]. intros b Hb.
      apply respects_bind; [done|by apply summarizeBookmark_touches, HT|intros _].
      apply respects_bind; [done|by apply respects_query|intros s].
      apply respects_bind; [done|by apply respects_query|intros p].
      by apply Hsame.
    + apply respects_bind; [done|by apply respects_query|intros n].
      destruct (_ <? _)%nat; by apply Hsame.
Qed.

(** A batch returns normally and writes only the rows it fetched. *)
Lemma processNextBatch_touches (w : World) :
  (processNextBatch env w).1 = Return tt
  /\ only_touches (List.map id (GET_BOOKMARKS_PENDING CHUNK_SIZE (db w)))
       w (processNextBatch env w).2.
Proof.
  set (T := List.map id (GET_BOOKMARKS_PENDING CHUNK_SIZE (db w))).
  pose proof (process_batch_touches T (GET_BOOKMARKS_PENDING CHUNK_SIZE (db w))) as Hb.
  specialize (Hb (fun b Hin => in_map id _ b Hin) w).
  unfold processNextBatch, bind, isQueueRunning, try_catch, findPending, query_db.
  destruct (summarizing w); simpl; [|split; [done|apply only_touches_refl]].
  destruct (process_batch env _ w) as [[[]|e] w1]; simpl in *; [done|].
  split; [done|]. eapply only_touches_trans; [exact Hb|].
  by apply only_touches_same_rows.
Qed.

Lemma NoDup_map_In_inj {A B} (f : A -> B) (l : list A) (x y : A) :
  NoDup (List.map f l) -> In x l -> In y l -> f x = f y -> x = y.
Proof.
  induction l as [|a l IH]; simpl; [done|].
  intros Hnd. inversion Hnd as [|? ? Hn Hnd']; subst.
  intros [->|Hx] [->|Hy] Hf; [done| | |by apply IH].
  - exfalso. apply Hn. rewrite Hf. apply list_elem_of_In, in_map, Hy.
  - exfalso. apply Hn. rewrite <- Hf. apply list_elem_of_In, in_map, Hx.
Qed.

Lemma reset_world (w : World) :
  (try_catch (resetAnalyzingToRetry env ;;; ret tt) (fun _ => ret tt) w).2
  = with_db (update_bookmarks (fun b => bool_decide (status b = analyzing))
               (set_retry (now env)) (db w)) w.
Proof. reflexivity. Qed.

(** The pass rewrites exactly the rows that are [analyzing]. *)
Lemma reset_rows (w : World) :
  bookmarks (db (resetAnalyzingToRetry env w).2)
  = List.map (fun r => if bool_decide (status r = analyzing)
                       then set_retry (now env) r else r)
      (bookmarks (db w)).
Proof. reflexivity. Qed.

(** C7. Whatever the queue-running flag says, start-up takes every
    bookmark that is [analyzing] at process start to [pending] with its
    [retryCount] raised by exactly 1; the row then satisfies the
    selection of the next chunk fetch (state [pending], or [failed]
    with [retry_count < 3], oldest-created first) and is fetched by it
    when the chunk is large enough. The pass leaves every row that is
    not [analyzing] as it is. *)
Theorem recovery_pass_resets_analyzing
    (w : World) (b : Bookmark)
    (Hids : NoDup (List.map id (bookmarks (db w))))
    (Hb : In b (bookmarks (db w)))
    (Han : status b = analyzing) :
  let w' := (initializeAsync env w).2 in
  let b' := set_retry (now env) b in
  In b' (bookmarks (db w'))
  /\ NoDup (List.map id (bookmarks (db w')))
  /\ id b' = id b /\ status b' = pending /\ retryCount b' = retryCount b + 1
  /\ pending_row b' = true
  /\ In b' (GET_BOOKMARKS_PENDING (length (bookmarks (db w'))) (db w'))
  /\ (forall limit d,
        Forall (fun p => pending_row p = true) (GET_BOOKMARKS_PENDING limit d)
        /\ StronglySorted (fun x y => createdAt x <= createdAt y)
             (GET_BOOKMARKS_PENDING limit d))
  /\ (forall w0 : World,
        Forall2 (fun r r' => status r <> analyzing -> r' = r)
          (bookmarks (db w0)) (bookmarks (db (resetAnalyzingToRetry env w0).2))).
Proof.
  intros w' b'.
  (* the world in which the pass runs *)
  assert (exists w1,
            w' = with_db (update_bookmarks (fun b => bool_decide (status b = analyzing))
                            (set_retry (now env)) (db w1)) w1
            /\ In b (bookmarks (db w1))
            /\ List.map id (bookmarks (db w1)) = List.map id (bookmarks (db w)))
    as (w1 & Hw' & Hb1 & Hids1).
  { subst w'. unfold initializeAsync, bind at 1 2, isQueueRunning.
    destruct (summarizing w); simpl.
    - destruct (processNextBatch_touches w) as [Hret Htouch].
      destruct (processNextBatch env w) as [o w1]; simpl in *. subst o.
      exists w1. split; [apply reset_world|]. split.
      + apply (only_touches_In _ _ _ _ Htouch Hb).
        intros (p & Hid & Hp)%in_map_iff.
        apply pending_rows_In in Hp as [Hp Hrow].
        assert (p = b) as -> by (by apply (NoDup_map_In_inj id (bookmarks (db w)))).
        unfold pending_row in Hrow. rewrite Han in Hrow. done.
      + by apply only_touches_ids in Htouch.
    - exists w. split; [apply reset_world|]. done. }
  assert (In b' (bookmarks (db w'))) as Hb'.
  { rewrite Hw'. simpl. apply in_map_iff. exists b.
    split; [|done]. by rewrite Han. }
  split; [exact Hb'|]. split.
  { rewrite Hw'. simpl. rewrite map_map.
    rewrite <- Hids1 in Hids.
    erewrite map_ext; [exact Hids|].
    intros r. by destruct (bool_decide _). }
  split; [done|]. split; [done|]. split; [done|]. split; [done|]. split.
  { unfold GET_BOOKMARKS_PENDING. rewrite firstn_all2.
    - apply (Permutation_in _ (Permutation_sym (stable_sort_perm _ _))).
      by apply filter_In.
    - rewrite (Permutation_length (stable_sort_perm _ _)).
      apply filter_length_le. }
  split.
  { intros limit d. destruct (pending_rows_sorted limit d) as (? & ? & ?). done. }
  intros w0. rewrite reset_rows.
  induction (bookmarks (db w0)) as [|r l IH]; simpl; constructor; [|exact IH].
  intros Hr. by rewrite bool_decide_eq_false_2.
Qed.

End Recovery.

Lemma recovery_pass_resets_analyzing_witness :
  In (set_retry 1000 Examples.stuck)
    (bookmarks (db (initializeAsync Examples.env_down Examples.stuck_world).2)).
Proof.
  refine (proj1 (recovery_pass_resets_analyzing Examples.env_down Examples.stuck_world
                   Examples.stuck _ _ _)).
  - apply (bool_decide_unpack _). vm_compute. reflexivity.
  - right. by left.
  - reflexivity.
Defined.

(** *** The repair flow *)

Section Repair.
Variable env : Env.

Lemma scan_needs_fold (l : list Bookmark) acc :
  List.map fst (fold_left (scan_step env) l acc).1.1
  = List.map fst acc.1.1 ++ List.filter (flagged env) l.
Proof.
  revert acc. induction l as [|b l IH]; intros [[needs e] g]; simpl.
  - by rewrite app_nil_r.
  - rewrite IH. unfold scan_step, flagged.
    destruct (truthy_num (fetchFailedAt b)); simpl; [done|].
    destruct (negb (truthy_str (pageContent b)) || _) eqn:Hempty; simpl.
    + by rewrite map_app, <- app_assoc.
    + destruct (Garbled.isGarbled _); simpl; [|done].
      by rewrite map_app, <- app_assoc.
Qed.

(** The repair list is the list of flagged rows, in table order. *)
Lemma scan_needs (l : list Bookmark) :
  List.map fst (scan env l).1.1 = List.filter (flagged env) l.
Proof. unfold scan. by rewrite scan_needs_fold. Qed.

Lemma NoDup_map_filter {A B} (f : A -> B) (p : A -> bool) (l : list A) :
  NoDup (List.map f l) -> NoDup (List.map f (List.filter p l)).
Proof.
  induction l as [|a l IH]; simpl; [done|].
  intros Hnd. inversion Hnd as [|? ? Hn Hnd']; subst.
  destruct (p a); simpl; [|by apply IH].
  constructor; [|by apply IH].
  intros (x & Hx & Hin)%list_elem_of_In%in_map_iff.
  apply filter_In in Hin as [Hin _].
  apply Hn. rewrite <- Hx. apply list_elem_of_In, in_map, Hin.
Qed.

Lemma refetch_update_id b r : id (refetch_update env b r) = id r.
Proof.
  unfold refetch_update.
  destruct (_ && _); [|done]. destruct (Garbled.isGarbled _); [done|].
  by destruct (_ && _).
Qed.

(** One repair returns normally, and rewrites the rows of the
    bookmark's id as [refetch_update] says. *)
Lemma refetch_one_run res b reason w :
  exists res' w1,
    refetch_one env res (b, reason) w = (Return res', w1)
    /\ bookmarks (db w1)
       = List.map (fun r => if has_id (id b) r then refetch_update env b r else r)
           (bookmarks (db w)).
Proof.
  assert (forall l : list Bookmark,
            l = List.map (fun r => if has_id (id b) r then r else r) l) as Hsame.
  { intros l. rewrite <- (map_id l) at 1. apply map_ext. intros r. by destruct (has_id _ r). }
  unfold refetch_one, refetch_update.
  destruct (_ && _); [|by eexists _, _].
  destruct (Garbled.isGarbled _); [eexists _, _; split; [done|apply Hsame]|].
  destruct (_ && _); [eexists _, _; split; [done|apply Hsame]|].
  by eexists _, _.
Qed.

Lemma fold_each_run {A S} (body : S -> A -> M S) (x : A) (l : list A) s w s' w1 :
  body s x w = (Return s', w1) ->
  fold_each (x :: l) body s w = fold_each l body s' w1.
Proof. intros H. cbn [fold_each]. unfold bind. by rewrite H. Qed.

Lemma refetch_fold_keeps (L : list (Bookmark * RefetchReason)) res w r :
  In r (bookmarks (db w)) -> ~ In (id r) (List.map (fun e => id e.1) L) ->
  In r (bookmarks (db (fold_each L (refetch_one env) res w).2)).
Proof.
  revert res w. induction L as [|[b reason] L IH]; intros res w Hr Hn; [done|].
  destruct (refetch_one_run res b reason w) as (res' & w1 & Hrun & Hrows).
  rewrite (fold_each_run _ _ _ _ _ _ _ Hrun).
  apply IH; [|intros Hin; apply Hn; by right].
  rewrite Hrows. apply in_map_iff. exists r. split; [|done].
  unfold has_id. destruct (Z.eqb_spec (id r) (id b)) as [Heq|]; [|done].
  exfalso. apply Hn. by left.
Qed.

Lemma refetch_fold_ids (L : list (Bookmark * RefetchReason)) res w :
  List.map id (bookmarks (db (fold_each L (refetch_one env) res w).2))
  = List.map id (bookmarks (db w)).
Proof.
  revert res w. induction L as [|[b reason] L IH]; intros res w; [done|].
  destruct (refetch_one_run res b reason w) as (res' & w1 & Hrun & Hrows).
  rewrite (fold_each_run _ _ _ _ _ _ _ Hrun).
  rewrite IH, Hrows, map_map. apply map_ext. intros r.
  destruct (has_id _ r); [apply refetch_update_id|done].
Qed.

(** After the loop the row of a flagged bookmark is what its own
    repair made of it. *)
Lemma refetch_fold_row (L : list (Bookmark * RefetchReason)) res w b reason :
  NoDup (List.map (fun e => id e.1) L) ->
  In (b, reason) L -> In b (bookmarks (db w)) ->
  In (refetch_update env b b) (bookmarks (db (fold_each L (refetch_one env) res w).2)).
Proof.
  revert res w. induction L as [|[b0 reason0] L IH]; intros res w Hnd Hin Hb; [done|].
  cbn [List.map fst] in Hnd. inversion Hnd as [|? ? Hn Hnd']; subst.
  destruct (refetch_one_run res b0 reason0 w) as (res' & w1 & Hrun & Hrows).
  rewrite (fold_each_run _ _ _ _ _ _ _ Hrun).
  destruct Hin as [[= -> ->]|Hin].
  - apply refetch_fold_keeps.
    + rewrite Hrows. apply in_map_iff. exists b. split; [|done].
      unfold has_id. by rewrite Z.eqb_refl.
    + by rewrite refetch_update_id, <- list_elem_of_In.
  - apply IH; [done|done|].
    rewrite Hrows. apply in_map_iff. exists b. split; [|done].
    unfold has_id. destruct (Z.eqb_spec (id b) (id b0)) as [Heq|]; [|done].
    exfalso. apply Hn. rewrite <- Heq.
    apply list_elem_of_In, in_map_iff. by exists (b, reason).
Qed.

Lemma scan_flagged (rows : list Bookmark) (b : Bookmark) (reason : RefetchReason) :
  In (b, reason) (scan env rows).1.1 -> In b rows /\ flagged env b = true.
Proof.
  intros Hin. apply filter_In. rewrite <- scan_needs.
  apply in_map_iff. by exists (b, reason).
Qed.

Lemma refetch_world (w : World) :
  (refetchGarbledContent env w).2
  = (fold_each (scan env (bookmarks (db w))).1.1 (refetch_one env)
       (mkRefetch (length (bookmarks (db w))) (scan env (bookmarks (db w))).2
          (scan env (bookmarks (db w))).1.2 O O [])
       w).2.
Proof.
  unfold refetchGarbledContent, bind, getAllForIndex, query_db.
  by destruct (scan env (bookmarks (db w))) as [[needs e] g].
Qed.

(** C8 (amended). For every flagged bookmark that the repair flow
    re-fetches (ids being unique): the stored content is replaced only
    if usable content came back (more than 50 characters) that is not
    itself classified as garbled and is not less than half as long as
    the previous content, and is replaced in that case; when nothing
    usable came back, the content is kept and the bookmark is
    dead-link-marked, so that no later repair scan lists it; when the
    new content is rejected (garbled, or less than half as long), the
    row is left exactly as it was, dead-link marker included. *)
Theorem refetch_accepts_or_marks
    (w : World) (b : Bookmark) (reason : RefetchReason)
    (Hids : NoDup (List.map id (bookmarks (db w))))
    (Hflag : In (b, reason) (scan env (bookmarks (db w))).1.1) :
  let w' := (refetchGarbledContent env w).2 in
  let newContent := fetchPageContentSmart env (url b) in
  let usable := truthy_str newContent && (50 <? length (or_empty newContent))%nat in
  let garbled :=
    Garbled.isGarbled (Garbled.detectGarbledContent (toLowerCase env) (or_empty newContent)) in
  let regressive :=
    (length (or_empty newContent) * 2 <? length (or_empty (pageContent b)))%nat in
  exists b',
    In b' (bookmarks (db w')) /\ id b' = id b
    /\ NoDup (List.map id (bookmarks (db w')))
    /\ (pageContent b' <> pageContent b ->
        pageContent b' = newContent
        /\ usable = true /\ garbled = false /\ regressive = false)
    /\ (usable = true -> garbled = false -> regressive = false ->
        pageContent b' = newContent)
    /\ (usable = false ->
        fetchFailedAt b' = Some (now env) /\ pageContent b' = pageContent b
        /\ (now env <> 0 ->
            forall rows reason', ~ In (b', reason') (scan env rows).1.1))
    /\ (usable = true -> garbled = true \/ regressive = true -> b' = b).
Proof.
  intros w' newContent usable garbled regressive.
  destruct (scan_flagged _ _ _ Hflag) as [Hb _].
  assert (NoDup (List.map (fun e : Bookmark * RefetchReason => id e.1)
                   (scan env (bookmarks (db w))).1.1)) as Hnd.
  { rewrite <- (map_map fst id), scan_needs. by apply NoDup_map_filter. }
  exists (refetch_update env b b).
  split. { subst w'. rewrite refetch_world. by eapply refetch_fold_row. }
  split; [apply refetch_update_id|].
  split. { subst w'. by rewrite refetch_world, refetch_fold_ids. }
  assert (truthy_str (pageContent b) && regressive = regressive) as Hreg.
  { subst regressive. destruct (pageContent b) as [[|c old]|]; simpl; try done;
      symmetry; apply Nat.ltb_ge; lia. }
  assert (usable = true -> Some (or_empty newContent) = newContent) as Hsome.
  { subst usable. destruct newContent as [[|c new]|]; simpl; done. }
  unfold refetch_update.
  fold newContent. fold usable. fold garbled. fold regressive. rewrite Hreg.
  destruct usable eqn:Hu.
  - destruct garbled eqn:Hg.
    + split; [done|]. split; [done|]. split; [done|]. done.
    + destruct regressive eqn:Hr.
      * split; [done|]. split; [done|]. split; [done|]. done.
      * cbn [set_content pageContent]. rewrite (Hsome eq_refl).
        split; [done|]. split; [done|]. split; [done|].
        intros _ [?|?]; done.
  - split; [done|]. split; [done|]. split; [|done].
    intros _. split; [done|]. split; [done|].
    intros Hnow rows reason' Hin.
    apply scan_flagged in Hin as [_ Hfl]. unfold flagged in Hfl.
    cbn [set_fetch_failed fetchFailedAt truthy_num] in Hfl.
    destruct (Z.eqb_spec (now env) 0); [done|]. done.
Qed.

End Repair.

Lemma refetch_accepts_or_marks_witness :
  exists b',
    In b' (bookmarks (db (refetchGarbledContent Examples.env_down
                            (Examples.world_of [Examples.once_failed])).2))
    /\ id b' = 1 /\ fetchFailedAt b' = Some 1000.
Proof.
  destruct (refetch_accepts_or_marks Examples.env_down
              (Examples.world_of [Examples.once_failed]) Examples.once_failed RR_empty)
    as (b' & Hin & Hid & _ & _ & _ & Hdead & _).
  - apply (bool_decide_unpack _). vm_compute. reflexivity.
  - vm_compute. by left.
  - exists b'. split; [exact Hin|]. split; [exact Hid|].
    by destruct (Hdead eq_refl) as [-> _].
Defined.

(** C8, as stated, fails on "or rejection": a bookmark whose re-fetched
    content is still garbled is counted as failed but is not
    dead-link-marked, and the next repair scan lists it again. *)
Lemma rejection_is_not_dead_marked :
  (refetchGarbledContent Examples.env_still_garbled
     (Examples.world_of [Examples.garbled_bm])).1
  = Return (mkRefetch 1 1 0 0 1 [StillGarbled (lit "G page")])
  /\ bookmarks (db (refetchGarbledContent Examples.env_still_garbled
                      (Examples.world_of [Examples.garbled_bm])).2)
     = [Examples.garbled_bm]
  /\ fetchFailedAt Examples.garbled_bm = None
  /\ List.map fst
       (scan Examples.env_still_garbled
          (bookmarks (db (refetchGarbledContent Examples.env_still_garbled
                            (Examples.world_of [Examples.garbled_bm])).2))).1.1
     = [Examples.garbled_bm].
Proof. repeat split; vm_compute; reflexivity. Qed.

(** *** One summary per bookmark *)

Lemma INSERT_SUMMARY_unique (s : AISummary) (d : DB) :
  NoDup (List.map bookmarkId (ai_summaries d)) ->
  NoDup (List.map bookmarkId (ai_summaries (INSERT_SUMMARY s d).2)).
Proof.
  intros Hnd. unfold INSERT_SUMMARY.
  destruct (existsb _ _) eqn:He; [done|]. cbn.
  rewrite map_app. apply NoDup_app. split; [done|]. split; [|apply NoDup_singleton].
  intros i Hi ->%list_elem_of_singleton.
  apply list_elem_of_In, in_map_iff in Hi as (s' & Hs' & Hin).
  assert (existsb (fun s' => bookmarkId s' =? bookmarkId s) (ai_summaries d) = true);
    [|congruence].
  apply existsb_exists. exists s'. split; [done|]. by apply Z.eqb_eq.
Qed.

Lemma reachable_summaries_unique (d : DB) :
  reachable d -> NoDup (List.map bookmarkId (ai_summaries d)).
Proof.
  induction 1 as [|d st Hd IH]; [constructor|].
  destruct st; cbn [run]; try exact IH.
  - unfold INSERT_BOOKMARK. by destruct (existsb _ _).
  - by apply INSERT_SUMMARY_unique.
  - unfold INSERT_TAG. by destruct (existsb _ _).
  - unfold ADD_BOOKMARK_TAG. by destruct (existsb _ _).
Qed.

Lemma NoDup_filter_le_1 {A} (f : A -> Z) (i : Z) (l : list A) :
  NoDup (List.map f l) -> (length (List.filter (fun x => (f x =? i)%Z) l) <= 1)%nat.
Proof.
  induction l as [|a l IH]; simpl; [lia|].
  intros Hnd. inversion Hnd as [|? ? Hn Hnd']; subst.
  destruct (Z.eqb_spec (f a) i) as [Heq|]; [|by apply IH].
  assert (List.filter (fun x => f x =? i) l = []) as ->; [|simpl; lia].
  destruct (List.filter _ l) as [|x l'] eqn:Hf; [done|].
  exfalso. apply Hn.
  assert (In x (List.filter (fun x => f x =? i) l)) as Hx by (rewrite Hf; by left).
  apply filter_In in Hx as [Hx Hfx]. apply Z.eqb_eq in Hfx.
  rewrite Heq, <- Hfx. apply list_elem_of_In, in_map, Hx.
Qed.

(** C10. In every database reachable through the write statements a
    bookmark has at most one summary row. [AISummaryRepository.create]
    inserts without looking for an existing summary; when one exists
    for the bookmark the insert is rejected by the unique constraint
    on [bookmark_id] and the database is unchanged, so a second
    [create] for the same bookmark throws after a first one succeeded. *)
Theorem one_summary_per_bookmark :
  (forall d i, reachable d -> (length (summaries_of i d) <= 1)%nat)
  /\ (forall s w,
        existsb (fun s' => bookmarkId s' =? bookmarkId s) (ai_summaries (db w)) = true ->
        AISummaryRepository_create s w
        = (Throw (lit "UNIQUE constraint failed: ai_summaries.bookmark_id"), w))
  /\ (forall s1 s2 w i w1,
        bookmarkId s2 = bookmarkId s1 ->
        AISummaryRepository_create s1 w = (Return i, w1) ->
        AISummaryRepository_create s2 w1
        = (Throw (lit "UNIQUE constraint failed: ai_summaries.bookmark_id"), w1)).
Proof.
  assert (forall s w,
            existsb (fun s' => bookmarkId s' =? bookmarkId s) (ai_summaries (db w)) = true ->
            AISummaryRepository_create s w
            = (Throw (lit "UNIQUE constraint failed: ai_summaries.bookmark_id"), w))
    as Hreject.
  { intros s [d f a sc pc] He. unfold AISummaryRepository_create, execute_checked,
      INSERT_SUMMARY. cbn in *. by rewrite He. }
  split; [|split; [exact Hreject|]].
  - intros d i Hd. apply NoDup_filter_le_1. by apply reachable_summaries_unique.
  - intros s1 s2 w i w1 Hsame Hcreate. apply Hreject.
    unfold AISummaryRepository_create, execute_checked, INSERT_SUMMARY in Hcreate.
    cbn in Hcreate. destruct (existsb _ _); [done|].
    injection Hcreate as _ <-. cbn.
    rewrite existsb_app. cbn. rewrite Hsame, Z.eqb_refl. by rewrite orb_true_r.
Qed.

Lemma one_summary_per_bookmark_witness :
  (length (summaries_of 1 Examples.summarized_twice) <= 1)%nat.
Proof.
  apply (proj1 one_summary_per_bookmark).
  repeat constructor.
Defined.

Example summarized_twice_rows :
  List.map bookmarkId (ai_summaries Examples.summarized_twice) = [1].
Proof. vm_compute. reflexivity. Qed.

End QueueProps.

(* ================================================================== *)
(** * Further properties of the search configuration, the query
      parsers, the ranking, the detector, the store and the queue *)
(* ================================================================== *)

Module ScoringProps.
Import Config ConfigProps JSProps EngineProps.

Lemma calculateScore_first (t : Z) : (calculateScore 0 t == 100)%Q.
Proof. unfold calculateScore. unfold Qdiv. change (inject_Z 0) with 0%Q. ring. Qed.

Lemma calculateScore_last (t : Z) : 2 <= t -> (calculateScore (t - 1) t == 40)%Q.
Proof.
  intros Ht. unfold calculateScore.
  replace (Z.max 1 (t - 1)) with (t - 1) by lia.
  assert (~ inject_Z (t - 1) == 0)%Q as Hne.
  { unfold Qeq. simpl. lia. }
  field. exact Hne.
Qed.

Lemma calculateScore_strict (i j t : Z) :
  i < j -> (calculateScore j t < calculateScore i t)%Q.
Proof.
  intros Hij. unfold calculateScore.
  pose proof (max_denominator_pos t) as Hm.
  set (m := inject_Z (Z.max 1 (t - 1))) in *.
  assert (inject_Z i / m < inject_Z j / m)%Q as Hdiv.
  { unfold Qdiv. apply Qmult_lt_compat_r; [apply Qinv_lt_0_compat, Hm|].
    by rewrite <- Zlt_Qlt. }
  lra.
Qed.

(** X1. [calculateScore] spreads the enabled strategies over the scores
    from 100 down to 40: the first position scores 100, the last of two
    or more scores 40, and of two positions of the list the later one
    scores strictly less, so no two strategies of one list tie. *)
Theorem calculateScore_interpolates (i j t : Z)
    (Hi : 0 <= i) (Hij : i < j) (Hj : j < t) :
  (40 <= calculateScore j t)%Q
  /\ (calculateScore j t < calculateScore i t)%Q
  /\ (calculateScore i t <= 100)%Q
  /\ (calculateScore 0 t == 100)%Q
  /\ (calculateScore (t - 1) t == 40)%Q.
Proof.
  split; [apply calculateScore_floor; lia|].
  split; [by apply calculateScore_strict|].
  split.
  { rewrite <- (calculateScore_first t). apply calculateScore_antitone. lia. }
  split; [apply calculateScore_first|].
  apply calculateScore_last. lia.
Qed.

Lemma calculateScore_interpolates_witness :
  (40 <= calculateScore 17 18)%Q
  /\ (calculateScore 17 18 < calculateScore 16 18)%Q
  /\ (calculateScore 16 18 <= 100)%Q.
Proof.
  destruct (calculateScore_interpolates 16 17 18 ltac:(lia) ltac:(lia) ltac:(lia))
    as (H1 & H2 & H3 & _).
  split; [exact H1|]. split; [exact H2 | exact H3].
Defined.

End ScoringProps.

Module LoadProps.
Import Config ConfigProps.

Lemma load_nonempty_merge (saved : list SavedEntry) :
  saved <> [] -> loadSearchStrategies (mkOrder (Some saved)) = merge_saved saved.
Proof.
  intros Hne. destruct saved as [|s saved]; [done|].
  unfold loadSearchStrategies, merge_saved. cbn [strategies].
  destruct (load_saved_fold (s :: saved) ([], ∅)) as [H1 H2].
  rewrite load_new_fold, H1. cbn [fst]. rewrite app_nil_l. f_equal.
  apply filter_ext_elem. intros d Hd.
  rewrite H2. cbn [snd]. split.
  - intros Hn Hin. apply Hn. right. split; [done|].
    rewrite (find_default_elem d Hd). by eexists.
  - intros Hn [H|[H _]]; [by apply elem_of_empty in H|done].
Qed.

Lemma find_default_Some i d : find_default i = Some d -> d ∈ DEFAULT_SEARCH_STRATEGIES /\ id d = i.
Proof.
  unfold find_default. intros H. apply find_some in H as [Hin Heq].
  apply String.eqb_eq in Heq. split; [by apply list_elem_of_In|done].
Qed.

Lemma with_enabled_self (d : SearchStrategy) : with_enabled (enabled d) d = d.
Proof. by destruct d. Qed.

(** Every loaded strategy is a default definition, possibly with another flag, and
    every default id is loaded. *)
Lemma load_elements (o : SearchStrategyOrder) :
  Forall (fun x => exists d, d ∈ DEFAULT_SEARCH_STRATEGIES /\ x = with_enabled (enabled x) d)
    (loadSearchStrategies o)
  /\ Forall (fun d => id d ∈ id <$> loadSearchStrategies o) DEFAULT_SEARCH_STRATEGIES.
Proof.
  assert (Forall (fun x => exists d, d ∈ DEFAULT_SEARCH_STRATEGIES
                                     /\ x = with_enabled (enabled x) d)
            DEFAULT_SEARCH_STRATEGIES
          /\ Forall (fun d => id d ∈ id <$> DEFAULT_SEARCH_STRATEGIES)
               DEFAULT_SEARCH_STRATEGIES) as Hdef.
  { split; apply Forall_forall; intros x Hx.
    - exists x. split; [done|]. by rewrite with_enabled_self.
    - by apply list_elem_of_fmap_2. }
  destruct o as [[saved|]]; [|exact Hdef].
  destruct saved as [|s saved]; [exact Hdef|].
  rewrite load_nonempty_merge by done. unfold merge_saved.
  set (sv := s :: saved). split.
  - apply Forall_app. split.
    + apply Forall_forall. intros x Hx. apply list_elem_of_omap in Hx as (e & He & Hx).
      destruct (find_default (s_id e)) as [d|] eqn:Hf; [|done]. simpl in Hx.
      injection Hx as <-. apply find_default_Some in Hf as [Hd _].
      exists d. by split.
    + apply Forall_forall. intros x Hx. apply list_elem_of_filter in Hx as [_ Hx].
      exists x. split; [done|]. by rewrite with_enabled_self.
  - apply Forall_forall. intros d Hd. rewrite fmap_app, elem_of_app.
    destruct (decide (id d ∈ s_id <$> sv)) as [Hin|Hnin].
    + left. apply list_elem_of_fmap in Hin as (e & He & Hin).
      apply list_elem_of_fmap. exists (with_enabled (s_enabled e) d). split; [done|].
      apply list_elem_of_omap. exists e. split; [done|].
      rewrite <- He, (find_default_elem d Hd). done.
    + right. apply list_elem_of_fmap_2. apply list_elem_of_filter. by split.
Qed.


Lemma filter_none {A} (P : A -> Prop) `{!forall x, Decision (P x)} (l : list A) :
  Forall (fun x => ~ P x) l -> base.filter P l = [].
Proof.
  induction 1 as [|x l Hx _ IH]; [done|].
  rewrite filter_cons. by destruct (decide (P x)).
Qed.

(** Merging what was just saved gives the saved list back. *)
Lemma merge_saved_self (l : list SearchStrategy) :
  Forall (fun x => exists d, d ∈ DEFAULT_SEARCH_STRATEGIES /\ x = with_enabled (enabled x) d) l ->
  Forall (fun d => id d ∈ id <$> l) DEFAULT_SEARCH_STRATEGIES ->
  merge_saved (List.map (fun s => mkSaved (id s) (enabled s)) l) = l.
Proof.
  intros Hdef Hall. unfold merge_saved.
  rewrite filter_none.
  - rewrite app_nil_r. clear Hall.
    induction Hdef as [|x l (d & Hd & Hx) _ IH]; [done|].
    cbn [List.map omap list_omap s_id s_enabled].
    assert (id x = id d) as Hid by (rewrite Hx; done).
    rewrite Hid, (find_default_elem d Hd). cbn [fmap option_fmap option_map].
    rewrite <- Hx. f_equal. exact IH.
  - eapply Forall_impl; [exact Hall|]. intros d Hd Hn. apply Hn.
    change (List.map ?f l) with (f <$> l). rewrite <- list_fmap_compose.
    exact Hd.
Qed.

Lemma load_not_nil (o : SearchStrategyOrder) : loadSearchStrategies o <> [].
Proof.
  destruct (load_elements o) as [_ Hall]. intros Hnil. rewrite Hnil in Hall.
  apply Forall_inv in Hall. by apply elem_of_nil in Hall.
Qed.

(** X2. Whatever the storage holds, every strategy that
    [loadSearchStrategies] returns is one of the default strategies with
    at most its [enabled] flag changed, every default strategy is present
    in the result by its id, and saving the loaded list and loading again
    gives the same list. *)
Theorem loadSearchStrategies_complete (o : SearchStrategyOrder) :
  Forall (fun x => exists d, d ∈ DEFAULT_SEARCH_STRATEGIES /\ x = with_enabled (enabled x) d)
    (loadSearchStrategies o)
  /\ Forall (fun d => id d ∈ id <$> loadSearchStrategies o) DEFAULT_SEARCH_STRATEGIES
  /\ loadSearchStrategies (saveSearchStrategies (loadSearchStrategies o))
     = loadSearchStrategies o.
Proof.
  destruct (load_elements o) as [Hdef Hall].
  split; [exact Hdef|]. split; [exact Hall|].
  unfold saveSearchStrategies. rewrite load_nonempty_merge.
  - by apply merge_saved_self.
  - pose proof (load_not_nil o) as Hne. by destruct (loadSearchStrategies o).
Qed.

(** X3. A non-empty list of default strategies (their
    [enabled] flags set freely, in any order) that holds every default id
    is read back by [loadSearchStrategies] exactly as
    [saveSearchStrategies] stored it: the order and the flags survive. *)
Theorem save_load_round_trip (currentStrategies : list SearchStrategy)
    (Hne : currentStrategies <> [])
    (Hdef : Forall (fun x => exists d, d ∈ DEFAULT_SEARCH_STRATEGIES
                                       /\ x = with_enabled (enabled x) d) currentStrategies)
    (Hall : Forall (fun d => id d ∈ id <$> currentStrategies) DEFAULT_SEARCH_STRATEGIES) :
  loadSearchStrategies (saveSearchStrategies currentStrategies) = currentStrategies.
Proof.
  unfold saveSearchStrategies. rewrite load_nonempty_merge.
  - by apply merge_saved_self.
  - by destruct currentStrategies.
Qed.

Lemma omap_saved_ids (saved : list SavedEntry) :
  id <$> omap (fun s => with_enabled (s_enabled s) <$> find_default (s_id s)) saved
  = base.filter (fun i => is_Some (find_default i)) (s_id <$> saved).
Proof.
  induction saved as [|s saved IH]; [done|].
  cbn [omap list_omap fmap list_fmap]. rewrite filter_cons.
  destruct (find_default (s_id s)) as [d|] eqn:Hf; cbn [fmap option_fmap option_map].
  - destruct (decide (is_Some (Some d))) as [_|Hn]; [|by destruct Hn].
    cbn [fmap list_fmap]. f_equal; [|exact IH].
    apply find_default_Some in Hf as [_ Hid]. exact Hid.
  - destruct (decide (is_Some (@None SearchStrategy))) as [Hs|_]; [by destruct Hs|].
    exact IH.
Qed.

Lemma NoDup_fmap_filter {A B} (f : A -> B) (P : A -> Prop) `{!forall x, Decision (P x)}
      (l : list A) :
  NoDup (f <$> l) -> NoDup (f <$> base.filter P l).
Proof.
  induction l as [|a l IH]; [done|]. cbn [fmap list_fmap].
  intros Hnd. apply NoDup_cons in Hnd as [Hnotin Hnd].
  rewrite filter_cons. destruct (decide (P a)); [|by apply IH].
  cbn [fmap list_fmap]. apply NoDup_cons. split; [|by apply IH].
  intros Hin. apply Hnotin. apply list_elem_of_fmap in Hin as (x & Hx & Hin).
  apply list_elem_of_filter in Hin as [_ Hin]. rewrite Hx. by apply list_elem_of_fmap_2.
Qed.

(** X4. When no id is saved twice, the ids of the loaded
    list are a permutation of the ids of the default strategies: unknown
    saved ids are dropped, defaults missing from the saved list are added,
    and nothing is listed twice. *)
Theorem loaded_ids_permutation (saved : list SavedEntry)
    (Hnd : NoDup (s_id <$> saved)) :
  id <$> loadSearchStrategies (mkOrder (Some saved)) ≡ₚ id <$> DEFAULT_SEARCH_STRATEGIES.
Proof.
  destruct (load_elements (mkOrder (Some saved))) as [Hdef Hall].
  apply NoDup_Permutation.
  - destruct saved as [|s saved]; [apply default_ids_NoDup|].
    rewrite load_nonempty_merge by done. unfold merge_saved.
    rewrite fmap_app. apply NoDup_app. split; [|split].
    + rewrite omap_saved_ids. by apply NoDup_filter.
    + intros i Hi Hi'. rewrite omap_saved_ids in Hi.
      apply list_elem_of_filter in Hi as [_ Hi].
      apply list_elem_of_fmap in Hi' as (d & -> & Hd).
      apply list_elem_of_filter in Hd as [Hd _]. by apply Hd.
    + apply NoDup_fmap_filter, default_ids_NoDup.
  - apply default_ids_NoDup.
  - intros i. split.
    + intros Hi. apply list_elem_of_fmap in Hi as (x & -> & Hx).
      rewrite Forall_forall in Hdef. destruct (Hdef x Hx) as (d & Hd & Hs).
      rewrite Hs. change (id (with_enabled (enabled x) d)) with (id d).
      by apply list_elem_of_fmap_2.
    + intros Hi. apply list_elem_of_fmap in Hi as (d & -> & Hd).
      rewrite Forall_forall in Hall. by apply Hall.
Qed.

(** X5. [getStrategyById] on a loaded list finds a strategy
    exactly when the id is the id of a default strategy; what it finds
    has that id and is that default, up to its [enabled] flag. *)
Theorem getStrategyById_loaded (o : SearchStrategyOrder) (i : string) :
  match getStrategyById (loadSearchStrategies o) i with
  | Some s => id s = i
              /\ exists d, find_default i = Some d /\ s = with_enabled (enabled s) d
  | None => find_default i = None
  end.
Proof.
  destruct (load_elements o) as [Hdef Hall].
  rewrite Forall_forall in Hdef. rewrite Forall_forall in Hall.
  unfold getStrategyById.
  destruct (List.find _ _) as [s|] eqn:Hf.
  - apply find_some in Hf as [Hin Heq]. apply String.eqb_eq in Heq.
    split; [exact Heq|].
    destruct (Hdef s) as (d & Hd & Hs); [by apply list_elem_of_In|].
    exists d. split; [|exact Hs].
    rewrite <- Heq, Hs. apply (find_default_elem d Hd).
  - destruct (find_default i) as [d|] eqn:Hd; [|done].
    apply find_default_Some in Hd as [Hd Hid].
    apply Hall in Hd. apply list_elem_of_fmap in Hd as (x & Hx & Hin).
    apply list_elem_of_In in Hin.
    pose proof (find_none _ _ Hf x Hin) as Hne. cbn beta in Hne.
    apply String.eqb_neq in Hne. congruence.
Qed.

Lemma save_load_round_trip_witness :
  loadSearchStrategies (saveSearchStrategies (loadSearchStrategies Examples.title_then_url))
  = loadSearchStrategies Examples.title_then_url.
Proof.
  apply save_load_round_trip.
  - apply load_not_nil.
  - apply (load_elements Examples.title_then_url).
  - apply (load_elements Examples.title_then_url).
Defined.

Lemma loaded_ids_permutation_witness :
  id <$> loadSearchStrategies Examples.title_then_url ≡ₚ id <$> DEFAULT_SEARCH_STRATEGIES.
Proof.
  apply (loaded_ids_permutation (default [] (strategies Examples.title_then_url))).
  apply (bool_decide_unpack _). vm_compute. reflexivity.
Defined.

End LoadProps.

Module QueryProps.
Import JS Types Engine JSProps EngineProps.

(** A successful repetition consumed a run of the class, at least [min]
    long, and the continuation accepted what follows. *)
Lemma rep_inv {R} (p : N -> bool) (min : nat) (s : jsstr)
      (k : jsstr -> option R) (r : R) :
  rep p min s k = Some r ->
  exists run rest, s = run ++ rest /\ forallb p run = true
                   /\ (min <= length run)%nat /\ k rest = Some r.
Proof.
  revert min. induction s as [|c s IH]; intros min H; simpl in H.
  - destruct min; [|done]. exists [], []. done.
  - destruct (p c) eqn:Hc.
    + destruct (rep p (Nat.pred min) s k) as [r'|] eqn:Hrep.
      * injection H as <-. apply IH in Hrep as (run & rest & -> & Hrun & Hmin & Hk).
        exists (c :: run), rest. simpl. rewrite Hc, Hrun. repeat split; [lia|done].
      * destruct min; [|done]. exists [], (c :: s). done.
    + destruct min; [|done]. exists [], (c :: s). done.
Qed.

Lemma trimStart_split (s : jsstr) :
  exists pre, s = pre ++ trimStart s /\ forallb is_ws pre = true.
Proof.
  induction s as [|c s (pre & Hs & Hpre)]; simpl.
  - by exists [].
  - destruct (is_ws c) eqn:Hc.
    + exists (c :: pre). simpl. rewrite Hc, Hpre. split; [by f_equal|done].
    + by exists [].
Qed.

Lemma forallb_app_r {A} (p : A -> bool) (l1 l2 : list A) :
  forallb p (l1 ++ l2) = true -> forallb p l2 = true.
Proof. rewrite forallb_app. by intros [_ ?]%andb_true_iff. Qed.

(** The inputs [CATEGORY_PREFIX] accepts. *)
Lemma category_prefix_inv (s : jsstr) (m : caps) (rest' : jsstr) :
  match_here CATEGORY_PREFIX s = Some (m, rest') ->
  exists a token sep rest,
    s = a :: token ++ sep ++ rest
    /\ is_at a = true
    /\ token <> [] /\ forallb not_ws token = true
    /\ forallb is_ws sep = true /\ (sep = [] -> rest = [])
    /\ forallb is_dot rest = true
    /\ match rest with [] => True | c :: _ => is_ws c = false end.
Proof.
  unfold match_here, CATEGORY_PREFIX. cbn [rmatch].
  destruct s as [|a s]; [done|]. destruct (is_at a) eqn:Ha; [|done].
  intros H. apply rep_inv in H as (token & r1 & -> & Htok & Hlen & H).
  exists a, token.
  assert (token <> []) as Hne by (destruct token; [simpl in Hlen; lia|done]).
  match type of H with
  | match ?X with _ => _ end = _ => destruct X as [x|] eqn:Hopt
  end.
  - clear H. apply rep_inv in Hopt as (sep0 & r2 & -> & Hsep & Hlen' & H).
    apply rep_inv in H as (d & r3 & -> & Hdot & _ & H).
    destruct r3; [|done]. rewrite app_nil_r.
    destruct (trimStart_split d) as (pre & Hd & Hpre).
    exists (sep0 ++ pre), (trimStart d).
    rewrite <- app_assoc, <- Hd. split; [done|]. split; [done|].
    split; [done|]. split; [done|].
    split; [by rewrite forallb_app, Hsep, Hpre|].
    split; [intros Hnil; destruct sep0; [simpl in Hlen'; lia|done]|].
    split; [rewrite Hd in Hdot; by apply forallb_app_r in Hdot|].
    apply trimStart_head.
  - destruct r1; [|done]. exists [], []. by rewrite !app_nil_r.
Qed.


(** *** Trimming *)

Lemma trimStart_idem (s : jsstr) : trimStart (trimStart s) = trimStart s.
Proof. apply trimStart_id, trimStart_head. Qed.

Lemma trimStart_snoc (s : jsstr) (c : N) :
  is_ws c = false -> trimStart (s ++ [c]) = trimStart s ++ [c].
Proof.
  intros Hc. induction s as [|x s IH]; simpl.
  - by rewrite Hc.
  - destruct (is_ws x); [exact IH|done].
Qed.

Lemma trimEnd_cons (c : N) (s : jsstr) :
  is_ws c = false -> trimEnd (c :: s) = c :: trimEnd s.
Proof.
  intros Hc. unfold trimEnd. simpl.
  rewrite trimStart_snoc by done. by rewrite rev_app_distr.
Qed.

Lemma trimEnd_idem (s : jsstr) : trimEnd (trimEnd s) = trimEnd s.
Proof. unfold trimEnd. by rewrite rev_involutive, trimStart_idem. Qed.

Lemma trim_idem (s : jsstr) : trim (trim s) = trim s.
Proof.
  unfold trim. pose proof (trimStart_head s) as Hhd.
  destruct (trimStart s) as [|c t]; [done|].
  rewrite trimEnd_cons by done. simpl. rewrite Hhd.
  rewrite trimEnd_cons by done. by rewrite trimEnd_idem.
Qed.

Lemma trim_cons_ws (w : N) (s : jsstr) : is_ws w = true -> trim (w :: s) = trim s.
Proof. intros Hw. unfold trim. simpl. by rewrite Hw. Qed.

Lemma trim_cons_not_ws (c : N) (s : jsstr) :
  is_ws c = false -> trim (c :: s) = c :: trimEnd s.
Proof. intros Hc. unfold trim. simpl. rewrite Hc. by apply trimEnd_cons. Qed.

(** *** The category prefix *)

(** X6. For every query: when [isCategorySearch]
    accepts it, the parsed category is not empty and holds no white
    space, the keyword holds no line terminator and is trimmed, and the
    trimmed query is the at sign (of either width), the category, a run
    of white space and the keyword, in that order; when it does not,
    [parseCategorySearch] answers the empty category and the query as it
    was given. *)
Theorem parseCategorySearch_reassembles (q : jsstr) :
  if isCategorySearch q then
    p_category (parseCategorySearch q) <> []
    /\ forallb not_ws (p_category (parseCategorySearch q)) = true
    /\ forallb is_dot (p_keyword (parseCategorySearch q)) = true
    /\ trim (p_keyword (parseCategorySearch q)) = p_keyword (parseCategorySearch q)
    /\ exists a sep,
         is_at a = true /\ forallb is_ws sep = true
         /\ trim q = a :: p_category (parseCategorySearch q) ++ sep
                       ++ p_keyword (parseCategorySearch q)
  else parseCategorySearch q = mkParsed [] q.
Proof.
  destruct (isCategorySearch q) eqn:Hcat.
  - unfold isCategorySearch in Hcat.
    destruct (match_here CATEGORY_PREFIX (trim q)) as [[m r]|] eqn:Hm; [|done].
    apply category_prefix_inv in Hm
      as (a & token & sep & rest & Hq & Ha & Htok & Hnws & Hsep & Hsep0 & Hdot & Hrest).
    destruct (parseCategorySearch_shape q a token sep rest) as [_ ->]; try done.
    cbn [p_category p_keyword].
    split; [done|]. split; [done|]. split; [done|]. split; [|by exists a, sep].
    destruct rest as [|c rest]; [done|].
    unfold trim at 1. rewrite trimStart_id by exact Hrest.
    apply (trimEnd_suffix (trimStart q) (a :: token ++ sep)); [|done].
    fold (trim q). rewrite Hq. simpl. by rewrite <- app_assoc.
  - unfold isCategorySearch in Hcat. unfold parseCategorySearch.
    by destruct (match_here CATEGORY_PREFIX (trim q)) as [[m r]|].
Qed.

(** *** The history prefix *)

Lemma history_prefix_match (s : jsstr) :
  match_here HISTORY_PREFIX s =
  match s with
  | c :: rest => if is_bang c then Some ([], rest) else None
  | [] => None
  end.
Proof. by destruct s. Qed.

Lemma is_bang_not_ws (c : N) : is_bang c = true -> is_ws c = false.
Proof.
  unfold is_bang. intros [H|H]%orb_true_iff; apply N.eqb_eq in H; by subst.
Qed.

Lemma is_bang_not_at (c : N) : is_bang c = true -> is_at c = false.
Proof.
  unfold is_bang. intros [H|H]%orb_true_iff; apply N.eqb_eq in H; by subst.
Qed.

Lemma is_ws_not_bang (c : N) : is_ws c = true -> is_bang c = false.
Proof.
  intros Hw. destruct (is_bang c) eqn:Hb; [|done].
  apply is_bang_not_ws in Hb. congruence.
Qed.

Lemma history_not_category (q : jsstr) :
  isHistorySearch q && isCategorySearch q = false.
Proof.
  unfold isHistorySearch, isCategorySearch. rewrite history_prefix_match.
  destruct (trim q) as [|c rest]; [done|].
  destruct (is_bang c) eqn:Hb; [|done]. simpl.
  unfold match_here, CATEGORY_PREFIX. cbn [rmatch].
  by rewrite (is_bang_not_at c Hb).
Qed.

(** X7. No query is both a history search and a category
    search.  A query that starts with an exclamation mark (of either
    width) is a history search, and [extractHistoryQuery] returns what
    follows the mark, trimmed.  Leading white space does not change what
    [isHistorySearch] answers, but then [extractHistoryQuery] only trims
    and the mark stays in the text.  A query that is no history search
    is returned trimmed. *)
Theorem history_prefix_handling :
  (forall q, isHistorySearch q && isCategorySearch q = false)
  /\ (forall c rest, is_bang c = true ->
        isHistorySearch (c :: rest) = true
        /\ extractHistoryQuery (c :: rest) = trim rest)
  /\ (forall w q, is_ws w = true ->
        isHistorySearch (w :: q) = isHistorySearch q
        /\ extractHistoryQuery (w :: q) = trim q)
  /\ (forall q, isHistorySearch q = false -> extractHistoryQuery q = trim q).
Proof.
  split; [exact history_not_category|]. split; [|split].
  - intros c rest Hb. unfold isHistorySearch, extractHistoryQuery.
    rewrite trim_cons_not_ws by (by apply is_bang_not_ws).
    rewrite !history_prefix_match, Hb. done.
  - intros w q Hw. unfold isHistorySearch, extractHistoryQuery.
    rewrite (history_prefix_match (w :: q)), (is_ws_not_bang w Hw).
    by rewrite trim_cons_ws.
  - intros q. unfold isHistorySearch, extractHistoryQuery.
    rewrite !history_prefix_match.
    destruct q as [|c rest]; [done|].
    destruct (is_bang c) eqn:Hb; [|done].
    rewrite trim_cons_not_ws by (by apply is_bang_not_ws). by rewrite Hb.
Qed.

End QueryProps.

Module RankingProps.
Import JS Types Engine JSProps EngineProps.

Lemma map_set_In (k : Z) (v : SearchResult) (m : ResultMap) (e : Z * SearchResult) :
  In e (map_set k v m) -> e = (k, v) \/ In e m.
Proof.
  induction m as [|[k' v'] m IH]; simpl.
  - intros [<-|[]]. by left.
  - destruct (k' =? k).
    + intros [<-|H]; [by left|right; by right].
    + intros [<-|H]; [right; by left|].
      destruct (IH H) as [?|?]; [by left|right; by right].
Qed.

Lemma map_get_In (k : Z) (r : SearchResult) (m : ResultMap) :
  map_get k m = Some r -> In (k, r) m.
Proof.
  induction m as [|[k' v'] m IH]; simpl; [done|].
  destruct (Z.eqb_spec k' k) as [->|Hne].
  - intros [= ->]. by left.
  - intros H. right. by apply IH.
Qed.

Lemma In_map_get (k : Z) (r : SearchResult) (m : ResultMap) :
  NoDup (List.map fst m) -> In (k, r) m -> map_get k m = Some r.
Proof.
  induction m as [|[k' v'] m IH]; simpl; [done|].
  intros Hnd [Heq|Hin]; apply NoDup_cons in Hnd as [Hnotin Hnd].
  - injection Heq as -> ->. by rewrite Z.eqb_refl.
  - destruct (Z.eqb_spec k' k) as [->|Hne]; [|by apply IH].
    exfalso. apply Hnotin. apply list_elem_of_In.
    apply in_map_iff. by exists (k, r).
Qed.

Section Ranking.
Variable toLowerCase : jsstr -> jsstr.
Variable pinyinMatch : jsstr -> jsstr -> option bool.
Variable frecencySort : jsstr -> list FrecencyItem -> option (list FrecencyItem).

Local Abbreviation search := (Engine.search toLowerCase pinyinMatch frecencySort).
Local Abbreviation sortByFrecency := (Engine.sortByFrecency toLowerCase frecencySort).
Local Abbreviation strategy_matches := (Engine.strategy_matches toLowerCase pinyinMatch).
Local Abbreviation strategyLoop := (Engine.strategyLoop toLowerCase pinyinMatch).
Local Abbreviation strategyPhase := (Engine.strategyPhase toLowerCase pinyinMatch).
Local Abbreviation phase_step := (Engine.phase_step toLowerCase pinyinMatch).
Local Abbreviation filteredIndex := (Engine.filteredIndex toLowerCase).
Local Abbreviation results := (Engine.results toLowerCase pinyinMatch).
Local Abbreviation sortedResults := (Engine.sortedResults toLowerCase pinyinMatch).

(** [search], in terms of its local values. *)
Lemma search_unfold (st : EngineState) (options : SearchOptions) :
  search st options =
  if (length (query options) =? 0)%nat || (length (trim (query options)) =? 0)%nat then []
  else if isCategorySearch (query options)
          && (length (effectiveQuery (query options)) =? 0)%nat then
    List.map (fun b => Some (categoryResult b))
      (slice0 (default 20 (limit options))
         (stable_sort compareCategory (filteredIndex st (query options))))
  else
    List.map Some (List.filter (fun r => isPinned (base (bookmark r)))
                     (sortedResults st options))
    ++ sortByFrecency
         (if (length (effectiveQuery (query options)) =? 0)%nat then query options
          else effectiveQuery (query options))
         (List.filter (fun r => negb (isPinned (base (bookmark r))))
            (sortedResults st options)).
Proof.
  unfold Engine.search, Engine.sortedResults, Engine.results, Engine.filteredIndex,
    effectiveQuery.
  destruct (_ || _); [done|].
  destruct (isCategorySearch (query options)); reflexivity.
Qed.

Lemma phase_fold_In q st ss (l : list BookmarkWithDetails) (m : ResultMap) k r :
  In (k, r) (fold_left (phase_step q st ss) l m) ->
  In (k, r) m
  \/ exists b, In b l /\ k = id (base b)
               /\ strategyLoop q st (length ss) b O ss = Some r.
Proof.
  revert m. induction l as [|b l IH]; intros m H; simpl in H; [by left|].
  apply IH in H as [H|(b' & Hb' & Hk & Hr)].
  - unfold Engine.phase_step in H.
    destruct (strategyLoop q st (length ss) b O ss) as [bm|] eqn:Hloop; [|by left].
    apply map_set_In in H as [[= -> ->]|H]; [|by left].
    right. exists b. split; [by left|done].
  - right. exists b'. split; [by right|done].
Qed.

Lemma fuzzy_fold_In base_score (hits : list FuseResult) (m : ResultMap) k r :
  In (k, r) (fold_left (add_fuzzy base_score) hits m) ->
  In (k, r) m
  \/ exists hit, In hit hits /\ k = id (base (item hit))
                 /\ r = mkResult (item hit) (adjustedScore base_score hit) MT_fuzzy MF_fuzzy.
Proof.
  revert m. induction hits as [|h hits IH]; intros m H; simpl in H; [by left|].
  apply IH in H as [H|(hit & Hhit & Hk & Hr)].
  - unfold add_fuzzy in H. destruct (negb _); [|by left].
    apply map_set_In in H as [[= -> ->]|H]; [|by left].
    right. exists h. split; [by left|done].
  - right. exists hit. split; [by right|done].
Qed.

(** Where an entry of [results] comes from. *)
Lemma results_origin (st : EngineState) (options : SearchOptions) k r :
  In (k, r) (results st options) ->
  let q := effectiveQuery (query options) in
  let enabledStrategies := Config.getEnabledStrategies (activeStrategies st) in
  (exists b i s,
     In b (filteredIndex st (query options)) /\ k = id (base b)
     /\ enabledStrategies !! i = Some s
     /\ eligible (default ST_default (searchType options)) s = true
     /\ strategy_matches q b s = true
     /\ r = best_match b i (length enabledStrategies) s)
  \/ (exists f n hit,
        fuseInstance st = Some f /\ In hit (f q n) /\ k = id (base (item hit))
        /\ existsb is_fuzzy enabledStrategies = true
        /\ r = mkResult (item hit) (adjustedScore (fuzzyBaseScore enabledStrategies) hit)
                 MT_fuzzy MF_fuzzy).
Proof.
  intros H q ss. unfold Engine.results, fuzzyPhase in H. fold q ss in H.
  set (m := strategyPhase q _ ss _) in *.
  assert (In (k, r) m ->
          exists b i s,
            In b (filteredIndex st (query options)) /\ k = id (base b)
            /\ ss !! i = Some s
            /\ eligible (default ST_default (searchType options)) s = true
            /\ strategy_matches q b s = true
            /\ r = best_match b i (length ss) s) as Hphase.
  { intros Hin. apply phase_fold_In in Hin as [[]|(b & Hb & Hk & Hloop)].
    apply strategyLoop_some in Hloop as (j & s & Hs & Hel & Hm & Hr).
    exists b, j, s. done. }
  destruct (fuseInstance st) as [f|] eqn:Hf; [|left; by apply Hphase].
  destruct (_ && _ && _) eqn:Hc; [|left; by apply Hphase].
  apply fuzzy_fold_In in H as [H|(hit & Hhit & Hk & Hr)]; [left; by apply Hphase|].
  right. exists f, (default 20 (limit options) - Z.of_nat (length m)), hit.
  apply andb_true_iff in Hc as [Hc _]. apply andb_true_iff in Hc as [_ Hfz].
  done.
Qed.


Lemma slice0_In {A} (limit : Z) (l : list A) (x : A) : In x (slice0 limit l) -> In x l.
Proof.
  destruct (slice0_prefix limit l) as [n ->]. intros H.
  apply list_elem_of_In. apply (subseteq_take n l). by apply list_elem_of_In.
Qed.

Lemma search_member (st : EngineState) (options : SearchOptions) (r : SearchResult) :
  In (Some r) (search st options) ->
  (isCategorySearch (query options) = true
   /\ effectiveQuery (query options) = []
   /\ exists b, In b (filteredIndex st (query options)) /\ r = categoryResult b)
  \/ (effectiveQuery (query options) <> [] /\ exists k, In (k, r) (results st options)).
Proof.
  rewrite search_unfold. destruct (_ || _) eqn:Hblank; [done|].
  destruct (isCategorySearch (query options)) eqn:Hcat; cbn [andb].
  - destruct (effectiveQuery (query options)) as [|c e] eqn:He; cbn [length Nat.eqb].
    + intros (b & [= <-] & Hb)%in_map_iff. left. split; [done|]. split; [done|].
      exists b. split; [|done].
      apply slice0_In in Hb. revert Hb. apply Permutation_in, stable_sort_perm.
    + intros H. right. split; [done|].
      assert (In r (sortedResults st options)) as Hr.
      { apply in_app_or in H as [H|H].
        - apply in_map_iff in H as (r' & [= ->] & H). by apply filter_In in H as [H _].
        - apply sortByFrecency_from_input in H. by apply filter_In in H as [H _]. }
      unfold Engine.sortedResults in Hr. apply slice0_In in Hr.
      apply (Permutation_in _ (stable_sort_perm _ _)) in Hr.
      unfold map_values in Hr. apply in_map_iff in Hr as ([k r'] & <- & Hr). by exists k.
  - intros H. right.
    assert (effectiveQuery (query options) = query options) as He
      by (unfold effectiveQuery; by rewrite Hcat).
    split.
    { rewrite He. intros Hq. by rewrite Hq in Hblank. }
    assert (In r (sortedResults st options)) as Hr.
    { apply in_app_or in H as [H|H].
      - apply in_map_iff in H as (r' & [= ->] & H). by apply filter_In in H as [H _].
      - apply sortByFrecency_from_input in H. by apply filter_In in H as [H _]. }
    unfold Engine.sortedResults in Hr. apply slice0_In in Hr.
    apply (Permutation_in _ (stable_sort_perm _ _)) in Hr.
    unfold map_values in Hr. apply in_map_iff in Hr as ([k r'] & <- & Hr). by exists k.
Qed.


(** X8. Every result of [search] is accounted for.  With an empty
    effective query it is the category listing of a bookmark of the
    filtered index.  Otherwise it is either a bookmark of the filtered
    index together with an enabled, eligible strategy that matches it,
    scored by the position of that strategy, or a hit of the fuzzy index
    with the adjusted fuzzy score, and this only when a fuzzy strategy is
    enabled. *)
Theorem search_sound (st : EngineState) (options : SearchOptions) (r : SearchResult)
    (Hr : In (Some r) (search st options)) :
  let q := effectiveQuery (query options) in
  let enabledStrategies := Config.getEnabledStrategies (activeStrategies st) in
  (q = [] /\ In (bookmark r) (filteredIndex st (query options))
   /\ r = categoryResult (bookmark r))
  \/ (q <> [] /\ In (bookmark r) (filteredIndex st (query options))
      /\ exists i s,
           enabledStrategies !! i = Some s
           /\ eligible (default ST_default (searchType options)) s = true
           /\ strategy_matches q (bookmark r) s = true
           /\ r = best_match (bookmark r) i (length enabledStrategies) s)
  \/ (q <> [] /\ existsb is_fuzzy enabledStrategies = true
      /\ exists f n hit,
           fuseInstance st = Some f /\ In hit (f q n)
           /\ r = mkResult (item hit)
                    (adjustedScore (fuzzyBaseScore enabledStrategies) hit)
                    MT_fuzzy MF_fuzzy).
Proof.
  intros q ss.
  apply search_member in Hr as [(_ & Hq & b & Hb & ->)|(Hq & k & Hk)].
  - left. done.
  - apply results_origin in Hk
      as [(b & i & s & Hb & _ & Hs & Hel & Hm & ->)|(f & n & hit & Hf & Hhit & _ & Hfz & ->)].
    + right. left. split; [done|]. split; [done|]. by exists i, s.
    + right. right. split; [done|]. split; [done|]. by exists f, n, hit.
Qed.

(** *** The size of the result list *)

Lemma slice0_length {A} (limit : Z) (l : list A) :
  0 <= limit -> Z.of_nat (length (slice0 limit l)) <= limit.
Proof.
  intros Hl. unfold slice0. destruct (Z.ltb_spec limit 0); [lia|].
  rewrite length_take. lia.
Qed.

Lemma filter_partition_length {A} (p : A -> bool) (l : list A) :
  (length (List.filter p l) + length (List.filter (fun x => negb (p x)) l))%nat = length l.
Proof.
  induction l as [|x l IH]; [done|]. simpl. destruct (p x); simpl; lia.
Qed.

Lemma sortByFrecency_length (q : jsstr) (l : list SearchResult) :
  (forall nq items out, frecencySort nq items = Some out ->
                        (length out <= length items)%nat) ->
  (length (sortByFrecency q l) <= length l)%nat.
Proof.
  intros Hfrec. unfold Engine.sortByFrecency.
  destruct (_ || _); [by rewrite length_map|].
  destruct (frecencySort _ _) as [out|] eqn:Hout; [|by rewrite length_map].
  rewrite length_map. apply Hfrec in Hout.
  unfold frecencyItems in Hout. by rewrite length_imap in Hout.
Qed.

(** X9. [search] returns at most [limit] results, 20 when no
    limit is given, provided the limit is not negative and the frecency
    library returns no more items than it was handed. *)
Theorem search_within_limit (st : EngineState) (options : SearchOptions)
    (Hfrec : forall nq items out, frecencySort nq items = Some out ->
                                  (length out <= length items)%nat)
    (Hlimit : 0 <= default 20 (limit options)) :
  Z.of_nat (length (search st options)) <= default 20 (limit options).
Proof.
  rewrite search_unfold. destruct (_ || _); [simpl; lia|].
  destruct (_ && _).
  - rewrite length_map. by apply slice0_length.
  - rewrite length_app, length_map.
    pose proof (sortByFrecency_length
                  (if (length (effectiveQuery (query options)) =? 0)%nat
                   then query options else effectiveQuery (query options))
                  (List.filter (fun r => negb (isPinned (base (bookmark r))))
                     (sortedResults st options)) Hfrec) as Hn.
    pose proof (filter_partition_length (fun r => isPinned (base (bookmark r)))
                  (sortedResults st options)) as Hp.
    pose proof (slice0_length (default 20 (limit options))
                  (stable_sort compareResults (map_values (results st options))) Hlimit) as Hs.
    fold (sortedResults st options) in Hs. lia.
Qed.


(** *** Frecency re-ranking *)

Lemma frecencyItems_nth (pre l : list SearchResult) :
  List.map (fun it => nth_error (pre ++ l) (originalIndex it))
    (imap (fun i r => mkItem (id (base (bookmark r))) (length pre + i)) l)
  = List.map Some l.
Proof.
  revert pre. induction l as [|x l IH]; intros pre; [done|].
  cbn [imap List.map originalIndex]. f_equal.
  - rewrite Nat.add_0_r, nth_error_app2 by lia. by rewrite Nat.sub_diag.
  - specialize (IH (pre ++ [x])). rewrite <- app_assoc in IH. cbn [app] in IH.
    rewrite <- IH. f_equal. apply imap_ext. intros i r _. cbn.
    f_equal. rewrite length_app. simpl. lia.
Qed.

Lemma frecencyItems_lookup (l : list SearchResult) :
  List.map (fun it => nth_error l (originalIndex it)) (frecencyItems l) = List.map Some l.
Proof. exact (frecencyItems_nth [] l). Qed.

(** X10. When the frecency library only permutes the
    items it is handed, [sortByFrecency] returns a permutation of the
    results with no [undefined] entry; it returns the results unchanged
    when the library throws and when the trimmed, lower-cased query is
    empty. *)
Theorem sortByFrecency_reorders (q : jsstr) (l : list SearchResult)
    (Hfrec : forall nq items out, frecencySort nq items = Some out -> Permutation out items) :
  (exists l', sortByFrecency q l = List.map Some l' /\ Permutation l' l)
  /\ (frecencySort (trim (toLowerCase q)) (frecencyItems l) = None ->
      sortByFrecency q l = List.map Some l)
  /\ (trim (toLowerCase q) = [] -> sortByFrecency q l = List.map Some l).
Proof.
  split; [|split].
  2: { unfold Engine.sortByFrecency. intros ->. by destruct (_ || _). }
  2: { unfold Engine.sortByFrecency. by intros ->. }
  unfold Engine.sortByFrecency.
  destruct (_ || _); [by exists l|].
  destruct (frecencySort _ _) as [out|] eqn:Hout; [|by exists l].
  apply Hfrec in Hout.
  assert (Permutation (List.map Some l)
            (List.map (fun it => nth_error l (originalIndex it)) out)) as Hp.
  { rewrite <- frecencyItems_lookup. apply Permutation_map. by symmetry. }
  apply Permutation_sym, Permutation_map_inv in Hp as (l' & Heq & Hp).
  exists l'. split; [done|]. by symmetry.
Qed.


Lemma sortByFrecency_perm (q : jsstr) (l : list SearchResult) :
  (forall nq items out, frecencySort nq items = Some out -> Permutation out items) ->
  exists l', sortByFrecency q l = List.map Some l' /\ Permutation l' l.
Proof.
  intros Hfrec. unfold Engine.sortByFrecency.
  destruct (_ || _); [by exists l|].
  destruct (frecencySort _ _) as [out|] eqn:Hout; [|by exists l].
  apply Hfrec in Hout.
  assert (Permutation (List.map Some l)
            (List.map (fun it => nth_error l (originalIndex it)) out)) as Hp.
  { rewrite <- frecencyItems_lookup. apply Permutation_map. by symmetry. }
  apply Permutation_sym, Permutation_map_inv in Hp as (l' & Heq & Hp).
  exists l'. split; [done|]. by symmetry.
Qed.

(** *** No bookmark twice *)

Local Abbreviation id_of := (fun r : SearchResult => id (base (bookmark r))).

Lemma fuzzy_fold_NoDup base_score (hits : list FuseResult) (m : ResultMap) :
  NoDup (List.map fst m) -> NoDup (List.map fst (fold_left (add_fuzzy base_score) hits m)).
Proof.
  revert m. induction hits as [|h hits IH]; intros m Hm; simpl; [done|].
  apply IH. unfold add_fuzzy. destruct (negb _); [|done]. by apply map_set_NoDup.
Qed.

Lemma results_NoDup (st : EngineState) (options : SearchOptions) :
  NoDup (List.map fst (results st options)).
Proof.
  unfold Engine.results, fuzzyPhase.
  set (m := strategyPhase _ _ _ _).
  assert (NoDup (List.map fst m)) as Hm by (apply phase_fold_NoDup; constructor).
  destruct (fuseInstance st); [|done].
  destruct (_ && _ && _); [|done]. by apply fuzzy_fold_NoDup.
Qed.

Lemma results_keyed (st : EngineState) (options : SearchOptions) :
  List.map id_of (map_values (results st options)) = List.map fst (results st options).
Proof.
  unfold map_values. rewrite List.map_map. apply map_ext_in.
  intros [k r] Hin. cbn.
  apply results_origin in Hin
    as [(b & i & s & _ & -> & _ & _ & _ & ->)|(f & n & hit & _ & _ & -> & _ & ->)]; done.
Qed.

Lemma filter_partition_perm {A} (p : A -> bool) (l : list A) :
  Permutation (List.filter p l ++ List.filter (fun x => negb (p x)) l) l.
Proof.
  induction l as [|x l IH]; [done|]. simpl. destruct (p x); simpl.
  - by constructor.
  - rewrite <- Permutation_middle. by constructor.
Qed.

Lemma NoDup_map_take {A B} (f : A -> B) (n : nat) (l : list A) :
  NoDup (List.map f l) -> NoDup (List.map f (firstn n l)).
Proof.
  revert n. induction l as [|x l IH]; intros n Hnd; [by rewrite firstn_nil|].
  destruct n; [constructor|]. simpl in *.
  apply NoDup_cons in Hnd as [Hnotin Hnd]. apply NoDup_cons. split; [|by apply IH].
  intros Hin. apply Hnotin. apply list_elem_of_In in Hin. apply list_elem_of_In.
  apply in_map_iff in Hin as (y & Hy & Hin). apply in_map_iff. exists y. split; [done|].
  apply list_elem_of_In. apply (subseteq_take n l). by apply list_elem_of_In.
Qed.

(** X11. When the frecency library only permutes its
    items and no bookmark id occurs twice in the index, [search] lists
    no bookmark twice and holds no [undefined] entry. *)
Theorem search_no_duplicates (st : EngineState) (options : SearchOptions)
    (Hfrec : forall nq items out, frecencySort nq items = Some out -> Permutation out items)
    (Hindex : NoDup (List.map (fun b => id (base b)) (searchIndex st))) :
  exists l, search st options = List.map Some l /\ NoDup (List.map id_of l).
Proof.
  rewrite search_unfold. destruct (_ || _); [exists []; split; [done|constructor]|].
  destruct (_ && _).
  - eexists. rewrite <- List.map_map. split; [reflexivity|].
    rewrite List.map_map. cbn.
    destruct (slice0_prefix (default 20 (limit options))
                (stable_sort compareCategory (filteredIndex st (query options)))) as [n ->].
    apply NoDup_map_take.
    rewrite (Permutation_map _ (stable_sort_perm compareCategory _)).
    unfold Engine.filteredIndex. destruct (isCategorySearch _); [|done].
    by apply QueueProps.NoDup_map_filter.
  - set (qf := if (length _ =? 0)%nat then _ else _).
    set (pinned := List.filter _ _). set (normal := List.filter _ _).
    destruct (sortByFrecency_perm qf normal Hfrec) as (l' & -> & Hl').
    exists (pinned ++ l'). rewrite List.map_app. split; [done|].
    assert (Permutation (pinned ++ l') (sortedResults st options)) as Hp.
    { rewrite Hl'. apply filter_partition_perm. }
    rewrite (Permutation_map _ Hp).
    unfold Engine.sortedResults.
    destruct (slice0_prefix (default 20 (limit options))
                (stable_sort compareResults (map_values (results st options)))) as [n ->].
    apply NoDup_map_take.
    rewrite (Permutation_map _ (stable_sort_perm compareResults _)).
    rewrite results_keyed. apply results_NoDup.
Qed.


(** *** The order of the ranked list *)

Lemma Qle_bool_sub (x y : Q) : Qle_bool (x - y) 0 = true <-> (x <= y)%Q.
Proof. rewrite Qle_bool_iff. split; intros H; lra. Qed.

Lemma compareResults_before (a b : SearchResult) :
  before compareResults a b <-> pinned_then_score a b.
Proof.
  unfold before, compareResults, pinned_then_score.
  destruct (isPinned (base (bookmark a))), (isPinned (base (bookmark b))); cbn.
  - rewrite Qle_bool_sub. split; [intros; by right|]. by intros [[_ ?]|[_ ?]].
  - split; [by left|done].
  - split; [done|]. intros [[? _]|[? _]]; done.
  - rewrite Qle_bool_sub. split; [intros; by right|]. by intros [[? _]|[_ ?]].
Qed.

Lemma pinned_then_score_total (a b : SearchResult) :
  pinned_then_score a b \/ pinned_then_score b a.
Proof.
  unfold pinned_then_score.
  destruct (isPinned (base (bookmark a))), (isPinned (base (bookmark b)));
    destruct (Qlt_le_dec (score a) (score b)) as [Hlt%Qlt_le_weak|Hle]; auto.
Qed.

Lemma pinned_then_score_trans (a b c : SearchResult) :
  pinned_then_score a b -> pinned_then_score b c -> pinned_then_score a c.
Proof.
  unfold pinned_then_score.
  intros [[? ?]|[? ?]] [[? ?]|[? ?]];
    destruct (isPinned (base (bookmark a))), (isPinned (base (bookmark b))),
      (isPinned (base (bookmark c)));
    try done; first [by left | right; split; [done|by eapply Qle_trans]].
Qed.

Lemma sortedResults_sorted (st : EngineState) (options : SearchOptions) :
  StronglySorted pinned_then_score (sortedResults st options).
Proof.
  unfold Engine.sortedResults.
  destruct (slice0_prefix (default 20 (limit options))
              (stable_sort compareResults (map_values (results st options)))) as [n ->].
  apply StronglySorted_take.
  eapply StronglySorted_weaken; [|apply (stable_sort_sorted compareResults)].
  - intros a b. apply compareResults_before.
  - intros a b. rewrite !compareResults_before. apply pinned_then_score_total.
  - intros a b c. rewrite !compareResults_before. apply pinned_then_score_trans.
Qed.

Lemma StronglySorted_filter {A} (R : A -> A -> Prop) (p : A -> bool) (l : list A) :
  StronglySorted R l -> StronglySorted R (List.filter p l).
Proof.
  induction 1 as [|x l Hl IH Hx]; simpl; [constructor|].
  destruct (p x); [|done]. constructor; [done|].
  apply Forall_forall. intros y Hy. apply list_elem_of_In, filter_In in Hy as [Hy _].
  apply (proj1 (Forall_forall _ _) Hx). by apply list_elem_of_In.
Qed.

(** X12. Of two pinned results that [search] returns, the
    earlier one has a score at least that of the later one, whatever the
    frecency library does. *)
Theorem pinned_group_by_score
    (st : EngineState) (options : SearchOptions) (i j : nat) (a b : SearchResult)
    (Hij : (i < j)%nat)
    (Hi : search st options !! i = Some (Some a))
    (Hj : search st options !! j = Some (Some b))
    (Ha : isPinned (base (bookmark a)) = true)
    (Hb : isPinned (base (bookmark b)) = true) :
  (score b <= score a)%Q.
Proof.
  rewrite search_unfold in Hi, Hj. destruct (_ || _); [done|].
  destruct (_ && _).
  - rewrite list_lookup_fmap in Hi, Hj.
    destruct (_ !! i) as [x|]; [|done]. destruct (_ !! j) as [y|]; [|done].
    injection Hi as <-. injection Hj as <-. cbn. apply Qle_refl.
  - set (qf := if (length _ =? 0)%nat then _ else _) in *.
    set (pinned := List.filter (fun r => isPinned (base (bookmark r))) _) in *.
    set (normal := List.filter (fun r => negb _) _) in *.
    assert (forall n r, (List.map Some pinned ++ sortByFrecency qf normal) !! n = Some (Some r) ->
                        isPinned (base (bookmark r)) = true -> pinned !! n = Some r) as Hpin.
    { intros n r Hn Hr.
      destruct (Nat.lt_ge_cases n (length (List.map Some pinned))) as [Hlt|Hge].
      - rewrite lookup_app_l in Hn by done. rewrite list_lookup_fmap in Hn.
        destruct (pinned !! n); [|done]. by injection Hn as ->.
      - rewrite lookup_app_r in Hn by done.
        apply list_elem_of_lookup_2, list_elem_of_In, sortByFrecency_from_input in Hn.
        apply filter_In in Hn as [_ Hn]. cbn beta in Hn. by rewrite Hr in Hn. }
    apply Hpin in Hi; [|done]. apply Hpin in Hj; [|done].
    assert (pinned_then_score a b) as [[_ ?]|[_ ?]]; [|congruence|done].
    apply (StronglySorted_lookup _ pinned i j); [|done|done|done].
    apply StronglySorted_filter, sortedResults_sorted.
Qed.

Lemma sorted_partition (l : list SearchResult) :
  StronglySorted pinned_then_score l ->
  List.filter (fun r => isPinned (base (bookmark r))) l
  ++ List.filter (fun r => negb (isPinned (base (bookmark r)))) l = l.
Proof.
  induction 1 as [|x l Hl IH Hx]; [done|]. simpl.
  destruct (isPinned (base (bookmark x))) eqn:Hp; simpl; [by rewrite IH|].
  assert (Forall (fun y => isPinned (base (bookmark y)) = false) l) as Hall.
  { eapply Forall_impl; [exact Hx|]. intros y [[H _]|[H _]]; [rewrite Hp in H; discriminate H | rewrite <- H; exact Hp]. }
  clear IH Hx Hl.
  assert (List.filter (fun r => isPinned (base (bookmark r))) l = []
          /\ List.filter (fun r => negb (isPinned (base (bookmark r)))) l = l) as [-> ->].
  { induction Hall as [|y l Hy _ [IH1 IH2]]; [done|]. simpl. rewrite Hy. simpl.
    split; [done|by f_equal]. }
  done.
Qed.

(** X13. When the frecency library hands the
    items back as it got them, a search with a non-blank query whose
    effective query is not empty returns the ranked list as it is:
    pinned results first, then by score, highest first. *)
Theorem search_order_without_frecency (st : EngineState) (options : SearchOptions)
    (Hfrec : forall nq items out, frecencySort nq items = Some out -> out = items)
    (Hblank : trim (query options) <> [])
    (Hq : effectiveQuery (query options) <> []) :
  search st options = List.map Some (sortedResults st options)
  /\ StronglySorted pinned_then_score (sortedResults st options).
Proof.
  split; [|apply sortedResults_sorted].
  rewrite search_unfold.
  assert ((length (query options) =? 0)%nat || (length (trim (query options)) =? 0)%nat
          = false) as ->.
  { destruct (query options); [done|]. destruct (trim _); done. }
  assert ((length (effectiveQuery (query options)) =? 0)%nat = false) as ->
    by (by destruct (effectiveQuery _)).
  rewrite andb_false_r.
  set (normal := List.filter (fun r => negb _) _).
  assert (sortByFrecency (effectiveQuery (query options)) normal = List.map Some normal) as ->.
  { unfold Engine.sortByFrecency. destruct (_ || _); [done|].
    destruct (frecencySort _ _) as [out|] eqn:Hout; [|done].
    apply Hfrec in Hout. subst out. apply frecencyItems_lookup. }
  rewrite <- List.map_app. f_equal. apply sorted_partition, sortedResults_sorted.
Qed.


(** *** Nothing that matches is lost *)

Lemma slice0_all {A} (limit : Z) (l : list A) :
  Z.of_nat (length l) <= limit -> slice0 limit l = l.
Proof.
  intros Hl. unfold slice0. destruct (Z.ltb_spec limit 0); [lia|].
  apply firstn_all2. lia.
Qed.

Lemma fuzzyPhase_keeps fuse q limit ss (m : ResultMap) k r :
  map_get k m = Some r -> map_get k (fuzzyPhase fuse q limit ss m) = Some r.
Proof.
  intros Hm. unfold fuzzyPhase. destruct fuse; [|done].
  destruct (_ && _ && _); [|done]. by apply add_fuzzy_keeps.
Qed.

(** X14. For a non-blank query whose effective query is not empty, a
    bookmark of the filtered index that an enabled, eligible strategy
    matches is in the results of [search], with the score of the first
    such strategy, when all results fit under the limit, the frecency
    library only permutes, and no bookmark id occurs twice in the
    index. *)
Theorem search_complete
    (st : EngineState) (options : SearchOptions) (b : BookmarkWithDetails)
    (i : nat) (s : Config.SearchStrategy)
    (Hfrec : forall nq items out, frecencySort nq items = Some out -> Permutation out items)
    (Hindex : NoDup (List.map (fun b => id (base b)) (searchIndex st)))
    (Hblank : trim (query options) <> [])
    (Hq : effectiveQuery (query options) <> [])
    (Hroom : Z.of_nat (length (results st options)) <= default 20 (limit options))
    (Hb : In b (filteredIndex st (query options)))
    (Hs : Config.getEnabledStrategies (activeStrategies st) !! i = Some s)
    (Hel : eligible (default ST_default (searchType options)) s = true)
    (Hm : strategy_matches (effectiveQuery (query options)) b s = true)
    (Hfirst : forall j s', (j < i)%nat ->
       Config.getEnabledStrategies (activeStrategies st) !! j = Some s' ->
       eligible (default ST_default (searchType options)) s'
       && strategy_matches (effectiveQuery (query options)) b s' = false) :
  In (Some (best_match b i (length (Config.getEnabledStrategies (activeStrategies st))) s))
    (search st options).
Proof.
  set (ss := Config.getEnabledStrategies (activeStrategies st)) in *.
  set (r := best_match b i (length ss) s).
  assert (In r (sortedResults st options)) as Hr.
  { unfold Engine.sortedResults. rewrite slice0_all.
    2: { rewrite (Permutation_length (stable_sort_perm compareResults _)).
         unfold map_values. by rewrite length_map. }
    apply (Permutation_in _ (Permutation_sym (stable_sort_perm compareResults _))).
    unfold map_values. apply in_map_iff. exists (id (base b), r). split; [done|].
    apply map_get_In. unfold Engine.results. apply fuzzyPhase_keeps.
    unfold Engine.strategyPhase. rewrite phase_fold_get; [|
      unfold Engine.filteredIndex; destruct (isCategorySearch _);
        [by apply QueueProps.NoDup_map_filter|done] | done].
    fold ss. by rewrite (strategyLoop_first _ _ _ _ _ _ ss O i s). }
  rewrite search_unfold.
  assert ((length (query options) =? 0)%nat || (length (trim (query options)) =? 0)%nat
          = false) as ->.
  { destruct (query options); [done|]. destruct (trim _); done. }
  assert ((length (effectiveQuery (query options)) =? 0)%nat = false) as ->
    by (by destruct (effectiveQuery _)).
  rewrite andb_false_r. apply in_or_app.
  destruct (isPinned (base (bookmark r))) eqn:Hp.
  - left. apply in_map. apply filter_In. done.
  - right.
    destruct (sortByFrecency_perm (effectiveQuery (query options))
                (List.filter (fun r => negb (isPinned (base (bookmark r))))
                   (sortedResults st options)) Hfrec) as (l' & -> & Hl').
    apply in_map. apply (Permutation_in _ (Permutation_sym Hl')).
    apply filter_In. by rewrite Hp.
Qed.

End Ranking.

(** *** History mode *)

Lemma StronglySorted_imap {A B} (R : A -> A -> Prop) (R' : B -> B -> Prop)
      (f : nat -> A -> B) (l : list A) :
  (forall i j a b, R a b -> R' (f i a) (f j b)) ->
  StronglySorted R l -> StronglySorted R' (imap f l).
Proof.
  intros Hf Hl. revert f Hf.
  induction Hl as [|x l Hl IH Hx]; intros f Hf; [constructor|].
  cbn [imap]. constructor.
  - apply IH. intros i j a b. apply Hf.
  - apply Forall_forall. intros y (i & a & -> & Ha)%elem_of_lookup_imap.
    apply Hf. apply (proj1 (Forall_forall _ _) Hx). by eapply list_elem_of_lookup_2.
Qed.

(** X15. [searchHistory] returns the items of the
    history API, each once, by descending score, the score being the
    time of the last visit (0 when it is missing); when the API call
    rejects, the result is empty. *)
Theorem searchHistory_recent_first
    (historySearch : jsstr -> Z -> option (list HistoryItem)) (now : nat -> Q)
    (rawQuery : jsstr) (limit : option Z) :
  StronglySorted (fun a b => (hr_score b <= hr_score a)%Q)
    (searchHistory historySearch now rawQuery limit)
  /\ match historySearch (extractHistoryQuery rawQuery) (default 100 limit) with
     | Some historyItems =>
         Permutation (List.map hr_id (searchHistory historySearch now rawQuery limit))
           (List.map h_id historyItems)
     | None => searchHistory historySearch now rawQuery limit = []
     end.
Proof.
  unfold searchHistory.
  destruct (historySearch _ _) as [items|]; [|split; [constructor|done]].
  split.
  - apply (StronglySorted_imap (before compareHistory)).
    + intros i j a b Hab. cbn. unfold before, compareHistory in Hab.
      by apply Qle_bool_sub in Hab.
    + apply stable_sort_sorted.
      * intros a b. unfold before, compareHistory. rewrite !Qle_bool_sub.
        destruct (Qlt_le_dec (num_or 0 (lastVisitTime a)) (num_or 0 (lastVisitTime b)))
          as [Hlt%Qlt_le_weak|Hle]; auto.
      * intros a b c. unfold before, compareHistory. rewrite !Qle_bool_sub.
        intros H1 H2. by eapply Qle_trans.
  - rewrite <- (Permutation_map h_id (stable_sort_perm compareHistory items)).
    generalize (stable_sort compareHistory items). intros l.
    assert (forall f : nat -> Q,
              List.map hr_id (imap (fun i item => historyResult (f i) item) l)
              = List.map h_id l) as ->; [|done].
    induction l as [|x l IH]; intros f; [done|]. cbn [imap List.map]. f_equal.
    apply (IH (f ∘ S)).
Qed.

(** *** The theorems above on the three-bookmark scenario *)

Lemma keep_order_reorders nq items out :
  Examples.keep_order nq items = Some out -> Permutation out items.
Proof. intros [= <-]. reflexivity. Qed.

Lemma abc_index_NoDup :
  NoDup (List.map (fun b => id (base b)) (searchIndex Examples.abc_state)).
Proof. apply (bool_decide_unpack _). vm_compute. reflexivity. Qed.

Lemma search_sound_witness :
  exists i s,
    Config.getEnabledStrategies (activeStrategies Examples.abc_state) !! i = Some s
    /\ Config.id s = "url_exact"%string.
Proof.
  destruct (search_sound lower_ascii Examples.no_pinyin Examples.keep_order
              Examples.abc_state Examples.react
              (mkResult Examples.bmC (Config.calculateScore 1 2) MT_exact
                 (MF_field Config.F_url)))
    as [(Hq & _)|[(_ & _ & i & s & Hs & _ & _ & Hr)|(_ & Hfz & _)]].
  - vm_compute. right. right. left. reflexivity.
  - discriminate Hq.
  - exists i, s. split; [exact Hs|].
    destruct i as [|[|i]]; vm_compute in Hs; [| |discriminate Hs].
    + injection Hs as <-. vm_compute in Hr. discriminate Hr.
    + injection Hs as <-. reflexivity.
  - vm_compute in Hfz. discriminate Hfz.
Defined.

Lemma search_within_limit_witness :
  Z.of_nat (length (Engine.search lower_ascii Examples.no_pinyin Examples.keep_order
                      Examples.abc_state Examples.react)) <= 20.
Proof.
  apply (search_within_limit lower_ascii Examples.no_pinyin Examples.keep_order
           Examples.abc_state Examples.react).
  - intros nq items out [= <-]. lia.
  - simpl. lia.
Defined.

Lemma sortByFrecency_reorders_witness :
  exists l', Engine.sortByFrecency lower_ascii Examples.keep_order (lit "react")
               [mkResult Examples.bmA 100 MT_exact (MF_field Config.F_title)]
             = List.map Some l'
             /\ Permutation l' [mkResult Examples.bmA 100 MT_exact (MF_field Config.F_title)].
Proof.
  apply (sortByFrecency_reorders lower_ascii Examples.keep_order (lit "react")
           [mkResult Examples.bmA 100 MT_exact (MF_field Config.F_title)]).
  intros nq items out [= <-]. reflexivity.
Defined.

Lemma search_no_duplicates_witness :
  exists l,
    Engine.search lower_ascii Examples.no_pinyin Examples.keep_order
      Examples.abc_state Examples.react = List.map Some l
    /\ NoDup (List.map (fun r => id (base (bookmark r))) l).
Proof.
  apply (search_no_duplicates lower_ascii Examples.no_pinyin Examples.keep_order
           Examples.abc_state Examples.react).
  - intros nq items out [= <-]. reflexivity.
  - apply (bool_decide_unpack _). vm_compute. reflexivity.
Defined.

Lemma pinned_group_by_score_witness :
  (Config.calculateScore 1 2 <= Config.calculateScore 0 2)%Q.
Proof.
  apply (pinned_group_by_score lower_ascii Examples.no_pinyin Examples.keep_order
           Examples.abcd_state Examples.react 0 1
           (mkResult Examples.bmB (Config.calculateScore 0 2) MT_exact
              (MF_field Config.F_title))
           (mkResult Examples.bmD (Config.calculateScore 1 2) MT_exact
              (MF_field Config.F_url))).
  - lia.
  - vm_compute. reflexivity.
  - vm_compute. reflexivity.
  - reflexivity.
  - reflexivity.
Defined.

Lemma search_order_without_frecency_witness :
  Engine.search lower_ascii Examples.no_pinyin Examples.keep_order
    Examples.abcd_state Examples.react
  = List.map Some (Engine.sortedResults lower_ascii Examples.no_pinyin
                     Examples.abcd_state Examples.react).
Proof.
  apply (search_order_without_frecency lower_ascii Examples.no_pinyin Examples.keep_order
           Examples.abcd_state Examples.react).
  - intros nq items out [= <-]. reflexivity.
  - vm_compute. discriminate.
  - vm_compute. discriminate.
Defined.

Lemma search_complete_witness :
  In (Some (best_match Examples.bmC 1 2
              (Config.mkStrategy "url_exact" Config.F_url Config.exact true
                 "URL (Case-insensitive)" "URL（忽略大小写）")))
    (Engine.search lower_ascii Examples.no_pinyin Examples.keep_order
       Examples.abc_state Examples.react).
Proof.
  apply (search_complete lower_ascii Examples.no_pinyin Examples.keep_order
           Examples.abc_state Examples.react Examples.bmC 1).
  - intros nq items out [= <-]. reflexivity.
  - apply (bool_decide_unpack _). vm_compute. reflexivity.
  - vm_compute. discriminate.
  - vm_compute. discriminate.
  - apply Z.leb_le. vm_compute. reflexivity.
  - vm_compute. right. right. left. reflexivity.
  - vm_compute. reflexivity.
  - vm_compute. reflexivity.
  - vm_compute. reflexivity.
  - intros j s' Hj Hs'. destruct j as [|j]; [|lia].
    vm_compute in Hs'. injection Hs' as <-. vm_compute. reflexivity.
Defined.

End RankingProps.

Module DetectorProps.
Import JS Garbled JSProps GarbledProps QueryProps.

(** *** Padding *)

Lemma trimStart_app_ws (pre x : jsstr) :
  forallb is_ws pre = true -> trimStart (pre ++ x) = trimStart x.
Proof.
  induction pre as [|c pre IH]; simpl; [done|].
  intros [Hc Hpre]%andb_true_iff. rewrite Hc. by apply IH.
Qed.

Lemma trimStart_all_ws (s : jsstr) : forallb is_ws s = true -> trimStart s = [].
Proof.
  intros H. rewrite <- (app_nil_r s). by rewrite trimStart_app_ws.
Qed.

Lemma forallb_rev_true {A} (p : A -> bool) (l : list A) :
  forallb p l = true -> forallb p (rev l) = true.
Proof.
  rewrite !forallb_forall. intros H x Hx. apply H. by apply in_rev.
Qed.

Lemma trimEnd_app_ws (x post : jsstr) :
  forallb is_ws post = true -> trimEnd (x ++ post) = trimEnd x.
Proof.
  intros H. unfold trimEnd. rewrite rev_app_distr, trimStart_app_ws; [done|].
  by apply forallb_rev_true.
Qed.

Lemma trimStart_app (x post : jsstr) :
  trimStart (x ++ post) =
  match trimStart x with
  | [] => trimStart post
  | _ :: _ => trimStart x ++ post
  end.
Proof.
  induction x as [|c x IH]; simpl; [by destruct (trimStart post)|].
  by destruct (is_ws c).
Qed.

Lemma trim_padding (pre content post : jsstr) :
  forallb is_ws pre = true -> forallb is_ws post = true ->
  trim (pre ++ content ++ post) = trim content.
Proof.
  intros Hpre Hpost. unfold trim.
  rewrite trimStart_app_ws, trimStart_app by done.
  destruct (trimStart content) as [|c t] eqn:Ht.
  - by rewrite trimStart_all_ws.
  - by rewrite trimEnd_app_ws.
Qed.

Lemma trim_nil_length (s : jsstr) :
  (length s =? 0)%nat || (length (trim s) =? 0)%nat = (length (trim s) =? 0)%nat.
Proof. by destruct s. Qed.

Section Detector.
Variable toLowerCase : jsstr -> jsstr.
Local Abbreviation detectGarbledContent := (Garbled.detectGarbledContent toLowerCase).
Local Abbreviation needsRefetch_content := (Garbled.needsRefetch_content toLowerCase).
Local Abbreviation batchDetect := (Garbled.batchDetect toLowerCase).

(** The verdict depends on the trimmed text only. *)
Lemma detect_by_trim (x y : jsstr) :
  trim x = trim y -> detectGarbledContent x = detectGarbledContent y.
Proof.
  intros H. unfold Garbled.detectGarbledContent.
  by rewrite !trim_nil_length, H.
Qed.

(** X16. White space before and after the text does
    not change what [detectGarbledContent] answers: the verdict is the
    verdict of the trimmed text. *)
Theorem detect_ignores_padding (pre content post : jsstr)
    (Hpre : forallb is_ws pre = true) (Hpost : forallb is_ws post = true) :
  detectGarbledContent (pre ++ content ++ post) = detectGarbledContent content
  /\ detectGarbledContent (trim content) = detectGarbledContent content.
Proof.
  split; apply detect_by_trim.
  - by apply trim_padding.
  - apply trim_idem.
Qed.

(** *** The score *)

Lemma signal_replacement_bounds t acc :
  acc.1 <= (signal_replacement t acc).1 <= acc.1 + 50.
Proof.
  unfold signal_replacement.
  repeat match goal with |- context [if ?c then _ else _] => destruct c end; simpl; lia.
Qed.

Lemma signal_entities_bounds t acc :
  acc.1 <= (signal_entities t acc).1 <= acc.1 + 40.
Proof.
  unfold signal_entities.
  repeat match goal with |- context [if ?c then _ else _] => destruct c end; simpl; lia.
Qed.

Lemma signal_mojibake_bounds t acc :
  acc.1 <= (signal_mojibake t acc).1 <= acc.1 + 40.
Proof.
  unfold signal_mojibake.
  repeat match goal with |- context [if ?c then _ else _] => destruct c end; simpl; lia.
Qed.

Lemma signal_questions_bounds t acc :
  acc.1 <= (signal_questions t acc).1 <= acc.1 + 20.
Proof.
  unfold signal_questions.
  repeat match goal with |- context [if ?c then _ else _] => destruct c end; simpl; lia.
Qed.

Lemma signal_cjk_bounds t acc :
  acc.1 <= (signal_cjk t acc).1 <= acc.1 + 15.
Proof.
  unfold signal_cjk.
  repeat match goal with |- context [if ?c then _ else _] => destruct c end; simpl; lia.
Qed.

Lemma accumulate_bounds (t : jsstr) : 0 <= (accumulate t).1 <= 165.
Proof.
  unfold accumulate.
  pose proof (signal_replacement_bounds t (0, [])) as H1.
  pose proof (signal_entities_bounds t (signal_replacement t (0, []))) as H2.
  pose proof (signal_mojibake_bounds t
                (signal_entities t (signal_replacement t (0, [])))) as H3.
  pose proof (signal_questions_bounds t
                (signal_mojibake t (signal_entities t (signal_replacement t (0, []))))) as H4.
  pose proof (signal_cjk_bounds t
                (signal_questions t
                   (signal_mojibake t
                      (signal_entities t (signal_replacement t (0, [])))))) as H5.
  simpl in H1. lia.
Qed.

Lemma detect_verdict (content : jsstr) :
  let d := detectGarbledContent content in
  0 <= score d <= 165
  /\ (isGarbled d = true -> needsRefetch d = true)
  /\ (isEmpty d = true <-> trim content = [])
  /\ (isEmpty d = true -> isGarbled d = false /\ score d = 0 /\ needsRefetch d = true)
  /\ (needsRefetch d = false -> (50 <= length (trim content))%nat /\ score d < 40).
Proof.
  cbn zeta. unfold Garbled.detectGarbledContent. rewrite trim_nil_length.
  destruct (trim content) as [|c t] eqn:Ht; cbn [length Nat.eqb].
  { cbn. repeat split; intros; try done; try lia. }
  destruct (Nat.ltb_spec (S (length t)) 50) as [Hlt|Hge].
  { cbn. repeat split; intros; try done; try lia. }
  destruct (is_frameset_fallback toLowerCase (c :: t)).
  { cbn. repeat split; intros; try done; try lia. }
  pose proof (accumulate_bounds (c :: t)) as Hb.
  destruct (accumulate (c :: t)) as [sc reasons]. cbn in Hb |- *.
  destruct (Z.leb_spec 40 sc); repeat split; intros; try done; try lia.
Qed.

(** X17. What every verdict of
    [detectGarbledContent] satisfies: the score lies between 0 and 165;
    garbled content always needs a refetch; the content is reported empty
    exactly when it is blank, and then it is not garbled, scores 0 and
    needs a refetch; content that needs no refetch has at least 50
    characters after trimming and a score below 40.  The bound 165 is
    reached. *)
Theorem detectGarbledContent_invariants (content : jsstr) :
  let d := detectGarbledContent content in
  0 <= score d <= 165
  /\ (isGarbled d = true -> needsRefetch d = true)
  /\ (isEmpty d = true <-> trim content = [])
  /\ (isEmpty d = true -> isGarbled d = false /\ score d = 0 /\ needsRefetch d = true)
  /\ (needsRefetch d = false -> (50 <= length (trim content))%nat /\ score d < 40)
  /\ score (Garbled.detectGarbledContent lower_ascii Examples.all_signals) = 165.
Proof.
  destruct (detect_verdict content) as (H1 & H2 & H3 & H4 & H5).
  split; [exact H1|]. split; [exact H2|]. split; [exact H3|]. split; [exact H4|].
  split; [exact H5|]. vm_compute. reflexivity.
Qed.

(** [batchDetect] keeps the ids and agrees with [needsRefetch]. *)
Lemma batchDetect_needsRefetch (contents : list (Z * option jsstr)) :
  List.map fst (batchDetect contents) = List.map fst contents
  /\ List.map (fun e => needsRefetch e.2) (batchDetect contents)
     = List.map (fun e => needsRefetch_content e.2) contents.
Proof.
  unfold Garbled.batchDetect. rewrite !List.map_map. split; [done|].
  apply map_ext. intros [i [[|c s]|]]; done.
Qed.

End Detector.

Lemma detect_ignores_padding_witness :
  Garbled.detectGarbledContent lower_ascii
    (lit "  " ++ Examples.paragraph500 ++ [0x0A]%N)
  = Garbled.detectGarbledContent lower_ascii Examples.paragraph500.
Proof.
  apply (detect_ignores_padding lower_ascii (lit "  ") Examples.paragraph500 [0x0A]%N);
    reflexivity.
Defined.

End DetectorProps.

Module StorageProps.
Import JS Types Store JSProps QueueProps.

Lemma map_update_same {B} (g : Bookmark -> B) (p : Bookmark -> bool)
      (f : Bookmark -> Bookmark) (l : list Bookmark) :
  (forall b, g (f b) = g b) ->
  List.map g (List.map (fun b => if p b then f b else b) l) = List.map g l.
Proof.
  intros H. rewrite List.map_map. apply map_ext. intros b. by destruct (p b).
Qed.

Lemma Forall_update (P : Bookmark -> Prop) (p : Bookmark -> bool)
      (f : Bookmark -> Bookmark) (l : list Bookmark) :
  (forall b, P b -> P (f b)) ->
  Forall P l -> Forall P (List.map (fun b => if p b then f b else b) l).
Proof.
  intros H Hl. induction Hl as [|b l Hb _ IH]; simpl; constructor; [|done].
  destruct (p b); auto.
Qed.

Lemma Forall_filter_bool {A} (P : A -> Prop) (p : A -> bool) (l : list A) :
  Forall P l -> Forall P (List.filter p l).
Proof.
  induction 1 as [|x l Hx _ IH]; simpl; [constructor|].
  destruct (p x); [by constructor|done].
Qed.

(** An [UPDATE] that keeps [id] and [url] keeps the constraints. *)
Lemma update_consistent (p : Bookmark -> bool) (f : Bookmark -> Bookmark) (d : DB) :
  (forall b, id (f b) = id b /\ url (f b) = url b) ->
  consistent d -> consistent (update_bookmarks p f d).
Proof.
  intros Hf (Hs1 & Hs2 & H1 & H2 & H3 & H4 & H5 & H6 & H7 & H8).
  unfold consistent, update_bookmarks. cbn.
  rewrite !map_update_same by (intros b; apply (Hf b)).
  repeat split; try done.
  apply Forall_update; [|done]. intros b. by destruct (Hf b) as [-> _].
Qed.

Lemma existsb_false_not_in {A B} `{EqDecision B} (g : A -> B) (x : B) (l : list A) :
  existsb (fun a => bool_decide (g a = x)) l = false -> ~ In x (List.map g l).
Proof.
  intros H (a & Ha & Hin)%in_map_iff.
  assert (existsb (fun a => bool_decide (g a = x)) l = true) as Ht.
  { apply existsb_exists. exists a. split; [done|]. by apply bool_decide_eq_true. }
  congruence.
Qed.

Lemma NoDup_snoc {A} (l : list A) (x : A) : NoDup l -> ~ In x l -> NoDup (l ++ [x]).
Proof.
  intros Hl Hx. apply NoDup_app. split; [done|]. split.
  - intros y Hy Hy'. apply list_elem_of_singleton in Hy'. subst y.
    by apply Hx, list_elem_of_In.
  - apply NoDup_singleton.
Qed.


Lemma INSERT_BOOKMARK_consistent chromeId u title now (d : DB) :
  consistent d -> consistent (INSERT_BOOKMARK chromeId u title now d).2.
Proof.
  intros (Hs1 & Hs2 & H1 & H2 & H3 & H4 & H5 & H6 & H7 & H8).
  unfold INSERT_BOOKMARK.
  destruct (existsb _ _) eqn:Hex; [done|].
  unfold consistent. cbn. rewrite !List.map_app. cbn.
  split; [lia|]. split; [done|]. split; [|split; [|split; [|done]]].
  - apply NoDup_snoc; [done|]. intros (b & Hb & Hin)%in_map_iff.
    apply list_elem_of_In in Hin. apply (proj1 (Forall_forall _ _) H2) in Hin. lia.
  - apply Forall_app. split.
    + eapply Forall_impl; [exact H2|]. intros b ?. cbn in *. lia.
    + constructor; [cbn; lia|constructor].
  - apply NoDup_snoc; [done|]. by apply existsb_false_not_in.
Qed.

Lemma update_urls_NoDup (sel : Bookmark -> bool) (f : Bookmark -> Bookmark) (u : jsstr)
      (l : list Bookmark) :
  (forall b, url (f b) = u) ->
  (length (List.filter sel l) <= 1)%nat ->
  existsb (fun b => bool_decide (url b = u)) (List.filter (fun b => negb (sel b)) l) = false ->
  NoDup (List.map url l) ->
  NoDup (List.map url (List.map (fun b => if sel b then f b else b) l)).
Proof.
  intros Hf. induction l as [|b l IH]; intros Hlen Hex Hnd; [constructor|].
  simpl in *. apply NoDup_cons in Hnd as [Hnotin Hnd].
  destruct (sel b) eqn:Hb; simpl in *.
  - assert (List.filter sel l = []) as Hnone by (destruct (List.filter sel l); [done|simpl in Hlen; lia]).
    assert (List.map (fun b => if sel b then f b else b) l = l) as ->.
    { clear -Hnone. induction l as [|x l IH]; [done|]. simpl in *.
      destruct (sel x); [done|]. f_equal. by apply IH. }
    assert (List.filter (fun b => negb (sel b)) l = l) as Hall.
    { clear -Hnone. induction l as [|x l IH]; [done|]. simpl in *.
      destruct (sel x); [done|]. simpl. f_equal. by apply IH. }
    rewrite Hall in Hex. apply NoDup_cons. split; [|done].
    rewrite Hf. intros Hin. apply list_elem_of_In in Hin.
    by apply (existsb_false_not_in url u l).
  - apply orb_false_iff in Hex as [Hbu Hex].
    apply NoDup_cons. split; [|by apply IH].
    intros Hin. apply list_elem_of_In, in_map_iff in Hin as (x & Hx & Hin).
    apply in_map_iff in Hin as (y & <- & Hy).
    destruct (sel y).
    + rewrite Hf in Hx. apply bool_decide_eq_false in Hbu. congruence.
    + apply Hnotin. apply list_elem_of_In, in_map_iff. by exists y.
Qed.

Lemma UPDATE_BOOKMARK_consistent title u now chromeId (d : DB) :
  consistent d -> consistent (UPDATE_BOOKMARK title u now chromeId d).2.
Proof.
  intros Hd. unfold UPDATE_BOOKMARK.
  destruct (negb _ && _) eqn:Hc; [done|]. cbn [snd].
  destruct Hd as (Hs1 & Hs2 & H1 & H2 & H3 & H4 & H5 & H6 & H7 & H8).
  unfold consistent, update_bookmarks. cbn.
  rewrite (map_update_same id) by done.
  split; [done|]. split; [done|]. split; [done|].
  split; [by apply Forall_update|]. split; [|done].
  destruct (length (List.filter (has_chrome_id chromeId) (bookmarks d)) =? 0)%nat eqn:Hz.
  - apply Nat.eqb_eq in Hz.
    assert (List.map (fun b => if has_chrome_id chromeId b
                               then set_title_url title u now b else b) (bookmarks d)
            = bookmarks d) as ->; [|done].
    assert (List.filter (has_chrome_id chromeId) (bookmarks d) = []) as Hnone
      by (by destruct (List.filter _ _)).
    clear -Hnone. induction (bookmarks d) as [|x l IH]; [done|]. simpl in *.
    destruct (has_chrome_id chromeId x); [done|]. f_equal. by apply IH.
  - cbn [negb andb] in Hc. apply orb_false_iff in Hc as [Hothers Hlen].
    apply (update_urls_NoDup _ _ u); try done.
    by apply Nat.ltb_ge in Hlen.
Qed.

Lemma INSERT_TAG_consistent n (d : DB) : consistent d -> consistent (INSERT_TAG n d).
Proof.
  intros (Hs1 & Hs2 & H1 & H2 & H3 & H4 & H5 & H6 & H7 & H8).
  unfold INSERT_TAG. destruct (existsb _ _) eqn:Hex; [done|].
  unfold consistent. cbn. rewrite !List.map_app. cbn.
  split; [done|]. split; [lia|]. split; [done|]. split; [done|]. split; [done|].
  split; [done|]. split; [|split; [|split; [|done]]].
  - apply NoDup_snoc; [done|]. by apply existsb_false_not_in.
  - apply NoDup_snoc; [done|]. intros (t & Ht & Hin)%in_map_iff.
    apply list_elem_of_In in Hin. apply (proj1 (Forall_forall _ _) H7) in Hin. lia.
  - apply Forall_app. split.
    + eapply Forall_impl; [exact H7|]. intros t ?. cbn in *. lia.
    + constructor; [cbn; lia|constructor].
Qed.

Lemma ADD_BOOKMARK_TAG_consistent l (d : DB) :
  consistent d -> consistent (ADD_BOOKMARK_TAG l d).
Proof.
  intros (Hs1 & Hs2 & H1 & H2 & H3 & H4 & H5 & H6 & H7 & H8).
  unfold ADD_BOOKMARK_TAG. destruct (existsb _ _) eqn:Hex; [done|].
  unfold consistent. cbn. rewrite !List.map_app. cbn.
  repeat (split; [done|]).
  apply NoDup_snoc; [done|]. intros (l' & Hl' & Hin)%in_map_iff.
  injection Hl' as Hb Ht.
  assert (existsb (fun l' => (bt_bookmark_id l' =? bt_bookmark_id l)
                             && (bt_tag_id l' =? bt_tag_id l)) (bookmark_tags d) = true).
  { apply existsb_exists. exists l'. split; [done|]. rewrite Hb, Ht, !Z.eqb_refl. done. }
  congruence.
Qed.

Lemma INSERT_SUMMARY_consistent s (d : DB) : consistent d -> consistent (INSERT_SUMMARY s d).2.
Proof.
  intros (Hs1 & Hs2 & H1 & H2 & H3 & H4 & H5 & H6 & H7 & H8).
  pose proof (INSERT_SUMMARY_unique s d H4) as Hu. revert Hu.
  unfold INSERT_SUMMARY. destruct (existsb _ _); [done|]. cbn. done.
Qed.

Lemma DELETE_BOOKMARK_consistent chromeId (d : DB) :
  consistent d -> consistent (DELETE_BOOKMARK chromeId d).
Proof.
  intros (Hs1 & Hs2 & H1 & H2 & H3 & H4 & H5 & H6 & H7 & H8).
  unfold consistent, DELETE_BOOKMARK. cbn.
  split; [done|]. split; [done|]. split; [by apply NoDup_map_filter|].
  split; [by apply Forall_filter_bool|]. split; [by apply NoDup_map_filter|]. done.
Qed.

Lemma write_consistent (st : Write) (d : DB) : consistent d -> consistent (write st d).
Proof.
  intros Hd. destruct st; cbn [write].
  - by apply INSERT_BOOKMARK_consistent.
  - by apply UPDATE_BOOKMARK_consistent.
  - by apply update_consistent.
  - by apply update_consistent.
  - by apply update_consistent.
  - by apply update_consistent.
  - by apply update_consistent.
  - by apply update_consistent.
  - by apply DELETE_BOOKMARK_consistent.
  - by apply INSERT_SUMMARY_consistent.
  - by apply INSERT_TAG_consistent.
  - by apply ADD_BOOKMARK_TAG_consistent.
  - done.
Qed.

Lemma empty_consistent : consistent empty_db.
Proof. unfold consistent, empty_db. cbn. repeat split; try done; constructor. Qed.

(** X28. Starting from the empty database, whatever writes
    the repositories issue, in any number and order, the constraints of
    the schema hold: row ids are positive, unique and at most the
    sequence value; bookmark URLs and tag names are unique; a bookmark
    has at most one summary; and no link from a bookmark to a tag is
    stored twice. *)
Theorem written_consistent (ws : list Write) : consistent (written ws).
Proof.
  unfold written. generalize empty_consistent. generalize empty_db.
  induction ws as [|st ws IH]; intros d Hd; simpl; [done|].
  apply IH. by apply write_consistent.
Qed.


(** *** Every operation of the queue keeps the constraints *)

Section Operations.
Variable env : Queue.Env.
Import Queue.

Local Abbreviation keeps :=
  (fun w w' : World => consistent (db w) -> consistent (db w')).

Lemma keeps_refl (w : World) : keeps w w.
Proof. intros H. exact H. Qed.

Lemma keeps_trans (w1 w2 w3 : World) : keeps w1 w2 -> keeps w2 w3 -> keeps w1 w3.
Proof. intros H1 H2 H. apply H2, H1, H. Qed.

Lemma keeps_same_db {A} (m : M A) :
  (forall w, db (m w).2 = db w) -> respects keeps m.
Proof. intros H w. by rewrite H. Qed.

Lemma keeps_write {A} (stmt : DB -> Outcome A * DB) :
  (forall d, consistent d -> consistent (stmt d).2) -> respects keeps (execute_checked stmt).
Proof.
  intros H. apply respects_execute_checked. intros w Hw. cbn. by apply H.
Qed.

Lemma keeps_execute (stmt : DB -> DB) :
  (forall d, consistent d -> consistent (stmt d)) -> respects keeps (execute stmt).
Proof. intros H. apply respects_execute. intros w Hw. cbn. by apply H. Qed.

Lemma keeps_update (p : Bookmark -> bool) (f : Bookmark -> Bookmark) :
  (forall b, id (f b) = id b /\ url (f b) = url b) ->
  respects keeps (execute (update_bookmarks p f)).
Proof. intros Hf. apply keeps_execute. intros d. by apply update_consistent. Qed.

Ltac keeps_step :=
  first
    [ apply (respects_ret keeps keeps_refl)
    | apply (respects_throw keeps keeps_refl)
    | apply (respects_lift keeps keeps_refl)
    | apply (respects_query keeps keeps_refl)
    | apply keeps_update; done
    | apply keeps_execute; intros ?;
      first [ apply INSERT_TAG_consistent | apply ADD_BOOKMARK_TAG_consistent
            | apply DELETE_BOOKMARK_consistent | intros H; exact H ]
    | apply keeps_write; intros ?;
      first [ apply INSERT_SUMMARY_consistent | apply INSERT_BOOKMARK_consistent
            | apply UPDATE_BOOKMARK_consistent ]
    | apply keeps_same_db; done
    | apply (respects_bind keeps keeps_trans); [|intros ?]
    | apply (respects_try_catch keeps keeps_trans); [|intros ?]
    | apply (respects_for_each keeps keeps_refl keeps_trans); intros ? _
    | apply (respects_fold_each keeps keeps_refl keeps_trans); intros ? ? _ ].

Ltac keeps_auto :=
  repeat first
    [ progress cbv zeta
    | keeps_step
    | match goal with
      | |- respects _ (if ?c then _ else _) => destruct c
      | |- respects _ (match ?x with _ => _ end) => destruct x
      | |- respects _ (let '(_, _) := ?x in _) => destruct x
      end ].

Lemma keeps_save_tag b conf n : respects keeps (save_tag env b conf n).
Proof.
  unfold save_tag, TagRepository_findOrCreate, TagRepository_addToBookmark. keeps_auto.
Qed.

Lemma keeps_summarizeBookmark (b : Bookmark) : respects keeps (summarizeBookmark env b).
Proof.
  unfold summarizeBookmark, summarize_steps, summarize_failed, updateStatus, updateContent,
    AISummaryRepository_create, SyncLogRepository_create.
  keeps_auto; apply keeps_save_tag.
Qed.

Ltac keeps_queue :=
  repeat first
    [ match goal with
      | |- respects _ (summarizeBookmark _ _) => apply keeps_summarizeBookmark
      end
    | progress cbv zeta
    | keeps_step
    | match goal with
      | |- respects _ (if ?c then _ else _) => destruct c
      | |- respects _ (match ?x with _ => _ end) => destruct x
      end ].

Lemma keeps_processNextBatch : respects keeps (processNextBatch env).
Proof.
  unfold processNextBatch, process_batch, isQueueRunning, findPending, countPending,
    AISummaryRepository_count, set_summarizing, set_alarm, set_syncStatus.
  keeps_queue.
Qed.

(** X29. From a state whose database satisfies the
    constraints of the schema, each operation of the service (starting
    the queue, a batch, the initialisation, the repair scan,
    [summarizePage], [summarizeBookmarkById] and [syncBookmark]) ends in
    a state whose database satisfies them too, whether it ends normally
    or not. *)
Theorem operations_keep_consistent (w : World) (Hw : consistent (db w))
    (chromeBookmark : ChromeBookmark) (title u : jsstr) (content : option jsstr) (i : Z) :
  consistent (db (startSummarizationQueue env w).2)
  /\ consistent (db (processNextBatch env w).2)
  /\ consistent (db (initializeAsync env w).2)
  /\ consistent (db (refetchGarbledContent env w).2)
  /\ consistent (db (summarizePage env title u content w).2)
  /\ consistent (db (summarizeBookmarkById env i w).2)
  /\ consistent (db (syncBookmark env chromeBookmark w).2).
Proof.
  assert (forall A (m : M A), respects keeps m -> consistent (db (m w).2)) as Hrun
    by (intros A m Hm; by apply Hm).
  split_and!; apply Hrun.
  - unfold startSummarizationQueue, set_summarizing.
    apply (respects_bind keeps keeps_trans); [by apply keeps_same_db|intros _].
    apply keeps_processNextBatch.
  - apply keeps_processNextBatch.
  - unfold initializeAsync, isQueueRunning, resetAnalyzingToRetry.
    apply (respects_bind keeps keeps_trans); [by apply keeps_same_db|intros running].
    apply (respects_bind keeps keeps_trans); [|intros _; keeps_auto].
    destruct running; [apply keeps_processNextBatch|keeps_auto].
  - unfold refetchGarbledContent, getAllForIndex, refetch_one, updateContent,
      markFetchFailed, SyncLogRepository_create. keeps_auto.
  - unfold summarizePage, findByChromeId, findById, BookmarkRepository_create, updateContent.
    keeps_queue.
  - unfold summarizeBookmarkById, findById. keeps_queue.
  - unfold syncBookmark, findByChromeId, findByUrl, BookmarkRepository_create,
      BookmarkRepository_update, updateChromeId. keeps_auto.
Qed.

End Operations.

Lemma operations_keep_consistent_witness :
  consistent (Queue.db (Queue.processNextBatch Examples.env_down
                          (Examples.world_of [Examples.once_failed])).2).
Proof.
  assert (consistent (Queue.db (Examples.world_of [Examples.once_failed]))) as Hw.
  { unfold consistent. cbn.
    split_and!; try lia; try apply NoDup_nil_2; try apply NoDup_singleton;
      by repeat constructor. }
  apply (operations_keep_consistent Examples.env_down _ Hw
           (Queue.mkChrome [] [] None) [] [] None 0).
Defined.

End StorageProps.

Module FlowProps.
Import JS Types Store Queue JSProps QueueProps.

(** *** Running the monad *)

Lemma bind_return {A B} (m : M A) (k : A -> M B) w a w1 :
  m w = (Return a, w1) -> bind m k w = k a w1.
Proof. intros H. unfold bind. by rewrite H. Qed.

Lemma bind_throw {A B} (m : M A) (k : A -> M B) w e w1 :
  m w = (Throw e, w1) -> bind m k w = (Throw e, w1).
Proof. intros H. unfold bind. by rewrite H. Qed.

Lemma with_db_same (w : World) : with_db (db w) w = w.
Proof. by destruct w. Qed.

(** The rows after an update of the row [i] by [f]. *)
Local Abbreviation touch i f rows :=
  (List.map (fun r : Bookmark => if has_id i r then f r else r) rows).

Lemma touch_touch (i : Z) (f g : Bookmark -> Bookmark) (rows : list Bookmark) :
  (forall r, id (f r) = id r) ->
  touch i g (touch i f rows) = touch i (fun r => g (f r)) rows.
Proof.
  intros Hf. rewrite List.map_map. apply map_ext. intros r.
  destruct (has_id i r) eqn:Hr; [|by rewrite Hr].
  unfold has_id in *. by rewrite Hf, Hr.
Qed.

Section Flow.
Variable env : Env.

(** What a loop leaves alone, when every turn returns and leaves it alone. *)
Lemma for_each_returns {A} (Q : World -> World -> Prop) (l : list A) (body : A -> M unit) :
  (forall w, Q w w) -> (forall w1 w2 w3, Q w1 w2 -> Q w2 w3 -> Q w1 w3) ->
  (forall x w, exists w', body x w = (Return tt, w') /\ Q w w') ->
  forall w, exists w', for_each l body w = (Return tt, w') /\ Q w w'.
Proof.
  intros Hrefl Htrans Hbody. induction l as [|x l IH]; intros w; simpl.
  - by exists w.
  - destruct (Hbody x w) as (w1 & Hx & Hq1). destruct (IH w1) as (w2 & Hl & Hq2).
    exists w2. rewrite (bind_return _ _ _ _ _ Hx). split; [done|]. by eapply Htrans.
Qed.

(** The tag writes touch [tags] and [bookmark_tags] only. *)
Local Abbreviation tags_only w w' :=
  (bookmarks (db w') = bookmarks (db w)
   /\ ai_summaries (db w') = ai_summaries (db w)
   /\ sync_log (db w') = sync_log (db w)
   /\ summarizing w' = summarizing w /\ alarm w' = alarm w).

Lemma save_tag_run b conf n w :
  exists w', save_tag env b conf n w = (Return tt, w') /\ tags_only w w'.
Proof.
  unfold save_tag, TagRepository_findOrCreate, TagRepository_addToBookmark.
  unfold bind, query_db, execute, ret. cbn.
  destruct (GET_TAG_BY_NAME (toLowerCase env n) (db w)) as [t|]; cbn.
  - eexists. split; [reflexivity|]. unfold ADD_BOOKMARK_TAG.
    destruct (existsb _ _); done.
  - eexists. split; [reflexivity|]. unfold ADD_BOOKMARK_TAG, INSERT_TAG.
    destruct (existsb _ (tags (db w))); cbn; destruct (existsb _ _); done.
Qed.

Lemma save_tags_run b conf (l : list jsstr) (keep : jsstr -> bool) w :
  exists w',
    for_each l (fun n => if keep n then save_tag env b conf n else ret tt) w = (Return tt, w')
    /\ tags_only w w'.
Proof.
  apply (for_each_returns (fun w w' => tags_only w w')).
  - done.
  - intros w1 w2 w3 (?&?&?&?&?) (?&?&?&?&?). repeat split; congruence.
  - intros n w0. destruct (keep n); [apply save_tag_run|by exists w0].
Qed.


Lemma save_all_tags_run b conf (l : list jsstr) w :
  exists w', for_each l (save_tag env b conf) w = (Return tt, w') /\ tags_only w w'.
Proof.
  apply (for_each_returns (fun w w' => tags_only w w')).
  - done.
  - intros w1 w2 w3 (?&?&?&?&?) (?&?&?&?&?). repeat split; congruence.
  - intros n w0. apply save_tag_run.
Qed.

(** The status a failed attempt leaves. *)
Local Abbreviation failed_status b :=
  (if 3 <=? retryCount b + 1 then failed else pending).

(** [summarize_steps] either throws, with the summaries as they were,
    or stores one summary and marks the bookmark completed. *)
Lemma summarize_steps_run (b : Bookmark) (w : World) :
  exists f,
    (forall r, id (f r) = id r /\ retryCount (f r) = retryCount r /\ url (f r) = url r
               /\ createdAt (f r) = createdAt r
               /\ chromeBookmarkId (f r) = chromeBookmarkId r)
    /\ bookmarks (db (summarize_steps env b w).2) = touch (id b) f (bookmarks (db w))
    /\ summarizing (summarize_steps env b w).2 = summarizing w
    /\ alarm (summarize_steps env b w).2 = alarm w
    /\ match (summarize_steps env b w).1 with
       | Throw e => ai_summaries (db (summarize_steps env b w).2) = ai_summaries (db w)
       | Return ok =>
           ok = true
           /\ (forall r, status (f r) = completed /\ analyzedAt (f r) = Some (now env)
                         /\ errorMessage (f r) = None)
           /\ existsb (fun s' => bookmarkId s' =? id b) (ai_summaries (db w)) = false
           /\ exists s, ai_summaries (db (summarize_steps env b w).2)
                        = ai_summaries (db w) ++ [s]
                        /\ bookmarkId s = id b
       end.
Proof.
  destruct (summarize_steps env b w) as [o wf] eqn:Hrun. cbn [fst snd].
  revert Hrun. unfold summarize_steps.
  set (f0 := set_status analyzing (or_null None) None (now env)).
  set (w0 := with_db (update_bookmarks (has_id (id b)) f0 (db w)) w).
  rewrite (bind_return _ _ w tt w0) by reflexivity.
  destruct (getActiveAIService env) as [ai|].
  2: { rewrite (bind_throw _ _ w0 _ w0) by reflexivity. intros [= <- <-].
       exists f0. done. }
  rewrite (bind_return _ _ w0 ai w0) by reflexivity.
  assert (exists content w1 f1,
            (if truthy_str (pageContent b) then ret (pageContent b)
             else
               if truthy_str (fetchPageContentSmart env (url b)) then
                 updateContent env (id b) (or_empty (fetchPageContentSmart env (url b)))
                   (hashContent env (or_empty (fetchPageContentSmart env (url b)))) ;;;
                 ret (fetchPageContentSmart env (url b))
               else ret (fetchPageContentSmart env (url b))) w0 = (Return content, w1)
            /\ (forall r, id (f1 r) = id r /\ retryCount (f1 r) = retryCount r
                          /\ url (f1 r) = url r /\ createdAt (f1 r) = createdAt r
                          /\ chromeBookmarkId (f1 r) = chromeBookmarkId r)
            /\ bookmarks (db w1) = touch (id b) f1 (bookmarks (db w))
            /\ ai_summaries (db w1) = ai_summaries (db w)
            /\ summarizing w1 = summarizing w /\ alarm w1 = alarm w)
    as (content & w1 & f1 & Hcontent & Hf1 & Hrows1 & Hsum1 & Hflag1 & Halarm1).
  { destruct (truthy_str (pageContent b)).
    - exists (pageContent b), w0, f0. done.
    - destruct (truthy_str (fetchPageContentSmart env (url b))).
      + eexists _, _, (fun r => set_content _ _ (now env) (f0 r)).
        split; [reflexivity|]. split; [done|]. split; [|done].
        cbn. by rewrite touch_touch.
      + eexists _, w0, f0. done. }
  rewrite (bind_return _ _ w0 content w1 Hcontent).
  destruct (summarize ai (originalTitle b) (url b) (or_null content)) as [result|e].
  2: { rewrite (bind_throw _ _ w1 e w1) by reflexivity. intros [= <- <-].
       exists f1. done. }
  rewrite (bind_return _ _ w1 result w1) by reflexivity.
  unfold AISummaryRepository_create, execute_checked, INSERT_SUMMARY at 1.
  cbn [bookmarkId].
  unfold bind at 1. cbn [bookmarkId]. rewrite Hsum1.
  destruct (existsb (fun s' => bookmarkId s' =? id b) (ai_summaries (db w))) eqn:Hex.
  { intros [= <- <-]. exists f1. rewrite with_db_same. done. }
  set (w2 := with_db _ w1).
  destruct (save_all_tags_run (id b) (confidence result) (default [] (tagsZh result)) w2)
    as (w3 & Hrun3 & Hb3 & Hs3 & _ & Hf3 & Ha3).
  rewrite (bind_return _ _ w2 tt w3 Hrun3).
  destruct (save_tags_run (id b) (confidence result) (default [] (tagsOriginal result))
              (fun tagName => negb (str_in tagName (default [] (tagsZh result)))) w3)
    as (w4 & Hrun4 & Hb4 & Hs4 & _ & Hf4 & Ha4).
  rewrite (bind_return _ _ w3 tt w4 Hrun4).
  intros [= <- <-].
  exists (fun r => set_status completed (or_null None) (Some (now env)) (now env) (f1 r)).
  cbn. rewrite Hb4, Hb3, Hs4, Hs3, Hf4, Hf3, Ha4, Ha3. subst w2. cbn.
  rewrite Hrows1, ?Hsum1.
  rewrite touch_touch by (intros r; apply (Hf1 r)).
  split; [intros r; apply (Hf1 r)|].
  repeat split; try done. by eexists.
Qed.

(** With a database that refuses a statement only for a violated
    constraint, [summarizeBookmark] answers true or false; what it
    answers tells what it stored. *)
Lemma summarizeBookmark_run (b : Bookmark) (w : World) :
  exists ok f,
    (summarizeBookmark env b w).1 = Return ok
    /\ (forall r, id (f r) = id r /\ retryCount (f r) = retryCount r /\ url (f r) = url r
                  /\ createdAt (f r) = createdAt r
                  /\ chromeBookmarkId (f r) = chromeBookmarkId r)
    /\ (forall r, status (f r) = (if ok then completed else failed_status b)
                  /\ analyzedAt (f r) = (if ok then Some (now env) else None))
    /\ bookmarks (db (summarizeBookmark env b w).2) = touch (id b) f (bookmarks (db w))
    /\ summarizing (summarizeBookmark env b w).2 = summarizing w
    /\ alarm (summarizeBookmark env b w).2 = alarm w
    /\ (if ok then
          existsb (fun s' => bookmarkId s' =? id b) (ai_summaries (db w)) = false
          /\ exists s, ai_summaries (db (summarizeBookmark env b w).2)
                       = ai_summaries (db w) ++ [s]
                       /\ bookmarkId s = id b
        else ai_summaries (db (summarizeBookmark env b w).2) = ai_summaries (db w)).
Proof.
  unfold summarizeBookmark, try_catch.
  destruct (summarize_steps_run b w) as (f & Hf & Hrows & Hflag & Halarm & Hcase).
  destruct (summarize_steps env b w) as [[ok|e] w1]; cbn [fst snd] in *.
  - destruct Hcase as (-> & Hst & Hex & s & Hs & Hsb).
    exists true, f. split; [done|]. split; [done|]. split; [intros r; by destruct (Hst r) as (? & ? & ?)|].
    split; [done|]. split; [done|]. split; [done|]. split; [done|]. by exists s.
  - exists false,
      (fun r => set_status (failed_status b) (or_null (Some e)) None (now env) (f r)).
    cbn. rewrite Hrows, touch_touch by (intros r; apply (Hf r)).
    split; [done|]. split; [intros r; apply (Hf r)|].
    destruct (3 <=? retryCount b + 1); done.
Qed.

Lemma Forall2_map_self {A} (R : A -> A -> Prop) (g : A -> A) (l : list A) :
  (forall x, R x (g x)) -> Forall2 R l (List.map g l).
Proof. intros H. induction l; simpl; constructor; auto. Qed.

(** X19. What the answer of [summarizeBookmark] says about the store,
    as long as the database answers every statement it is sent and
    refuses one only for a violated constraint.  Whatever the answer,
    every other bookmark row is as it was and the row of the bookmark
    keeps its id, its URL and its retry count.  When the answer is true,
    the row is [completed] with the analysis time set, no summary was
    stored for the bookmark before, and exactly one summary for it has
    been appended.  When the answer is false, the summaries are as they
    were, the analysis time is empty, and the row is [failed] when its
    retry count was 2 or more and [pending] otherwise. *)
Theorem summarizeBookmark_outcome (b : Bookmark) (w : World) (ok : bool)
    (Hrun : (summarizeBookmark env b w).1 = Return ok) :
  Forall2 (fun r r' =>
             id r' = id r /\ retryCount r' = retryCount r /\ url r' = url r
             /\ (id r <> id b -> r' = r)
             /\ (id r = id b ->
                 status r' = (if ok then completed
                              else if 3 <=? retryCount b + 1 then failed else pending)
                 /\ analyzedAt r' = (if ok then Some (now env) else None)))
    (bookmarks (db w)) (bookmarks (db (summarizeBookmark env b w).2))
  /\ (if ok then
        existsb (fun s' => bookmarkId s' =? id b) (ai_summaries (db w)) = false
        /\ exists s, ai_summaries (db (summarizeBookmark env b w).2)
                     = ai_summaries (db w) ++ [s]
                     /\ bookmarkId s = id b
      else ai_summaries (db (summarizeBookmark env b w).2) = ai_summaries (db w)).
Proof.
  destruct (summarizeBookmark_run b w)
    as (ok' & f & Hok & Hf & Hst & Hrows & _ & _ & Hsum).
  rewrite Hok in Hrun. injection Hrun as ->.
  split; [|done].
  rewrite Hrows. apply Forall2_map_self. intros r. unfold has_id.
  destruct (Z.eqb_spec (id r) (id b)) as [Heq|Hne].
  - destruct (Hf r) as (? & ? & ? & _). destruct (Hst r) as (? & ?).
    repeat split; try done.
  - repeat split; try done.
Qed.

(** X20. A failed attempt on a stored bookmark with fewer than three
    recorded retries leaves the retry count as it was and sets the
    status to [pending], or to [failed] when the count already was 2.
    Either way the row still satisfies the selection of the pending
    bookmarks, which admits failed rows with fewer than three retries,
    and is picked again: a failure alone never retires such a
    bookmark. *)
Theorem failed_attempt_stays_eligible (b : Bookmark) (w : World)
    (Hin : In b (bookmarks (db w)))
    (Hretry : retryCount b < 3)
    (Hfail : (summarizeBookmark env b w).1 = Return false) :
  let w' := (summarizeBookmark env b w).2 in
  exists b',
    In b' (bookmarks (db w')) /\ id b' = id b /\ retryCount b' = retryCount b
    /\ status b' = (if 3 <=? retryCount b + 1 then failed else pending)
    /\ pending_row b' = true
    /\ In b' (GET_BOOKMARKS_PENDING (length (bookmarks (db w'))) (db w')).
Proof.
  cbn zeta.
  destruct (summarizeBookmark_run b w) as (ok & f & Hok & Hf & Hst & Hrows & _ & _ & _).
  rewrite Hok in Hfail. injection Hfail as ->.
  destruct (Hf b) as (Hid & Hrc & _). destruct (Hst b) as (Hs & _).
  assert (pending_row (f b) = true) as Hp.
  { unfold pending_row. rewrite Hs, Hrc.
    destruct (3 <=? retryCount b + 1); cbn; [|done]. by apply Z.ltb_lt. }
  assert (In (f b) (bookmarks (db (summarizeBookmark env b w).2))) as Hin'.
  { rewrite Hrows. apply in_map_iff. exists b. split; [|done].
    unfold has_id. by rewrite Z.eqb_refl. }
  exists (f b). split; [done|]. split; [done|]. split; [done|]. split; [done|].
  split; [done|].
  unfold GET_BOOKMARKS_PENDING. rewrite firstn_all2.
  - apply (Permutation_in _ (Permutation_sym (stable_sort_perm _ _))).
    apply filter_In. done.
  - rewrite (Permutation_length (stable_sort_perm _ _)). apply filter_length_le.
Qed.

(** *** The batch loop *)

(** X21. [processNextBatch] does nothing while the
    queue is not running; whenever it leaves the queue running it has
    set the alarm for the next batch.  [stopSummarizationQueue] clears
    the running flag and the alarm and leaves the database alone, and a
    batch that runs afterwards does nothing.  Starting the queue with no
    pending bookmark stops it at once with the database unchanged. *)
Theorem processNextBatch_schedules (w : World) :
  (summarizing w = false -> processNextBatch env w = (Return tt, w))
  /\ (summarizing (processNextBatch env w).2 = true ->
      alarm (processNextBatch env w).2 = true)
  /\ summarizing (stopSummarizationQueue w).2 = false
  /\ alarm (stopSummarizationQueue w).2 = false
  /\ db (stopSummarizationQueue w).2 = db w
  /\ processNextBatch env (stopSummarizationQueue w).2
     = (Return tt, (stopSummarizationQueue w).2)
  /\ (GET_BOOKMARKS_PENDING CHUNK_SIZE (db w) = [] ->
      startSummarizationQueue env w
      = (Return tt, mkWorld (db w) false false (summarizedCount w) (pendingCount w))).
Proof.
  assert (forall w0, summarizing w0 = false -> processNextBatch env w0 = (Return tt, w0))
    as Hidle.
  { intros w0 Hs. unfold processNextBatch, bind, isQueueRunning. by rewrite Hs. }
  split; [apply Hidle|].
  split; [|split; [done|split; [done|split; [done|split; [by apply Hidle|]]]]].
  2: { intros Hnone. unfold startSummarizationQueue, processNextBatch, bind, try_catch,
         isQueueRunning, set_summarizing, findPending, query_db.
       cbn [db summarizing negb]. rewrite Hnone. reflexivity. }
  remember (processNextBatch env w) as res eqn:Hres. revert Hres.
  unfold processNextBatch. unfold bind at 1. unfold isQueueRunning.
  destruct (summarizing w) eqn:Hs; cbn [negb]; [|intros ->; cbn; congruence].
  unfold try_catch.
  destruct ((pending <- findPending CHUNK_SIZE ;; process_batch env pending) w)
    as [[[]|e] w1] eqn:Hrun; [|by intros ->].
  intros ->. cbn [snd].
  revert Hrun. unfold bind at 1, findPending, query_db.
  unfold process_batch. destruct (length _ =? 0)%nat.
  - intros [= <-]. done.
  - unfold bind at 1.
    match goal with
    | |- context [for_each ?l ?body w] => destruct (for_each l body w) as [[[]|e] w2]
    end; [|done].
    unfold bind, countPending, query_db.
    destruct (0 <? _)%nat; intros [= <-]; done.
Qed.

(** X22. With no bookmark id stored twice, one run
    of [processNextBatch] returns normally, picks at most two rows, all
    of them pending rows of the table, keeps the ids of the table in
    their order, and leaves every row that it did not pick, so every row
    that is not pending, exactly as it was. *)
Theorem batch_touches_picked_rows (w : World)
    (Hids : NoDup (List.map id (bookmarks (db w)))) :
  let picked := GET_BOOKMARKS_PENDING CHUNK_SIZE (db w) in
  (processNextBatch env w).1 = Return tt
  /\ (length picked <= 2)%nat
  /\ Forall (fun p => In p (bookmarks (db w)) /\ pending_row p = true) picked
  /\ List.map id (bookmarks (db (processNextBatch env w).2)) = List.map id (bookmarks (db w))
  /\ (forall r, In r (bookmarks (db w)) -> ~ In r picked ->
                In r (bookmarks (db (processNextBatch env w).2)))
  /\ (forall r, In r (bookmarks (db w)) -> pending_row r = false ->
                In r (bookmarks (db (processNextBatch env w).2))).
Proof.
  cbn zeta. destruct (processNextBatch_touches env w) as [Hret Htouch].
  destruct (pending_rows_sorted CHUNK_SIZE (db w)) as (Hpend & Hlen & _).
  assert (forall r, In r (bookmarks (db w)) ->
                    ~ In r (GET_BOOKMARKS_PENDING CHUNK_SIZE (db w)) ->
                    In r (bookmarks (db (processNextBatch env w).2))) as Hkeep.
  { intros r Hr Hnot. apply (only_touches_In _ _ _ _ Htouch Hr).
    intros (p & Hid & Hp)%in_map_iff. apply Hnot.
    destruct (pending_rows_In _ _ _ Hp) as [Hp' _].
    by rewrite <- (NoDup_map_In_inj id _ p r Hids Hp' Hr Hid). }
  split; [done|]. split; [done|]. split; [|split; [|split; [done|]]].
  - apply Forall_forall. intros p Hp. apply list_elem_of_In in Hp.
    by apply pending_rows_In in Hp.
  - by apply (only_touches_ids _ _ _ Htouch).
  - intros r Hr Hnp. apply Hkeep; [done|]. intros Hp.
    apply pending_rows_In in Hp as [_ Hp]. congruence.
Qed.

(** *** Manual summarization *)

Lemma find_touch (i : Z) (f : Bookmark -> Bookmark) (rows : list Bookmark) :
  (forall r, id (f r) = id r) ->
  List.find (has_id i) (touch i f rows) = option_map f (List.find (has_id i) rows).
Proof.
  intros Hf. induction rows as [|r rows IH]; [done|]. simpl.
  destruct (has_id i r) eqn:Hr.
  - unfold has_id in *. by rewrite Hf, Hr.
  - by rewrite Hr.
Qed.

(** X23. [summarizeBookmarkById] never throws.
    For an id that is not stored it answers false and changes nothing;
    for a bookmark that is already [completed] it answers true and
    changes nothing; and whenever it answers true the bookmark is stored
    as [completed] afterwards. *)
Theorem summarizeBookmarkById_outcome (i : Z) (w : World) :
  exists ok,
    (summarizeBookmarkById env i w).1 = Return ok
    /\ match GET_BOOKMARK_BY_ID i (db w) with
       | None => ok = false /\ (summarizeBookmarkById env i w).2 = w
       | Some b =>
           (status b = completed -> ok = true /\ (summarizeBookmarkById env i w).2 = w)
           /\ (ok = true ->
               exists b', GET_BOOKMARK_BY_ID i (db (summarizeBookmarkById env i w).2) = Some b'
                          /\ status b' = completed)
       end.
Proof.
  remember (summarizeBookmarkById env i w) as res eqn:Hres. revert Hres.
  unfold summarizeBookmarkById, try_catch. unfold bind at 1. unfold findById, query_db.
  destruct (GET_BOOKMARK_BY_ID i (db w)) as [b|] eqn:Hb; [|intros ->; by exists false].
  destruct (bool_decide_reflect (status b = completed)) as [Hc|Hc].
  { intros ->. exists true. cbn. split; [done|]. split; [done|]. intros _. by exists b. }
  destruct (summarizeBookmark_run b w) as (ok & f & Hok & Hf & Hst & Hrows & _ & _ & _).
  destruct (summarizeBookmark env b w) as [[ok'|e] w1]; [|done].
  cbn [fst snd] in *. injection Hok as ->. intros ->. exists ok. cbn [fst snd].
  split; [done|]. split; [done|]. intros ->.
  assert (id b = i) as <-.
  { unfold GET_BOOKMARK_BY_ID in Hb. apply find_some in Hb as [_ Hb].
    by apply Z.eqb_eq in Hb. }
  exists (f b). unfold GET_BOOKMARK_BY_ID in *.
  rewrite Hrows, find_touch, Hb by (intros r; apply (Hf r)).
  split; [done|]. by destruct (Hst b).
Qed.

(** X24. [summarizePage] looks the page up by
    using its URL as a Chrome bookmark id.  So for a URL that is stored
    already, under a Chrome id that is not that URL, the insertion
    violates the uniqueness of the URL and the call answers false with
    nothing changed: neither content nor summary is stored. *)
Theorem summarizePage_bookmarked_url (title u : jsstr) (content : option jsstr) (w : World)
    (Hurl : GET_BOOKMARK_BY_URL u (db w) <> None)
    (Hchrome : GET_BOOKMARK_BY_CHROME_ID u (db w) = None) :
  summarizePage env title u content w = (Return false, w).
Proof.
  unfold summarizePage, try_catch. unfold bind at 1. unfold findByChromeId, query_db.
  rewrite Hchrome. unfold bind at 1 2.
  unfold BookmarkRepository_create, execute_checked, INSERT_BOOKMARK.
  assert (existsb (fun b => bool_decide (url b = u)) (bookmarks (db w)) = true) as ->.
  { unfold GET_BOOKMARK_BY_URL in Hurl.
    destruct (List.find _ _) as [b|] eqn:Hf; [|done].
    apply find_some in Hf as [Hin Hb]. apply existsb_exists. by exists b. }
  by rewrite with_db_same.
Qed.

(** *** Tags *)

Lemma find_none_existsb {A} (p : A -> bool) (l : list A) :
  List.find p l = None -> existsb p l = false.
Proof.
  induction l as [|x l IH]; simpl; [done|]. destruct (p x); [done|]. exact IH.
Qed.

Lemma find_snoc_new {A} (p : A -> bool) (l : list A) (x : A) :
  List.find p l = None -> p x = true -> List.find p (l ++ [x]) = Some x.
Proof.
  induction l as [|y l IH]; simpl; [by intros _ ->|].
  destruct (p y); [done|]. exact IH.
Qed.

(** X25. [findOrCreate] answers the id of a tag stored
    under the normalised name and adds at most one tag; a second call,
    with a name that normalises to the same text, answers the same id
    and changes nothing. *)
Theorem findOrCreate_idempotent (n n' : jsstr) (w : World)
    (Hsame : sql_lower (toLowerCase env n') = sql_lower (toLowerCase env n)) :
  exists i t,
    (TagRepository_findOrCreate env n w).1 = Return i
    /\ TagRepository_findOrCreate env n' (TagRepository_findOrCreate env n w).2
       = (Return i, (TagRepository_findOrCreate env n w).2)
    /\ GET_TAG_BY_NAME (toLowerCase env n) (db (TagRepository_findOrCreate env n w).2)
       = Some t
    /\ tag_id t = i /\ name t = sql_lower (toLowerCase env n)
    /\ (length (tags (db (TagRepository_findOrCreate env n w).2))
        <= S (length (tags (db w))))%nat.
Proof.
  remember (TagRepository_findOrCreate env n w) as res eqn:Hres. revert Hres.
  unfold TagRepository_findOrCreate at 1. unfold bind at 1. unfold query_db at 1.
  destruct (GET_TAG_BY_NAME (toLowerCase env n) (db w)) as [t|] eqn:Hfind.
  - intros ->. exists (tag_id t), t. cbn [fst snd ret].
    assert (GET_TAG_BY_NAME (toLowerCase env n') (db w) = Some t) as Hfind'
      by (unfold GET_TAG_BY_NAME in *; by rewrite Hsame).
    split; [done|]. split.
    { unfold TagRepository_findOrCreate, bind, query_db. by rewrite Hfind'. }
    split; [done|]. split; [done|]. split; [|lia].
    unfold GET_TAG_BY_NAME in Hfind. apply find_some in Hfind as [_ Hn].
    by apply bool_decide_eq_true in Hn.
  - unfold bind, execute, query_db, INSERT_TAG.
    unfold GET_TAG_BY_NAME in Hfind. rewrite (find_none_existsb _ _ Hfind).
    intros ->. cbn [fst snd db with_db last_insert_rowid tags].
    set (t := mkTag (seq_tags (db w) + 1) (sql_lower (toLowerCase env n)) None None None).
    exists (seq_tags (db w) + 1), t.
    assert (List.find (fun t0 => bool_decide (name t0 = sql_lower (toLowerCase env n)))
              (tags (db w) ++ [t]) = Some t) as Hnew.
    { apply find_snoc_new; [done|]. by apply bool_decide_eq_true. }
    split; [done|]. split.
    { unfold TagRepository_findOrCreate, bind, query_db, GET_TAG_BY_NAME.
      cbn [db with_db tags]. rewrite Hsame, Hnew. done. }
    split; [exact Hnew|]. split; [done|]. split; [done|].
    rewrite length_app. simpl. lia.
Qed.

Lemma findOrCreate_run (n n' : jsstr) (w : World) :
  sql_lower (toLowerCase env n') = sql_lower (toLowerCase env n) ->
  exists i w1,
    TagRepository_findOrCreate env n w = (Return i, w1)
    /\ bookmark_tags (db w1) = bookmark_tags (db w)
    /\ forall w2, tags (db w2) = tags (db w1) ->
                  TagRepository_findOrCreate env n' w2 = (Return i, w2).
Proof.
  intros Hsame.
  unfold TagRepository_findOrCreate at 1. unfold bind at 1. unfold query_db at 1.
  destruct (GET_TAG_BY_NAME (toLowerCase env n) (db w)) as [t|] eqn:Hfind.
  - exists (tag_id t), w. split; [done|]. split; [done|]. intros w2 Hw2.
    unfold TagRepository_findOrCreate, bind, query_db, GET_TAG_BY_NAME in *.
    by rewrite Hw2, Hsame, Hfind.
  - unfold bind, execute, query_db, INSERT_TAG.
    unfold GET_TAG_BY_NAME in Hfind. rewrite (find_none_existsb _ _ Hfind).
    do 2 eexists. split; [reflexivity|]. split; [done|]. intros w2 Hw2.
    unfold TagRepository_findOrCreate, bind, query_db, GET_TAG_BY_NAME.
    rewrite Hw2, Hsame. cbn [db with_db tags].
    rewrite (find_snoc_new _ _ _ Hfind) by (by apply bool_decide_eq_true). done.
Qed.

(** X26. Tagging a bookmark a second time with a name that normalises
    to the same text changes nothing, whatever the confidence given: the
    link stays stored once, with the confidence it had. *)
Theorem tagging_twice_stores_one_link (b : Z) (conf conf' : option Q) (n n' : jsstr)
    (w : World)
    (Hsame : sql_lower (toLowerCase env n') = sql_lower (toLowerCase env n)) :
  let tag_once :=
    tagId <- TagRepository_findOrCreate env n ;; TagRepository_addToBookmark env b tagId conf in
  let tag_again :=
    tagId <- TagRepository_findOrCreate env n' ;;
    TagRepository_addToBookmark env b tagId conf' in
  tag_again (tag_once w).2 = (Return tt, (tag_once w).2).
Proof.
  cbn zeta.
  destruct (findOrCreate_run n n' w Hsame) as (i & w1 & Hrun & _ & Hagain).
  rewrite (bind_return _ _ w i w1 Hrun).
  unfold TagRepository_addToBookmark at 2. unfold execute. cbn [snd].
  set (w2 := with_db _ w1).
  assert (tags (db w2) = tags (db w1)) as Htags.
  { subst w2. cbn. unfold ADD_BOOKMARK_TAG. by destruct (existsb _ _). }
  rewrite (bind_return _ _ w2 i w2 (Hagain w2 Htags)).
  unfold TagRepository_addToBookmark, execute.
  assert (existsb (fun l' => (bt_bookmark_id l' =? b) && (bt_tag_id l' =? i))
            (bookmark_tags (db w2)) = true) as Hlink.
  { subst w2. cbn. unfold ADD_BOOKMARK_TAG. cbn.
    destruct (existsb _ (bookmark_tags (db w1))) eqn:Hex; [done|]. cbn.
    rewrite existsb_app. cbn. by rewrite !Z.eqb_refl, orb_true_r. }
  unfold ADD_BOOKMARK_TAG at 1. cbn [bt_bookmark_id bt_tag_id]. rewrite Hlink.
  by rewrite with_db_same.
Qed.

(** *** Mirroring Chrome's bookmarks *)

Lemma find_update_selected (sel : Bookmark -> bool) (f : Bookmark -> Bookmark)
      (l : list Bookmark) :
  (forall b, sel b = true -> sel (f b) = true) ->
  List.find sel (List.map (fun b => if sel b then f b else b) l)
  = option_map f (List.find sel l).
Proof.
  intros Hf. induction l as [|b l IH]; [done|]. simpl.
  destruct (sel b) eqn:Hb.
  - by rewrite (Hf b Hb).
  - by rewrite Hb.
Qed.

Lemma find_update_by_id (sel : Bookmark -> bool) (i : Z) (f : Bookmark -> Bookmark)
      (l : list Bookmark) :
  List.find sel l = None ->
  (forall b, sel (f b) = true) -> (forall b, id (f b) = id b) ->
  List.find sel (List.map (fun b => if has_id i b then f b else b) l)
  = option_map f (List.find (has_id i) l).
Proof.
  intros Hnone Hf Hid. induction l as [|b l IH]; [done|]. simpl in *.
  destruct (sel b) eqn:Hb; [done|].
  destruct (has_id i b) eqn:Hi.
  - by rewrite Hf.
  - rewrite Hb. by apply IH.
Qed.

Lemma find_by_id_unique (l : list Bookmark) (e : Bookmark) :
  NoDup (List.map id l) -> In e l -> List.find (has_id (id e)) l = Some e.
Proof.
  intros Hnd Hin.
  destruct (List.find (has_id (id e)) l) as [e'|] eqn:Hf.
  - apply find_some in Hf as [Hin' Hid]. apply Z.eqb_eq in Hid.
    f_equal. by apply (NoDup_map_In_inj id l).
  - apply (find_none _ _ Hf) in Hin. unfold has_id in Hin. by rewrite Z.eqb_refl in Hin.
Qed.

(** What a successful [syncBookmark] leaves: the bookmark, under its
    Chrome id, with Chrome's title and URL. *)
Lemma syncBookmark_stores (cb : ChromeBookmark) (w : World) (r : SyncResult) (w1 : World) :
  NoDup (List.map id (bookmarks (db w))) ->
  cb_id cb <> [] ->
  truthy_str (cb_url cb) = true ->
  syncBookmark env cb w = (Return r, w1) ->
  exists b,
    GET_BOOKMARK_BY_CHROME_ID (cb_id cb) (db w1) = Some b
    /\ originalTitle b = cb_title cb /\ url b = or_empty (cb_url cb).
Proof.
  intros Hids Hcb Hurl. unfold syncBookmark. rewrite Hurl. cbn [negb].
  set (u := or_empty (cb_url cb)).
  unfold bind at 1. unfold findByChromeId at 1, query_db at 1.
  destruct (GET_BOOKMARK_BY_CHROME_ID (cb_id cb) (db w)) as [e|] eqn:He.
  - destruct (bool_decide_reflect (originalTitle e = cb_title cb)) as [Ht|Ht];
      [destruct (bool_decide_reflect (url e = u)) as [Hu|Hu]|]; cbn [negb orb].
    { intros [= <- <-]. by exists e. }
    all: unfold bind, BookmarkRepository_update, execute_checked, UPDATE_BOOKMARK.
    all: destruct (negb _ && _); [done|].
    all: intros [= <- <-]; cbn [db with_db].
    all: unfold GET_BOOKMARK_BY_CHROME_ID in *; unfold update_bookmarks; cbn [bookmarks with_bookmarks].
    all: rewrite find_update_selected, He by done.
    all: by eexists.
  - unfold bind at 1. unfold findByUrl at 1, query_db at 1.
    destruct (GET_BOOKMARK_BY_URL u (db w)) as [e|] eqn:Hbu.
    + assert (In e (bookmarks (db w)) /\ url e = u) as [Hin Heu].
      { unfold GET_BOOKMARK_BY_URL in Hbu. apply find_some in Hbu as [? Hb].
        by apply bool_decide_eq_true in Hb. }
      unfold bind at 1. unfold updateChromeId at 1, execute at 1.
      set (w' := with_db _ w).
      assert (GET_BOOKMARK_BY_CHROME_ID (cb_id cb) (db w')
              = Some (set_chrome_id (Some (cb_id cb)) (now env) e)) as He'.
      { subst w'. unfold GET_BOOKMARK_BY_CHROME_ID in *. cbn.
        rewrite find_update_by_id, find_by_id_unique; try done.
        intros b. unfold has_chrome_id. by apply bool_decide_eq_true. }
      clearbody w'.
      destruct (bool_decide_reflect (originalTitle e = cb_title cb)) as [Ht|Ht]; cbn [negb].
      * intros [= <- <-]. by eexists.
      * unfold bind, BookmarkRepository_update, execute_checked, UPDATE_BOOKMARK.
        destruct (negb _ && _); [done|].
        intros [= <- <-]; cbn [db with_db].
        unfold GET_BOOKMARK_BY_CHROME_ID in *; unfold update_bookmarks.
        cbn [bookmarks with_bookmarks].
        rewrite find_update_selected, He' by done. by eexists.
    + unfold bind, BookmarkRepository_create, execute_checked, INSERT_BOOKMARK.
      unfold GET_BOOKMARK_BY_URL in Hbu. rewrite (find_none_existsb _ _ Hbu).
      intros [= <- <-]. cbn [db with_db]. unfold GET_BOOKMARK_BY_CHROME_ID in *.
      cbn [bookmarks]. eexists. split.
      { apply find_snoc_new; [done|]. unfold has_chrome_id. cbn.
        apply bool_decide_eq_true. unfold or_null. by destruct (cb_id cb). }
      done.
Qed.

(** X27. After [syncBookmark] has returned for a Chrome
    bookmark, with no bookmark id stored twice before, syncing the same
    Chrome bookmark again answers [skipped] and changes nothing; when the
    bookmark has a URL, it is then stored under its Chrome id with the
    title and the URL of Chrome. *)
Theorem syncBookmark_idempotent (cb : ChromeBookmark) (w : World)
    (r : SyncResult) (w1 : World)
    (Hids : NoDup (List.map id (bookmarks (db w))))
    (Hcb : cb_id cb <> [])
    (Hrun : syncBookmark env cb w = (Return r, w1)) :
  syncBookmark env cb w1 = (Return skipped, w1)
  /\ (truthy_str (cb_url cb) = true ->
      exists b,
        GET_BOOKMARK_BY_CHROME_ID (cb_id cb) (db w1) = Some b
        /\ originalTitle b = cb_title cb /\ url b = or_empty (cb_url cb)).
Proof.
  destruct (truthy_str (cb_url cb)) eqn:Hurl.
  - destruct (syncBookmark_stores cb w r w1 Hids Hcb Hurl Hrun) as (b & Hb & Ht & Hu).
    split; [|intros _; by exists b].
    unfold syncBookmark. rewrite Hurl. cbn [negb].
    unfold bind, findByChromeId, query_db. rewrite Hb.
    by rewrite !bool_decide_eq_true_2.
  - split; [|done]. unfold syncBookmark in *. rewrite Hurl in *. cbn [negb] in *.
    by injection Hrun as <- <-.
Qed.

(** *** The repair scan and the detector *)

(** X18. Every bookmark that the repair scan flags
    is one for which [needsRefetch] answers true.  The converse fails for
    short content: text of 1 to 49 characters after trimming is never
    flagged by the scan, though [needsRefetch] is true for it.
    [batchDetect] keeps the ids in order and agrees with [needsRefetch]
    on every entry. *)
Theorem scan_flags_within_needsRefetch (b : Bookmark) :
  (flagged env b = true ->
   Garbled.needsRefetch_content (toLowerCase env) (pageContent b) = true)
  /\ (forall c, pageContent b = Some c ->
        (0 < length (trim c) < 50)%nat ->
        flagged env b = false
        /\ Garbled.needsRefetch_content (toLowerCase env) (pageContent b) = true)
  /\ (forall contents,
        List.map fst (Garbled.batchDetect (toLowerCase env) contents) = List.map fst contents
        /\ List.map (fun e => Garbled.needsRefetch e.2)
             (Garbled.batchDetect (toLowerCase env) contents)
           = List.map (fun e => Garbled.needsRefetch_content (toLowerCase env) e.2) contents).
Proof.
  split; [|split].
  - unfold flagged, Garbled.needsRefetch_content.
    intros [_ H]%andb_true_iff.
    destruct (pageContent b) as [[|c s]|]; [done| |done]. cbn [truthy_str negb orb or_empty] in H.
    destruct (DetectorProps.detect_verdict (toLowerCase env) (c :: s))
      as (_ & Hg & He & Hempty & _).
    apply orb_true_iff in H as [H|H]; [|by apply Hg].
    apply Nat.eqb_eq in H. apply Hempty, He. by destruct (trim (c :: s)).
  - intros c Hc Hlen. rewrite Hc. unfold flagged, Garbled.needsRefetch_content. rewrite Hc.
    assert (c <> []) as Hne by (intros ->; simpl in Hlen; lia).
    destruct c as [|x c]; [done|]. cbn [truthy_str negb orb or_empty].
    unfold Garbled.detectGarbledContent. rewrite DetectorProps.trim_nil_length.
    destruct (length (trim (x :: c)) =? 0)%nat eqn:Hz; [apply Nat.eqb_eq in Hz; lia|].
    destruct (Nat.ltb_spec (length (trim (x :: c))) 50); [|lia].
    cbn. by rewrite andb_false_r.
  - intros contents. apply DetectorProps.batchDetect_needsRefetch.
Qed.

End Flow.

Lemma summarizeBookmark_outcome_witness :
  (exists s, ai_summaries (db (summarizeBookmark Examples.env_up Examples.once_failed
                                 (Examples.world_of [Examples.once_failed])).2) = [s]
             /\ bookmarkId s = 1)
  /\ ai_summaries (db (summarizeBookmark Examples.env_down Examples.once_failed
                         (Examples.world_of [Examples.once_failed])).2) = [].
Proof.
  split.
  - destruct (summarizeBookmark_outcome Examples.env_up Examples.once_failed
                (Examples.world_of [Examples.once_failed]) true ltac:(reflexivity))
      as (_ & _ & s & Hs & Hid).
    exists s. split; [exact Hs | exact Hid].
  - exact (proj2 (summarizeBookmark_outcome Examples.env_down Examples.once_failed
                    (Examples.world_of [Examples.once_failed]) false ltac:(reflexivity))).
Defined.

Lemma failed_attempt_stays_eligible_witness :
  (exists b',
     In b' (bookmarks (db (summarizeBookmark Examples.env_down Examples.once_failed
                             (Examples.world_of [Examples.once_failed])).2))
     /\ retryCount b' = 1 /\ status b' = pending)
  /\ (exists b',
        In b' (bookmarks (db (summarizeBookmark Examples.env_down Examples.twice_failed
                                (Examples.world_of [Examples.twice_failed])).2))
        /\ retryCount b' = 2 /\ status b' = failed).
Proof.
  split.
  - destruct (failed_attempt_stays_eligible Examples.env_down Examples.once_failed
                (Examples.world_of [Examples.once_failed]))
      as (b' & H1 & _ & H3 & H4 & _ & _).
    + left. reflexivity.
    + reflexivity.
    + reflexivity.
    + exists b'. split; [exact H1|]. split; [exact H3 | exact H4].
  - destruct (failed_attempt_stays_eligible Examples.env_down Examples.twice_failed
                (Examples.world_of [Examples.twice_failed]))
      as (b' & H1 & _ & H3 & H4 & _ & _).
    + left. reflexivity.
    + reflexivity.
    + reflexivity.
    + exists b'. split; [exact H1|]. split; [exact H3 | exact H4].
Defined.

Lemma batch_touches_picked_rows_witness :
  (processNextBatch Examples.env_down Examples.stuck_world).1 = Return tt
  /\ List.map id (bookmarks (db (processNextBatch Examples.env_down Examples.stuck_world).2))
     = [1; 2].
Proof.
  assert (NoDup (List.map id (bookmarks (db Examples.stuck_world)))) as Hids.
  { vm_compute. apply NoDup_cons. split; [|apply NoDup_singleton].
    intros H%list_elem_of_singleton. lia. }
  destruct (batch_touches_picked_rows Examples.env_down Examples.stuck_world Hids)
    as (H1 & _ & _ & H2 & _).
  split; [exact H1 | exact H2].
Defined.

Lemma summarizePage_bookmarked_url_witness :
  summarizePage Examples.env_down (lit "A page") (lit "https://example.org/a") None
    (Examples.world_of [Examples.once_failed])
  = (Return false, Examples.world_of [Examples.once_failed]).
Proof.
  apply summarizePage_bookmarked_url.
  - vm_compute. discriminate.
  - reflexivity.
Defined.

Lemma findOrCreate_idempotent_witness :
  exists i t,
    (TagRepository_findOrCreate Examples.env_down (lit "React") (Examples.world_of [])).1
    = Return i
    /\ tag_id t = i.
Proof.
  destruct (findOrCreate_idempotent Examples.env_down (lit "React") (lit "rEACT")
              (Examples.world_of []) ltac:(reflexivity)) as (i & t & H).
  exists i, t. split; [apply H|]. apply H.
Defined.

Lemma tagging_twice_stores_one_link_witness :
  length (bookmark_tags (db
    ((tagId <- TagRepository_findOrCreate Examples.env_down (lit "rEACT") ;;
      TagRepository_addToBookmark Examples.env_down 1 tagId None)
       ((tagId <- TagRepository_findOrCreate Examples.env_down (lit "React") ;;
         TagRepository_addToBookmark Examples.env_down 1 tagId (Some (9 # 10)))
          (Examples.world_of [Examples.once_failed])).2).2)) = 1%nat.
Proof.
  rewrite (tagging_twice_stores_one_link Examples.env_down 1 (Some (9 # 10)) None
             (lit "React") (lit "rEACT") (Examples.world_of [Examples.once_failed])
             ltac:(reflexivity)).
  reflexivity.
Defined.

Lemma syncBookmark_idempotent_witness :
  let cb := mkChrome (lit "17") (lit "B page") (Some (lit "https://example.org/b")) in
  let w1 := (syncBookmark Examples.env_down cb (Examples.world_of [Examples.once_failed])).2 in
  syncBookmark Examples.env_down cb w1 = (Return skipped, w1).
Proof.
  cbn zeta.
  refine (proj1 (syncBookmark_idempotent Examples.env_down _
                   (Examples.world_of [Examples.once_failed]) added _ _ _ _)).
  - vm_compute. apply NoDup_singleton.
  - vm_compute. discriminate.
  - reflexivity.
Defined.

End FlowProps.
